(** * Generic thread support of LibVLC: [src/misc/threads.c]

    A shallow embedding of the condition variable, the read/write lock, the
    counting semaphore and the debug lock-mark tracker, together with the
    properties their description states about them.

    Conventions of the embedding.
    - [unsigned] is 32 bits wide, [long] and [uintptr_t] are 64 bits wide
      (LP64); every arithmetic operation of the source that can wrap is
      written with its wrap-around.
    - A function that can call [abort()], fail an [assert], or go through a
      pointer that designates no live object returns an [outcome].
    - The code between [vlc_mutex_lock] and [vlc_mutex_unlock] of one mutex
      is one transition of the protected data: this is what the mutex
      provides, and it is the granularity at which other threads can see
      the data.
    - The lock-free semaphore is embedded instruction by instruction, each
      atomic access being one transition, and threads are interleaved by an
      explicit schedule. All its accesses are to one atomic cell, so they
      are totally ordered whatever their memory order.
    - Cancellation and the caller's mutex of [vlc_cond_wait] are outside of
      the embedding: a wait that is cancelled or times out is a park that
      returns without having been woken. *)

From Stdlib Require Import ZArith Lia.
From stdpp Require Import base option list gmap.

Open Scope Z_scope.

(** ** Outcomes of a call *)

Inductive outcome (A : Type) : Type :=
| Ok (a : A)      (* the call ran to its end *)
| Aborted         (* [abort()], or an [assert] that does not hold *)
| Fault           (* access through a pointer to no live object *)
| Diverged.       (* a loop exhausted the fuel it was given *)

Arguments Ok {A} a.
Arguments Aborted {A}.
Arguments Fault {A}.
Arguments Diverged {A}.

Definition outcome_bind {A B : Type} (f : A → outcome B) (m : outcome A)
  : outcome B :=
  match m with
  | Ok a => f a
  | Aborted => Aborted
  | Fault => Fault
  | Diverged => Diverged
  end.

#[global] Instance outcome_ret : MRet outcome := @Ok.
#[global] Instance outcome_mbind : MBind outcome := @outcome_bind.

(** [assert (b)] of a build without [NDEBUG]. *)
Definition assert (b : bool) : outcome unit :=
  if b then Ok tt else Aborted.

Definition UINT_MAX : Z := 2 ^ 32 - 1.
Definition LONG_MAX : Z := 2 ^ 63 - 1.
Definition LONG_MIN : Z := - 2 ^ 63.
Definition UINTPTR_MAX : Z := 2 ^ 64 - 1.

(** The value an [unsigned] takes when it is assigned [z]. *)
Definition to_uint (z : Z) : Z := z mod (UINT_MAX + 1).

(** * Condition variables *)

Module Cond.

(** A waiter is designated by the address of the [struct vlc_cond_waiter]
    in the frame of the thread that runs [vlc_cond_wait]. *)
Definition addr := nat.

(** The values of a [struct vlc_cond_waiter **]: the address of the head of
    the condition variable, or of the [next] field of a waiter. *)
Inductive slot : Type :=
| HeadOf
| NextOf (w : addr).

#[global] Instance slot_eq_dec : EqDecision slot.
Proof. solve_decision. Defined.

(** [struct vlc_cond_waiter]. The [cond] field always designates the one
    condition variable [world] describes; [mutex] names the caller's
    mutex. *)
Record vlc_cond_waiter : Type := Waiter {
  pprev : slot;
  next : option addr;
  value : Z;
  mutex : nat;
}.

(** A condition variable with the memory its queue lives in: the head
    pointer ([cond->head]), the waiter objects that are in scope, and the
    calls of [vlc_atomic_notify_one] made so far, oldest first, each with
    the waiter whose [value] cell it was made on. *)
Record world : Type := World {
  head : option addr;
  stack : gmap addr vlc_cond_waiter;
  notified : list addr;
}.

Definition set_head (v : option addr) (σ : world) : world :=
  {| head := v; stack := stack σ; notified := notified σ |}.

Definition load (w : addr) (σ : world) : outcome vlc_cond_waiter :=
  match stack σ !! w with
  | Some r => Ok r
  | None => Fault
  end.

Definition store (w : addr) (r : vlc_cond_waiter) (σ : world) : world :=
  {| head := head σ; stack := <[w := r]> (stack σ); notified := notified σ |}.

(** Modelled from the spec: the wait cell is a collaborator with a
    "non-blocking notify-one"; a call is recorded with the waiter whose
    cell it is made on. *)
Definition vlc_atomic_notify_one (w : addr) (σ : world) : world :=
  {| head := head σ; stack := stack σ; notified := notified σ ++ [w] |}.

(** [*s = v] *)
Definition store_slot (s : slot) (v : option addr) (σ : world)
  : outcome world :=
  match s with
  | HeadOf => Ok (set_head v σ)
  | NextOf w =>
      r ← load w σ;
      Ok (store w {| pprev := pprev r; next := v; value := value r;
                     mutex := mutex r |} σ)
  end.

(** [if (n != NULL) n->pprev = s] *)
Definition store_pprev (n : option addr) (s : slot) (σ : world)
  : outcome world :=
  match n with
  | None => Ok σ
  | Some a =>
      r ← load a σ;
      Ok (store a {| pprev := s; next := next r; value := value r;
                     mutex := mutex r |} σ)
  end.

Definition vlc_cond_init : world :=
  {| head := None; stack := ∅; notified := [] |}.

(** [assert(cond->head == NULL)] *)
Definition vlc_cond_destroy (σ : world) : outcome unit :=
  assert (bool_decide (head σ = None)).

Definition vlc_cond_signal_waiter (w : addr) (σ : world) : outcome world :=
  r ← load w σ;
  let σ1 := store w {| pprev := NextOf w; next := None;
                       value := to_uint (value r + 1);
                       mutex := mutex r |} σ in
  Ok (vlc_atomic_notify_one w σ1).

Definition vlc_cond_signal (σ : world) : outcome world :=
  match head σ with
  | None => Ok σ
  | Some waiter =>
      r ← load waiter σ;
      let next := next r in
      let pprev := pprev r in
      σ1 ← store_slot pprev next σ;
      σ2 ← store_pprev next pprev σ1;
      vlc_cond_signal_waiter waiter σ2
  end.

(** The [while (waiter != NULL)] loop of [vlc_cond_broadcast]. *)
Fixpoint broadcast_loop (fuel : nat) (waiter : option addr) (σ : world)
  : outcome world :=
  match waiter with
  | None => Ok σ
  | Some w =>
      match fuel with
      | O => Diverged
      | S fuel' =>
          r ← load w σ;
          let next := next r in
          σ1 ← vlc_cond_signal_waiter w σ;
          broadcast_loop fuel' next σ1
      end
  end.

(** The first [k] turns of that loop: the waiter it has come to and the
    state it has made. *)
Fixpoint broadcast_turns (k : nat) (waiter : option addr) (σ : world)
  : outcome (option addr * world) :=
  match k, waiter with
  | O, _ | S _, None => Ok (waiter, σ)
  | S k', Some w =>
      r ← load w σ;
      let next := next r in
      σ1 ← vlc_cond_signal_waiter w σ;
      broadcast_turns k' next σ1
  end.

(** Every turn of the loop but the last one clears a [next] field that was
    set, so one turn more than there are waiters is fuel enough. *)
Definition vlc_cond_broadcast (σ : world) : outcome world :=
  let waiter := head σ in
  let σ1 := set_head None σ in
  broadcast_loop (S (size (stack σ))) waiter σ1.

(** The waiter object comes into scope at [w]; its fields are assigned and
    it is put in front of the queue. (The registration of the cell for
    cancellation and the release of the caller's mutex, which follow, change
    nothing of the queue.) *)
Definition vlc_cond_wait_prepare (w : addr) (mtx : nat) (σ : world)
  : outcome world :=
  let next := head σ in
  let σ1 := store w {| pprev := HeadOf; next := next; value := 0;
                       mutex := mtx |} σ in
  let σ2 := set_head (Some w) σ1 in
  store_pprev next (NextOf w) σ2.

(** The unlink of the waiter, under [cond->lock]. (The caller's mutex is
    locked again afterwards.) *)
Definition vlc_cond_wait_finish (w : addr) (σ : world) : outcome world :=
  r ← load w σ;
  let next := next r in
  σ1 ← store_slot (pprev r) next σ;
  r1 ← load w σ1;
  store_pprev next (pprev r1) σ1.

(** Modelled from the spec: the park of the wait cell, "parking a thread
    until an atomic word changes from an expected value".
    [vlc_atomic_wait(&waiter.value, 0)] has a reason to return once the cell
    no longer holds 0. *)
Definition woken (w : addr) (σ : world) : bool :=
  match stack σ !! w with
  | Some r => negb (value r =? 0)
  | None => false
  end.

(** What [vlc_cond_wait] does once the park has returned: the cleanup, then
    the waiter goes out of scope. *)
Definition vlc_cond_wait_return (w : addr) (σ : world) : outcome world :=
  σ1 ← vlc_cond_wait_finish w σ;
  Ok {| head := head σ1; stack := delete w (stack σ1);
        notified := notified σ1 |}.

(** [waits ts]: the threads of [ts] enter [vlc_cond_wait] one after the
    other, the first of the list first. *)
Fixpoint waits (ts : list addr) (mtx : nat) (σ : world) : outcome world :=
  match ts with
  | [] => Ok σ
  | t :: ts' => σ1 ← vlc_cond_wait_prepare t mtx σ; waits ts' mtx σ1
  end.

(** [n] calls of [vlc_cond_signal] in a row. *)
Fixpoint signals (n : nat) (σ : world) : outcome world :=
  match n with
  | O => Ok σ
  | S n' => σ1 ← vlc_cond_signal σ; signals n' σ1
  end.

(** The order in which [length ts] calls of [vlc_cond_signal] wake the
    threads of [ts], which entered [vlc_cond_wait] in the order of [ts]. *)
Definition wake_order (ts : list addr) : outcome (list addr) :=
  σ1 ← waits ts 0%nat vlc_cond_init;
  σ2 ← signals (length ts) σ1;
  Ok (notified σ2).

(** *** Shape of the queue

    [lseg m s cur l]: following [next] from the pointer [cur] visits exactly
    the waiters of [l], in this order, up to [NULL], and the [pprev] of each
    one is the address of the pointer it was reached through, [s] for the
    first. *)
Fixpoint lseg (m : gmap addr vlc_cond_waiter) (s : slot) (cur : option addr)
  (l : list addr) : Prop :=
  match l with
  | [] => cur = None
  | w :: l' =>
      cur = Some w ∧
      ∃ r, m !! w = Some r ∧ pprev r = s ∧ lseg m (NextOf w) (next r) l'
  end.

(** The queue of the condition variable holds [l], head first. *)
Definition queue (σ : world) (l : list addr) : Prop :=
  lseg (stack σ) HeadOf (head σ) l.

(** The linkage of [w] points at [w] only. *)
Definition detached (w : addr) (σ : world) : Prop :=
  ∃ r, stack σ !! w = Some r ∧ pprev r = NextOf w ∧ next r = None.

(** The [value] cell of a waiter, 0 when there is no such waiter. *)
Definition value_of (w : addr) (σ : world) : Z :=
  match stack σ !! w with
  | Some r => value r
  | None => 0
  end.

(** The pointer at address [s] holds [cur]. *)
Definition slot_holds (σ : world) (s : slot) (cur : option addr) : Prop :=
  match s with
  | HeadOf => head σ = cur
  | NextOf p => ∃ rp, stack σ !! p = Some rp ∧ next rp = cur
  end.

(** Two waiter records that differ at most in [next]. *)
Definition same_but_next (r r' : vlc_cond_waiter) : Prop :=
  pprev r' = pprev r ∧ value r' = value r ∧ mutex r' = mutex r.

(** *** Calls made on a condition variable

    [Wait w mtx]: a thread enters [vlc_cond_wait] (or a timed wait) with its
    waiter object at [w] and parks. [Return w]: the park of that thread has
    returned (it was woken, timed out, was cancelled, or woke spuriously) and
    the thread runs the rest of the call. *)
Inductive cond_op : Type :=
| Wait (w : addr) (mtx : nat)
| Signal
| Broadcast
| Return (w : addr).

(** A new automatic object never shares the address of a live one, and only
    a thread that is in a wait can return from it. *)
Definition enabled (o : cond_op) (σ : world) : Prop :=
  match o with
  | Wait w _ => stack σ !! w = None
  | Return w => is_Some (stack σ !! w)
  | Signal | Broadcast => True
  end.

Definition run_op (o : cond_op) (σ : world) : outcome world :=
  match o with
  | Wait w mtx => vlc_cond_wait_prepare w mtx σ
  | Signal => vlc_cond_signal σ
  | Broadcast => vlc_cond_broadcast σ
  | Return w => vlc_cond_wait_return w σ
  end.

Inductive steps : world → list cond_op → world → Prop :=
| steps_nil σ : steps σ [] σ
| steps_cons σ o σ1 os σ' :
    enabled o σ → run_op o σ = Ok σ1 → steps σ1 os σ' →
    steps σ (o :: os) σ'.

(** The worlds that calls on a fresh condition variable lead to. *)
Definition reachable (σ : world) : Prop := ∃ os, steps vlc_cond_init os σ.

(** The state of a condition variable between two calls: the queue is a
    well-formed list of waiters parked on a cell that holds 0, and every
    other live waiter has been detached. *)
Definition wf_with (σ : world) (l : list addr) : Prop :=
  queue σ l ∧
  (∀ x, x ∈ l → value_of x σ = 0) ∧
  (∀ x, is_Some (stack σ !! x) → x ∉ l → detached x σ).

Definition wf (σ : world) : Prop := ∃ l, wf_with σ l.

(** [leave σ ws σ']: the threads of [ws] return from [vlc_cond_wait] one
    after the other, each one because its cell no longer holds 0. *)
Inductive leave : world → list addr → world → Prop :=
| leave_nil σ : leave σ [] σ
| leave_cons σ w σ1 ws σ' :
    woken w σ = true → vlc_cond_wait_return w σ = Ok σ1 →
    leave σ1 ws σ' → leave σ (w :: ws) σ'.

(** The waiter a call is made with, if any. *)
Definition op_waiter (o : cond_op) : option addr :=
  match o with
  | Wait w _ | Return w => Some w
  | Signal | Broadcast => None
  end.

(** The waiters whose [next] field is set: what the loop of
    [vlc_cond_broadcast] consumes. *)
Definition linked (m : gmap addr vlc_cond_waiter) : nat :=
  size (filter (λ kv : addr * vlc_cond_waiter, next kv.2 ≠ None) m).

(** *** Sample states *)

Definition world_of (m : outcome world) : world :=
  match m with
  | Ok σ => σ
  | _ => vlc_cond_init
  end.

Fixpoint run_ops (os : list cond_op) (σ : world) : outcome world :=
  match os with
  | [] => Ok σ
  | o :: os' => σ1 ← run_op o σ; run_ops os' σ1
  end.

(** Threads 1, 2 and 3 have entered [vlc_cond_wait], in this order. *)
Definition three_parked : world :=
  world_of (waits [1; 2; 3]%nat 0%nat vlc_cond_init).

(** Then one call of [vlc_cond_signal] was made. *)
Definition three_parked_signalled : world :=
  world_of (vlc_cond_signal three_parked).

(** Then thread 4 entered a wait, a second signal was sent, and thread 2
    left its wait without having been woken. *)
Definition later_calls : list cond_op :=
  [Wait 4%nat 0%nat; Signal; Return 2%nat].

Definition three_parked_later : world :=
  world_of (run_ops later_calls three_parked_signalled).

(** *** The rest of the waiting calls *)

(** [vlc_cond_wait_cleanup]: the waiter it is given carries its condition
    variable and its mutex. *)
Definition vlc_cond_wait_cleanup (w : addr) (σ : world) : outcome world :=
  vlc_cond_wait_finish w σ.

(** What [vlc_cond_timedwait] and [vlc_cond_timedwait_daytime] do once the
    park has returned [ret]: the cleanup, the end of the scope of the
    waiter, and [return ret]. *)
Definition vlc_cond_timedwait_return (ret : Z) (w : addr) (σ : world)
  : outcome (Z * world) :=
  σ1 ← vlc_cond_wait_cleanup w σ;
  Ok (ret, {| head := head σ1; stack := delete w (stack σ1);
              notified := notified σ1 |}).

(** What [vlc_cond_signal_waiter] makes of the record of the waiter at
    [w]. *)
(** A well-formed state in which, besides, every live waiter that is out
    of the queue has had its cell incremented once. *)
Definition settled (σ : world) (l : list addr) : Prop :=
  wf_with σ l ∧
  ∀ x, is_Some (stack σ !! x) → x ∉ l → value_of x σ = 1.

Definition woken_record (w : addr) (r : vlc_cond_waiter) : vlc_cond_waiter :=
  {| pprev := NextOf w; next := None; value := to_uint (value r + 1);
     mutex := mutex r |}.

End Cond.

(** * Counting semaphores *)

Module Sem.

(** Modelled from the spec: the status [post()] fails with at the maximum
    count, and the status a timed park returns when its deadline elapses, are
    the [errno.h] values [EOVERFLOW] and [ETIMEDOUT] (here those of Linux);
    they are distinct from each other and from the success status 0. *)
Definition EOVERFLOW : Z := 75.
Definition ETIMEDOUT : Z := 110.

(** The three entry points. *)
Inductive func : Type := Post | SemWait | TimedWait.

(** Where a thread is in the code. [exp] is the local variable of that
    name.
    - [PostLoad]: at the [atomic_load_explicit] of [vlc_sem_post];
      [PostTest exp]: at [if (exp == UINT_MAX)]; [PostCas exp]: at the
      compare-exchange; [PostNotify]: at [vlc_atomic_notify_one].
    - [WaitCas exp]: at the compare-exchange of [vlc_sem_wait];
      [WaitTest exp]: at [if (exp == 0)]; [WaitPark]: in [vlc_atomic_wait].
    - [TimedCas], [TimedTest], [TimedPark]: the same points of
      [vlc_sem_timedwait], the park being [vlc_atomic_timedwait]. *)
Inductive pc : Type :=
| Idle
| PostLoad
| PostTest (exp : Z)
| PostCas (exp : Z)
| PostNotify
| WaitCas (exp : Z)
| WaitTest (exp : Z)
| WaitPark
| TimedCas (exp : Z)
| TimedTest (exp : Z)
| TimedPark.

#[global] Instance pc_eq_dec : EqDecision pc.
Proof. solve_decision. Defined.

(** What the environment decides for one instruction.
    - [Normal]: a compare-exchange fails only if the cell differs from the
      expected value; a park sleeps for as long as the cell holds 0.
    - [Spurious]: a weak compare-exchange fails although the cell holds the
      expected value; a park returns although the cell still holds 0
      (somebody notified the cell, or the wake-up is spurious).
    - [Elapsed]: the deadline of a timed park elapses. *)
Inductive choice : Type := Normal | Spurious | Elapsed.

Definition spurious (c : choice) : bool :=
  match c with
  | Spurious => true
  | Normal | Elapsed => false
  end.

(** What a thread does that others can see. [Inc old]: the count went from
    [old] to [old + 1]; [Dec old]: from [old] to [old - 1]; [Notify]: a call
    of [vlc_atomic_notify_one] on the count; [Ret f r]: [f] returned [r]
    (0 for [vlc_sem_wait], which returns nothing). *)
Inductive event : Type :=
| Call (f : func)
| Inc (old : Z)
| Dec (old : Z)
| Notify
| Ret (f : func) (r : Z).

#[global] Instance func_eq_dec : EqDecision func.
Proof. solve_decision. Defined.
#[global] Instance event_eq_dec : EqDecision event.
Proof. solve_decision. Defined.

(** [atomic_compare_exchange_weak_explicit(&sem->value, &exp, desired)] on a
    cell that holds [v]: whether it succeeded, what the cell holds afterwards
    and what [exp] holds afterwards. *)
Definition cas_weak (c : choice) (v exp desired : Z) : bool * Z * Z :=
  if (v =? exp) && negb (spurious c)
  then (true, desired, exp)
  else (false, v, v).

(** Modelled from the spec: the wait cell is a collaborator, "parking a
    thread until an atomic word changes from an expected value, with
    optional timeout" and answering "woken or timeout".
    [vlc_atomic_wait(&sem->value, 0)] on a cell that holds [v]: whether it
    returns at this instant. *)
Definition vlc_atomic_wait (c : choice) (v : Z) : bool :=
  negb (v =? 0) || spurious c.

(** Modelled from the spec: [vlc_atomic_timedwait(&sem->value, 0, deadline)]
    on a cell that holds [v]: [None] while it sleeps, [Some 0] when it
    returns woken, [Some ETIMEDOUT] when the deadline elapses. *)
Definition vlc_atomic_timedwait (c : choice) (v : Z) : option Z :=
  match c with
  | Elapsed => Some ETIMEDOUT
  | Spurious => Some 0
  | Normal => if v =? 0 then None else Some 0
  end.

(** One instruction of a thread at [p] while the count holds [v]: where the
    thread is next, what the count holds next, and what could be seen. *)
Definition thread_step (c : choice) (p : pc) (v : Z) : pc * Z * list event :=
  match p with
  | Idle => (Idle, v, [])
  (* vlc_sem_post *)
  | PostLoad => (PostTest v, v, [])
  | PostTest exp =>
      if exp =? UINT_MAX then (Idle, v, [Ret Post EOVERFLOW])
      else (PostCas exp, v, [])
  | PostCas exp =>
      match cas_weak c v exp (to_uint (exp + 1)) with
      | (true, v', _) => (PostNotify, v', [Inc exp])
      | (false, v', exp') => (PostTest exp', v', [])
      end
  | PostNotify => (Idle, v, [Notify; Ret Post 0])
  (* vlc_sem_wait *)
  | WaitCas exp =>
      match cas_weak c v exp (to_uint (exp - 1)) with
      | (true, v', _) => (Idle, v', [Dec exp; Ret SemWait 0])
      | (false, v', exp') => (WaitTest exp', v', [])
      end
  | WaitTest exp =>
      if exp =? 0 then (WaitPark, v, []) else (WaitCas exp, v, [])
  | WaitPark =>
      if vlc_atomic_wait c v then (WaitCas 1, v, []) else (WaitPark, v, [])
  (* vlc_sem_timedwait *)
  | TimedCas exp =>
      match cas_weak c v exp (to_uint (exp - 1)) with
      | (true, v', _) => (Idle, v', [Dec exp; Ret TimedWait 0])
      | (false, v', exp') => (TimedTest exp', v', [])
      end
  | TimedTest exp =>
      if exp =? 0 then (TimedPark, v, []) else (TimedCas exp, v, [])
  | TimedPark =>
      match vlc_atomic_timedwait c v with
      | None => (TimedPark, v, [])
      | Some ret =>
          if ret =? 0 then (TimedCas 1, v, [])
          else (Idle, v, [Ret TimedWait ret])
      end
  end.

(** Where a call starts: [vlc_sem_wait] and [vlc_sem_timedwait] start with
    [exp = 1]. *)
Definition entry (f : func) : pc :=
  match f with
  | Post => PostLoad
  | SemWait => WaitCas 1
  | TimedWait => TimedCas 1
  end.

(** A semaphore and the threads that use it. A thread that is not in the
    map is outside of any call. *)
Record state : Type := State {
  value : Z;
  threads : gmap nat pc;
}.

Definition vlc_sem_init (v : Z) : state :=
  {| value := to_uint v; threads := ∅ |}.

Definition pc_of (t : nat) (s : state) : pc :=
  default Idle (threads s !! t).

(** A thread enters a call, or runs its next instruction. *)
Inductive action : Type :=
| Enter (f : func)
| Run (c : choice).

Definition trace : Type := list (nat * event).

(** What a turn of the scheduler makes a thread at [p] do. A turn that asks
    for what the thread cannot do (enter a call inside a call, run outside
    of any call) does nothing. *)
Definition turn (a : action) (p : pc) (v : Z) : pc * Z * list event :=
  match a, p with
  | Enter f, Idle => (entry f, v, [Call f])
  | Enter _, _ => (p, v, [])
  | Run c, _ => thread_step c p v
  end.

(** One turn of the scheduler. *)
Definition step (ta : nat * action) (s : state) : state * trace :=
  let '(p', v', es) := turn ta.2 (pc_of ta.1 s) (value s) in
  ({| value := v'; threads := <[ta.1 := p']> (threads s) |},
   (λ e, (ta.1, e)) <$> es).

(** A whole schedule. *)
Fixpoint exec (sch : list (nat * action)) (s : state) : state * trace :=
  match sch with
  | [] => (s, [])
  | ta :: sch' =>
      let '(s1, es) := step ta s in
      let '(s2, tr) := exec sch' s1 in
      (s2, es ++ tr)
  end.

(** What thread [t] did. *)
Definition events_of (t : nat) (tr : trace) : list event :=
  omap (λ te : nat * event,
          if decide (te.1 = t) then Some te.2 else None) tr.

Fixpoint count (f : event → bool) (tr : trace) : Z :=
  match tr with
  | [] => 0
  | te :: tr' => (if f te.2 then 1 else 0) + count f tr'
  end.

(** The calls of [vlc_sem_post] that returned 0. *)
Definition posts (tr : trace) : Z :=
  count (λ e, bool_decide (e = Ret Post 0)) tr.

(** The calls of [vlc_sem_wait] that returned and the calls of
    [vlc_sem_timedwait] that returned 0. *)
Definition waits (tr : trace) : Z :=
  count (λ e, bool_decide (e = Ret SemWait 0)
              || bool_decide (e = Ret TimedWait 0)) tr.

(** 1 for a thread that has added 1 to the count in [vlc_sem_post] and has
    not returned yet. *)
Definition notifying (p : pc) : Z := if decide (p = PostNotify) then 1 else 0.

(** The calls of [vlc_sem_post] that have added 1 to the count and have not
    returned yet. *)
Definition posting (s : state) : Z :=
  Z.of_nat (size (filter (λ tp : nat * pc, tp.2 = PostNotify) (threads s))).

(** No thread is inside a call. *)
Definition quiescent (s : state) : Prop :=
  map_Forall (λ _ p, p = Idle) (threads s).

(** What a finished call of one thread looks like from outside. *)
Inductive complete_call : list event → Prop :=
| post_overflow : complete_call [Call Post; Ret Post EOVERFLOW]
| post_done old :
    0 ≤ old < UINT_MAX →
    complete_call [Call Post; Inc old; Notify; Ret Post 0]
| wait_done old :
    0 < old ≤ UINT_MAX →
    complete_call [Call SemWait; Dec old; Ret SemWait 0]
| timedwait_done old :
    0 < old ≤ UINT_MAX →
    complete_call [Call TimedWait; Dec old; Ret TimedWait 0]
| timedwait_timeout :
    complete_call [Call TimedWait; Ret TimedWait ETIMEDOUT].

(** A finished call of [vlc_sem_post]: it returned [EOVERFLOW] and did
    nothing else, or it returned 0 after one increment and one
    notification. *)
Definition post_shape (c : list event) : Prop :=
  ∀ r, Ret Post r ∈ c →
       (r = EOVERFLOW ∧ c = [Call Post; Ret Post EOVERFLOW]) ∨
       (r = 0 ∧ ∃ old, 0 ≤ old < UINT_MAX ∧
                       c = [Call Post; Inc old; Notify; Ret Post 0]).

(** A finished call of [vlc_sem_timedwait]: it returned [ETIMEDOUT] and
    did nothing else, or it returned 0 after one decrement. *)
Definition timedwait_shape (c : list event) : Prop :=
  ∀ r, Ret TimedWait r ∈ c →
       (r = ETIMEDOUT ∧ c = [Call TimedWait; Ret TimedWait ETIMEDOUT]) ∨
       (r = 0 ∧ ∃ old, 0 < old ≤ UINT_MAX ∧
                       c = [Call TimedWait; Dec old; Ret TimedWait 0]).

(** What a thread at [p] has let see of the call it is in. *)
Definition partial_call (p : pc) (es : list event) : Prop :=
  match p with
  | Idle => es = []
  | PostLoad | PostTest _ | PostCas _ => es = [Call Post]
  | PostNotify => ∃ old, 0 ≤ old < UINT_MAX ∧ es = [Call Post; Inc old]
  | WaitCas _ | WaitTest _ | WaitPark => es = [Call SemWait]
  | TimedCas _ | TimedTest _ | TimedPark => es = [Call TimedWait]
  end.

(** The events of a thread at [p]: finished calls, then the call it is
    in. *)
Definition history (p : pc) (es : list event) : Prop :=
  ∃ calls cur,
    es = concat calls ++ cur ∧ Forall complete_call calls ∧
    partial_call p cur.

(** The values [exp] can hold at each point. *)
Definition pc_ok (p : pc) : Prop :=
  match p with
  | PostTest exp | WaitTest exp | TimedTest exp => 0 ≤ exp ≤ UINT_MAX
  | PostCas exp => 0 ≤ exp < UINT_MAX
  | WaitCas exp | TimedCas exp => 0 < exp ≤ UINT_MAX
  | Idle | PostLoad | PostNotify | WaitPark | TimedPark => True
  end.

Definition state_ok (s : state) : Prop :=
  0 ≤ value s ≤ UINT_MAX ∧ ∀ t, pc_ok (pc_of t s).

(** Whether a thread is inside [vlc_sem_post]. *)
Definition in_post (p : pc) : bool :=
  match p with
  | PostLoad | PostTest _ | PostCas _ | PostNotify => true
  | _ => false
  end.

(** A schedule in which no thread is in, or enters, [vlc_sem_post]. *)
Fixpoint no_post (sch : list (nat * action)) (s : state) : Prop :=
  match sch with
  | [] => True
  | ta :: sch' =>
      ta.2 ≠ Enter Post ∧ in_post (pc_of ta.1 s) = false ∧
      no_post sch' (step ta s).1
  end.

(** A call of [vlc_sem_post] by [t] with no other thread running, whose
    weak compare-exchange fails [k] times before it succeeds. *)
Definition post_alone (t : nat) (k : nat) : list (nat * action) :=
  [(t, Enter Post); (t, Run Normal); (t, Run Normal)]
  ++ concat (replicate k [(t, Run Spurious); (t, Run Normal)])
  ++ [(t, Run Normal); (t, Run Normal)].

(** *** Sample runs *)

(** On a semaphore initialised to 1: thread 1 posts, thread 2 waits,
    thread 3 waits with a deadline; each call runs to its end. *)
Definition sample_calls : list (nat * action) :=
  [(1, Enter Post); (2, Enter SemWait); (1, Run Normal); (2, Run Normal);
   (1, Run Normal); (3, Enter TimedWait); (1, Run Spurious);
   (1, Run Normal); (1, Run Normal); (3, Run Normal); (1, Run Normal);
   (3, Run Normal); (3, Run Normal)]%nat.

Definition sample_state : state := (exec sample_calls (vlc_sem_init 1)).1.

(** Then threads 4 and 5 come to wait, and the deadline of thread 5
    elapses. *)
Definition sample_waiters : list (nat * action) :=
  [(4, Enter SemWait); (4, Run Normal); (5, Enter TimedWait);
   (4, Run Normal); (5, Run Normal); (4, Run Spurious); (5, Run Normal);
   (4, Run Normal); (4, Run Normal); (5, Run Elapsed)]%nat.

(** Thread 5 is parked in [vlc_sem_timedwait]. *)
Definition sample_parked : list (nat * action) :=
  sample_calls ++
  [(5, Enter TimedWait); (5, Run Normal); (5, Run Normal)]%nat.

(** On a semaphore initialised to 0, thread 7 is parked in
    [vlc_sem_wait]. *)
Definition sample_sleeper : state :=
  (exec [(7, Enter SemWait); (7, Run Normal); (7, Run Normal)]%nat
        (vlc_sem_init 0)).1.

(** Three threads come for the two permits of a semaphore initialised to
    2; the deadline of the third elapses in its park. *)
Definition sample_rush : list (nat * action) :=
  [(1, Enter SemWait); (2, Enter SemWait); (3, Enter TimedWait);
   (1, Run Normal); (1, Run Normal); (2, Run Normal); (1, Run Normal);
   (2, Run Normal); (2, Run Normal); (2, Run Normal); (2, Run Normal);
   (3, Run Normal); (3, Run Normal); (3, Run Elapsed)]%nat.

End Sem.

(** * Read/write locks *)

Module RWLock.

(** [lock->state] is a signed long: the sign bit is set when the lock is
    held for writing, the other bits count the times it is held for
    reading. *)
Definition READER_MASK : Z := LONG_MAX.
Definition WRITER_BIT : Z := LONG_MIN.

(** [vlc_rwlock_t]: the state word and the condition variable, both
    protected by [lock->mutex]. *)
Record vlc_rwlock_t : Type := RWLock {
  state : Z;
  wait : Cond.world;
}.

(** The name of [lock->mutex] in the waiters of [lock->wait]. *)
Definition lock_mutex : nat := 0%nat.

Definition vlc_rwlock_init : vlc_rwlock_t :=
  {| state := 0; wait := Cond.vlc_cond_init |}.

Definition vlc_rwlock_destroy (lock : vlc_rwlock_t) : outcome unit :=
  Cond.vlc_cond_destroy (wait lock).

(** How a locking call leaves its thread when it next releases
    [lock->mutex]: with the lock, or parked in [vlc_cond_wait]. *)
Inductive progress : Type :=
| Acquired (lock : vlc_rwlock_t)
| Parked (lock : vlc_rwlock_t).

(** [vlc_rwlock_rdlock], from a point where the mutex is held and the test
    of the [while] is next, by the thread whose waiter object would be
    at [w]. [lock->state++] cannot overflow after the test that precedes
    it. *)
Definition vlc_rwlock_rdlock (w : Cond.addr) (lock : vlc_rwlock_t)
  : outcome progress :=
  if state lock <? 0 then
    _ ← assert (state lock =? WRITER_BIT);
    c ← Cond.vlc_cond_wait_prepare w lock_mutex (wait lock);
    Ok (Parked {| state := state lock; wait := c |})
  else if state lock >=? READER_MASK then Aborted
  else Ok (Acquired {| state := state lock + 1; wait := wait lock |}).

(** [vlc_rwlock_wrlock], from the same point. *)
Definition vlc_rwlock_wrlock (w : Cond.addr) (lock : vlc_rwlock_t)
  : outcome progress :=
  if negb (state lock =? 0) then
    c ← Cond.vlc_cond_wait_prepare w lock_mutex (wait lock);
    Ok (Parked {| state := state lock; wait := c |})
  else Ok (Acquired {| state := WRITER_BIT; wait := wait lock |}).

(** The park of a thread in [vlc_rwlock_rdlock] or [vlc_rwlock_wrlock] has
    returned: [vlc_cond_wait] ends, and the test of the [while] is next. *)
Definition resume (write : bool) (w : Cond.addr) (lock : vlc_rwlock_t)
  : outcome progress :=
  c ← Cond.vlc_cond_wait_return w (wait lock);
  let lock1 := {| state := state lock; wait := c |} in
  if write then vlc_rwlock_wrlock w lock1 else vlc_rwlock_rdlock w lock1.

(** [vlc_rwlock_unlock]. [--lock->state] is written on a state that the
    [assert] has found positive. *)
Definition vlc_rwlock_unlock (lock : vlc_rwlock_t) : outcome vlc_rwlock_t :=
  if state lock <? 0 then
    (* Write unlock *)
    _ ← assert (state lock =? WRITER_BIT);
    c ← Cond.vlc_cond_broadcast (wait lock);
    Ok {| state := 0; wait := c |}
  else
    (* Read unlock *)
    _ ← assert (0 <? state lock);
    let st := state lock - 1 in
    if st =? 0 then
      c ← Cond.vlc_cond_signal (wait lock);
      Ok {| state := st; wait := c |}
    else Ok {| state := st; wait := wait lock |}.

(** *** The lock and the threads that use it

    Next to the lock, what the code does not record: how many times the lock
    is held for writing and for reading, and which threads are parked in a
    locking call ([true] for [vlc_rwlock_wrlock]). *)
Record system : Type := System {
  lock : vlc_rwlock_t;
  writers : nat;
  readers : nat;
  sleepers : gmap Cond.addr bool;
}.

Definition boot : system :=
  {| lock := vlc_rwlock_init; writers := 0; readers := 0; sleepers := ∅ |}.

(** What threads do with the lock. [Wake w]: the park of the thread whose
    waiter is at [w] returns. [UnlockWrite] and [UnlockRead] are both a call
    of [vlc_rwlock_unlock], by a thread that holds the lock for writing,
    respectively for reading. *)
Inductive call : Type :=
| RdLock (w : Cond.addr)
| WrLock (w : Cond.addr)
| Wake (w : Cond.addr)
| UnlockWrite
| UnlockRead.

(** A thread enters a locking call with a waiter address no live waiter
    has; only a parked thread wakes; only a holder unlocks. *)
Definition permitted (c : call) (s : system) : Prop :=
  match c with
  | RdLock w | WrLock w => Cond.stack (wait (lock s)) !! w = None
  | Wake w => is_Some (sleepers s !! w)
  | UnlockWrite => (0 < writers s)%nat
  | UnlockRead => (0 < readers s)%nat
  end.

(** The thread ends up with the lock, or parked. *)
Definition settle (write : bool) (w : Cond.addr) (s : system)
  (p : progress) : system :=
  match p with
  | Acquired l =>
      {| lock := l;
         writers := if write then S (writers s) else writers s;
         readers := if write then readers s else S (readers s);
         sleepers := delete w (sleepers s) |}
  | Parked l =>
      {| lock := l; writers := writers s; readers := readers s;
         sleepers := <[w := write]> (sleepers s) |}
  end.

Definition run_call (c : call) (s : system) : outcome system :=
  match c with
  | RdLock w => p ← vlc_rwlock_rdlock w (lock s); Ok (settle false w s p)
  | WrLock w => p ← vlc_rwlock_wrlock w (lock s); Ok (settle true w s p)
  | Wake w =>
      match sleepers s !! w with
      | Some write => p ← resume write w (lock s); Ok (settle write w s p)
      | None => Fault
      end
  | UnlockWrite =>
      l ← vlc_rwlock_unlock (lock s);
      Ok {| lock := l; writers := pred (writers s); readers := readers s;
            sleepers := sleepers s |}
  | UnlockRead =>
      l ← vlc_rwlock_unlock (lock s);
      Ok {| lock := l; writers := writers s; readers := pred (readers s);
            sleepers := sleepers s |}
  end.

Inductive runs : system → list call → system → Prop :=
| runs_nil s : runs s [] s
| runs_cons s c s1 cs s' :
    permitted c s → run_call c s = Ok s1 → runs s1 cs s' →
    runs s (c :: cs) s'.

Definition reachable (s : system) : Prop := ∃ cs, runs boot cs s.

(** The state word says who holds the lock. *)
Definition encoded (s : system) : Prop :=
  (writers s = 0%nat ∧ state (lock s) = Z.of_nat (readers s) ∧
   state (lock s) ≤ READER_MASK) ∨
  (writers s = 1%nat ∧ readers s = 0%nat ∧ state (lock s) = WRITER_BIT).

(** The parked threads are the live waiters of the condition variable,
    which is in a well-formed state. *)
Definition parked_ok (s : system) : Prop :=
  Cond.wf (wait (lock s)) ∧
  dom (sleepers s) = dom (Cond.stack (wait (lock s))).

(** The calls that take the lock for reading. *)
Definition read_locking (c : call) (s : system) : Prop :=
  match c with
  | RdLock _ => True
  | Wake w => sleepers s !! w = Some false
  | WrLock _ | UnlockWrite | UnlockRead => False
  end.

(** *** Sample states *)

Definition system_of (m : outcome system) : system :=
  match m with
  | Ok s => s
  | _ => boot
  end.

Fixpoint run_calls (cs : list call) (s : system) : outcome system :=
  match cs with
  | [] => Ok s
  | c :: cs' => s1 ← run_call c s; run_calls cs' s1
  end.

(** A writer holds the lock; a reader (waiter 1) and a writer (waiter 2)
    wait for it. *)
Definition write_held : system :=
  system_of (run_calls [WrLock 0; RdLock 1; WrLock 2]%nat boot).

(** Two readers hold the lock; a writer (waiter 2) waits for it. *)
Definition read_held_twice : system :=
  system_of (run_calls [RdLock 0; RdLock 1; WrLock 2]%nat boot).

(** One reader holds the lock; a writer (waiter 2) waits for it. *)
Definition read_held_once : system :=
  system_of (run_calls [RdLock 0; WrLock 2]%nat boot).

(** What the threads parked in a locking call can rely on. The condition
    variable is settled; while no writer holds the lock, the threads in its
    queue are all in [vlc_rwlock_wrlock]; and when the lock is free while
    threads are parked, one of them has been woken. *)
Definition fair (s : system) : Prop :=
  (∃ l, Cond.settled (wait (lock s)) l ∧
        (0 ≤ state (lock s) →
         ∀ w, w ∈ l → sleepers s !! w = Some true)) ∧
  (state (lock s) = 0 → sleepers s ≠ ∅ →
   ∃ w, is_Some (sleepers s !! w) ∧
        Cond.woken w (wait (lock s)) = true).

(** The writer of [write_held] has released the lock; the reader and the
    writer that waited for it have been woken and have not run yet. *)
Definition write_released : system :=
  system_of (run_calls [WrLock 0; RdLock 1; WrLock 2; UnlockWrite]%nat boot).

End RWLock.

(** * Lock marks (builds without [NDEBUG]) *)

Module Marks.

(** The value a [uintptr_t] takes when it is assigned [z]. *)
Definition to_uintptr (z : Z) : Z := z mod (UINTPTR_MAX + 1).

(** [struct vlc_lock_mark]. *)
Record vlc_lock_mark_t : Type := Mark {
  object : Z;
  refs : Z;
}.

Definition vlc_lock_mark_cmp (ma mb : vlc_lock_mark_t) : Z :=
  if object ma =? object mb then 0
  else if object ma >? object mb then 1 else -1.

(** Modelled from the spec: the ordered set behind the tracker is "an
    off-the-shelf collaborator" ([tsearch], [tfind], [tdelete] of
    [search.h]), "keyed by lock identity". Two marks compare equal under
    [vlc_lock_mark_cmp] exactly when they have the same [object], so the
    tree is a finite map from the [object] of a mark to its [refs];
    [tfind] is the lookup, [tdelete] the removal, and [tsearch] the lookup
    that inserts the mark it is given when it finds none. *)
Definition tfind (lock : Z) (root : gmap Z Z) : option Z := root !! lock.

Definition tdelete (lock : Z) (root : gmap Z Z) : gmap Z Z :=
  delete lock root.

Definition tsearch (mark : vlc_lock_mark_t) (root : gmap Z Z)
  : Z * gmap Z Z :=
  match root !! object mark with
  | Some r => (r, root)
  | None => (refs mark, <[object mark := refs mark]> root)
  end.

(** [vlc_lock_mark]. [room] tells whether [malloc] and [tsearch] found the
    memory they asked for. The mark that [entry] designates after
    [tsearch], the new one or the one that was in the tree, has its [refs]
    incremented. *)
Definition vlc_lock_mark (room : bool) (lock : Z) (root : gmap Z Z)
  : outcome (gmap Z Z) :=
  if negb room then Aborted
  else
    let mark := {| object := lock; refs := 0 |} in
    let '(r, root1) := tsearch mark root in
    Ok (<[lock := to_uintptr (r + 1)]> root1).

Definition vlc_lock_unmark (lock : Z) (root : gmap Z Z)
  : outcome (gmap Z Z) :=
  match tfind lock root with
  | None => Aborted                       (* assert(entry != NULL) *)
  | Some r =>
      _ ← assert (0 <? r);                (* assert(mark->refs > 0) *)
      let r' := to_uintptr (r - 1) in     (* --mark->refs *)
      if r' =? 0 then Ok (tdelete lock root)
      else Ok (<[lock := r']> root)
  end.

Definition vlc_lock_marked (lock : Z) (root : gmap Z Z) : bool :=
  bool_decide (is_Some (tfind lock root)).

(** [vlc_mutex_marks] is thread-local: each thread has its own tree. *)
Definition marks_of (t : nat) (trees : gmap nat (gmap Z Z)) : gmap Z Z :=
  default ∅ (trees !! t).

Definition vlc_mutex_mark (room : bool) (t : nat) (mutex : Z)
  (trees : gmap nat (gmap Z Z)) : outcome (gmap nat (gmap Z Z)) :=
  root ← vlc_lock_mark room mutex (marks_of t trees);
  Ok (<[t := root]> trees).

Definition vlc_mutex_unmark (t : nat) (mutex : Z)
  (trees : gmap nat (gmap Z Z)) : outcome (gmap nat (gmap Z Z)) :=
  root ← vlc_lock_unmark mutex (marks_of t trees);
  Ok (<[t := root]> trees).

Definition vlc_mutex_marked (t : nat) (mutex : Z)
  (trees : gmap nat (gmap Z Z)) : bool :=
  vlc_lock_marked mutex (marks_of t trees).

(** A call on the marks of one thread; [vlc_lock_mark] is run with the
    memory it asks for. *)
Inductive mark_op : Type :=
| DoMark (lock : Z)
| DoUnmark (lock : Z).

Definition run_mark (o : mark_op) (root : gmap Z Z) : outcome (gmap Z Z) :=
  match o with
  | DoMark lock => vlc_lock_mark true lock root
  | DoUnmark lock => vlc_lock_unmark lock root
  end.

Fixpoint run_marks (os : list mark_op) (root : gmap Z Z)
  : outcome (gmap Z Z) :=
  match os with
  | [] => Ok root
  | o :: os' => root1 ← run_mark o root; run_marks os' root1
  end.

(** The marks of [lock] less the unmarks of [lock]. *)
Fixpoint balance (lock : Z) (os : list mark_op) : Z :=
  match os with
  | [] => 0
  | DoMark l :: os' => (if decide (l = lock) then 1 else 0) + balance lock os'
  | DoUnmark l :: os' =>
      (if decide (l = lock) then -1 else 0) + balance lock os'
  end.

(** *** Sample calls *)

Definition sample_marks : list mark_op :=
  [DoMark 7; DoMark 9; DoMark 7; DoUnmark 9].

End Marks.

(** * Properties *)

Lemma bind_Ok {A B} (f : A → outcome B) (m : outcome A) (b : B) :
  m ≫= f = Ok b ↔ ∃ a, m = Ok a ∧ f a = Ok b.
Proof.
  destruct m; simpl; split; try (intros [a [Ha _]]; discriminate Ha);
    try discriminate.
  - intros H. exists a. auto.
  - intros [a' [Ha Hf]]. injection Ha as ->. exact Hf.
Qed.

Lemma assert_Ok (b : bool) (u : unit) : assert b = Ok u ↔ b = true.
Proof. destruct b, u; simpl; split; congruence. Qed.

Module CondTheory.
Import Cond.

Lemma load_Some w σ r : stack σ !! w = Some r → load w σ = Ok r.
Proof. intros H. unfold load. rewrite H. reflexivity. Qed.

Lemma lseg_frame (m m' : gmap addr vlc_cond_waiter) l :
  ∀ s cur,
    (∀ w, w ∈ l → m' !! w = m !! w) →
    lseg m s cur l → lseg m' s cur l.
Proof.
  induction l as [|a l IH]; intros s cur Hsame H; simpl in *; [exact H|].
  destruct H as [-> [r [Hr [Hp Hl]]]].
  split; [reflexivity|]. exists r.
  rewrite Hsame by (left). repeat split; try assumption.
  apply IH; [|exact Hl]. intros w Hw. apply Hsame. by right.
Qed.

(** The list a pointer leads to is determined by the pointer. *)
Lemma lseg_functional (m : gmap addr vlc_cond_waiter) l1 :
  ∀ l2 s1 s2 cur, lseg m s1 cur l1 → lseg m s2 cur l2 → l1 = l2.
Proof.
  induction l1 as [|a l1 IH]; intros [|b l2] s1 s2 cur H1 H2; simpl in *.
  - reflexivity.
  - destruct H2 as [H2 _]. congruence.
  - destruct H1 as [H1 _]. congruence.
  - destruct H1 as [-> [r1 [Hr1 [_ Hl1]]]].
    destruct H2 as [Hb [r2 [Hr2 [_ Hl2]]]].
    injection Hb as <-. rewrite Hr1 in Hr2. injection Hr2 as <-.
    f_equal. eapply IH; eassumption.
Qed.

Lemma lseg_suffix (m : gmap addr vlc_cond_waiter) l1 :
  ∀ l2 s cur, lseg m s cur (l1 ++ l2) → ∃ s' cur', lseg m s' cur' l2.
Proof.
  induction l1 as [|a l1 IH]; intros l2 s cur H; simpl in *.
  - eauto.
  - destruct H as [_ [r [_ [_ Hl]]]]. eapply IH; eassumption.
Qed.

Lemma lseg_head_fresh (m : gmap addr vlc_cond_waiter) s cur w l :
  lseg m s cur (w :: l) → w ∉ l.
Proof.
  intros H Hin.
  apply list_elem_of_split in Hin as [l1 [l2 ->]].
  pose proof H as [_ [r [_ [_ Hl]]]].
  apply lseg_suffix in Hl as [s' [cur' Hs]].
  pose proof Hs as [-> _].
  destruct H as [-> H0].
  assert (Heq : w :: l1 ++ w :: l2 = w :: l2).
  { eapply (lseg_functional m _ _ s s' (Some w)); [|exact Hs].
    simpl. split; [reflexivity|exact H0]. }
  apply (f_equal length) in Heq. simpl in Heq.
  rewrite length_app in Heq. simpl in Heq. lia.
Qed.

Lemma lseg_NoDup (m : gmap addr vlc_cond_waiter) l :
  ∀ s cur, lseg m s cur l → NoDup l.
Proof.
  induction l as [|a l IH]; intros s cur H.
  - constructor.
  - constructor.
    + eapply lseg_head_fresh; eassumption.
    + destruct H as [_ [r [_ [_ Hl]]]]. eapply IH; eassumption.
Qed.

Lemma lseg_live (m : gmap addr vlc_cond_waiter) l :
  ∀ s cur w, lseg m s cur l → w ∈ l → is_Some (m !! w).
Proof.
  induction l as [|a l IH]; intros s cur w H Hin.
  - by apply elem_of_nil in Hin.
  - destruct H as [_ [r [Hr [_ Hl]]]].
    apply elem_of_cons in Hin as [->|Hin]; [eauto|].
    eapply IH; eassumption.
Qed.

Lemma queue_NoDup σ l : queue σ l → NoDup l.
Proof. apply lseg_NoDup. Qed.

(** [if (cur != NULL) cur->pprev = s'] on the first waiter of a list. *)
Lemma store_pprev_lseg σ s s' cur l :
  lseg (stack σ) s cur l →
  ∃ σ', store_pprev cur s' σ = Ok σ' ∧
        head σ' = head σ ∧ notified σ' = notified σ ∧
        lseg (stack σ') s' cur l ∧
        (∀ w, w ∉ l → stack σ' !! w = stack σ !! w) ∧
        (∀ w, value_of w σ' = value_of w σ).
Proof.
  intros H. pose proof (lseg_NoDup _ _ _ _ H) as Hnd.
  destruct l as [|a l]; simpl in H.
  - subst cur. exists σ. simpl. repeat split; auto.
  - destruct H as [-> [r [Hr [Hp Hl]]]].
    unfold store_pprev, load. rewrite Hr. simpl.
    eexists. split; [reflexivity|]. simpl.
    repeat split.
    + exists {| pprev := s'; next := next r; value := value r;
                mutex := mutex r |}.
      rewrite lookup_insert_eq. repeat split.
      simpl. eapply lseg_frame; [|exact Hl].
      intros w Hw. apply lookup_insert_ne.
      apply NoDup_cons in Hnd as [Ha _]. intros ->. contradiction.
    + intros w Hw. apply lookup_insert_ne. intros ->. apply Hw. by left.
    + intros w. unfold value_of. simpl.
      destruct (decide (a = w)) as [->|Hne].
      * rewrite lookup_insert_eq, Hr. reflexivity.
      * rewrite lookup_insert_ne by exact Hne. reflexivity.
Qed.

(** [vlc_cond_wait_prepare] puts the new waiter in front of the queue. *)
Lemma wait_prepare_queue σ l w mtx :
  queue σ l → w ∉ l →
  ∃ σ', vlc_cond_wait_prepare w mtx σ = Ok σ' ∧
        queue σ' (w :: l) ∧
        notified σ' = notified σ ∧
        value_of w σ' = 0 ∧
        (∀ x, x ≠ w → x ∉ l → stack σ' !! x = stack σ !! x) ∧
        (∀ x, x ≠ w → value_of x σ' = value_of x σ).
Proof.
  intros Hq Hw. unfold queue in Hq. unfold vlc_cond_wait_prepare.
  set (r0 := {| pprev := HeadOf; next := head σ; value := 0; mutex := mtx |}).
  set (σ2 := set_head (Some w) (store w r0 σ)).
  assert (Hl2 : lseg (stack σ2) HeadOf (head σ) l).
  { eapply lseg_frame; [|exact Hq]. intros x Hx. simpl.
    apply lookup_insert_ne. intros ->. contradiction. }
  destruct (store_pprev_lseg σ2 HeadOf (NextOf w) (head σ) l Hl2)
    as [σ' [Hst [Hh [Hn [Hl' [Hfr Hv]]]]]].
  exists σ'. split; [exact Hst|].
  assert (Hw' : stack σ' !! w = Some r0).
  { rewrite Hfr by exact Hw. simpl. apply lookup_insert_eq. }
  split_and!.
  - unfold queue. rewrite Hh. simpl. split; [reflexivity|].
    exists r0. split; [exact Hw'|]. split; [reflexivity|exact Hl'].
  - rewrite Hn. reflexivity.
  - unfold value_of. rewrite Hw'. reflexivity.
  - intros x Hx Hxl. rewrite Hfr by exact Hxl. simpl.
    apply lookup_insert_ne. congruence.
  - intros x Hx. rewrite Hv. unfold value_of. simpl.
    rewrite lookup_insert_ne by congruence. reflexivity.
Qed.

(** [vlc_cond_signal_waiter] touches the waiter it is given and nothing
    else. *)
Lemma signal_waiter_spec σ w r :
  stack σ !! w = Some r →
  vlc_cond_signal_waiter w σ =
    Ok {| head := head σ;
          stack := <[w := {| pprev := NextOf w; next := None;
                             value := to_uint (value r + 1);
                             mutex := mutex r |}]> (stack σ);
          notified := notified σ ++ [w] |}.
Proof.
  intros Hr. unfold vlc_cond_signal_waiter, load. rewrite Hr. reflexivity.
Qed.

(** [vlc_cond_signal] takes the waiter at the head of the queue off it and
    wakes it. *)
Lemma signal_queue σ w l :
  queue σ (w :: l) →
  ∃ σ', vlc_cond_signal σ = Ok σ' ∧
        queue σ' l ∧
        notified σ' = notified σ ++ [w] ∧
        detached w σ' ∧
        value_of w σ' = to_uint (value_of w σ + 1) ∧
        (∀ x, x ≠ w → x ∉ l → stack σ' !! x = stack σ !! x) ∧
        (∀ x, x ≠ w → value_of x σ' = value_of x σ).
Proof.
  intros Hq. pose proof (queue_NoDup _ _ Hq) as Hnd.
  apply NoDup_cons in Hnd as [Hwl _].
  destruct Hq as [Hh [r [Hr [Hp Hl]]]].
  unfold vlc_cond_signal. rewrite Hh. unfold load at 1. rewrite Hr. simpl.
  rewrite Hp. simpl.
  assert (Hl1 : lseg (stack (set_head (next r) σ)) (NextOf w) (next r) l)
    by exact Hl.
  destruct (store_pprev_lseg _ _ HeadOf _ _ Hl1)
    as [σ2 [Hst [Hh2 [Hn2 [Hl2 [Hfr Hv]]]]]].
  rewrite Hst. simpl.
  assert (Hw2 : stack σ2 !! w = Some r).
  { rewrite Hfr by exact Hwl. exact Hr. }
  rewrite (signal_waiter_spec _ _ _ Hw2).
  eexists. split; [reflexivity|].
  split_and!; simpl.
  - unfold queue. simpl. rewrite Hh2. simpl.
    eapply lseg_frame; [|exact Hl2].
    intros x Hx. apply lookup_insert_ne. intros ->. contradiction.
  - rewrite Hn2. reflexivity.
  - eexists. simpl. rewrite lookup_insert_eq. repeat split.
  - unfold value_of. simpl. rewrite lookup_insert_eq, Hr. reflexivity.
  - intros x Hx Hxl. rewrite lookup_insert_ne by congruence.
    rewrite Hfr by exact Hxl. reflexivity.
  - intros x Hx. unfold value_of at 1. simpl.
    rewrite lookup_insert_ne by congruence.
    exact (Hv x).
Qed.

Lemma signal_empty σ : queue σ [] → vlc_cond_signal σ = Ok σ.
Proof.
  unfold queue, vlc_cond_signal. simpl. intros ->. reflexivity.
Qed.

Lemma lseg_length_size (m : gmap addr vlc_cond_waiter) s cur l :
  lseg m s cur l → (length l ≤ size m)%nat.
Proof.
  intros H.
  assert (Hsub : (list_to_set l : gset addr) ⊆ dom m).
  { intros x Hx. apply elem_of_list_to_set in Hx. apply elem_of_dom.
    eapply lseg_live; eassumption. }
  apply subseteq_size in Hsub.
  rewrite size_list_to_set in Hsub by (eapply lseg_NoDup; eassumption).
  rewrite size_dom in Hsub. exact Hsub.
Qed.

(** The loop of [vlc_cond_broadcast] on a well-formed list: it ends, wakes
    every waiter of the list, in the order of the list, and leaves the head
    pointer and the other waiters alone. *)
Lemma broadcast_loop_lseg l :
  ∀ fuel σ s cur,
    lseg (stack σ) s cur l → (length l ≤ fuel)%nat →
    ∃ σ', broadcast_loop fuel cur σ = Ok σ' ∧
          head σ' = head σ ∧
          notified σ' = notified σ ++ l ∧
          (∀ w, w ∈ l →
                detached w σ' ∧
                value_of w σ' = to_uint (value_of w σ + 1)) ∧
          (∀ w, w ∉ l → stack σ' !! w = stack σ !! w).
Proof.
  induction l as [|a l IH]; intros fuel σ s cur Hl Hfuel.
  - simpl in Hl. subst cur. exists σ. destruct fuel; simpl;
      (split_and!; [reflexivity|reflexivity|by rewrite app_nil_r| |done]);
      intros w Hw; by apply elem_of_nil in Hw.
  - pose proof (lseg_head_fresh _ _ _ _ _ Hl) as Hal.
    destruct Hl as [-> [r [Hr [Hp Hl]]]].
    destruct fuel as [|fuel]; [simpl in Hfuel; lia|].
    simpl. unfold load at 1. rewrite Hr. simpl.
    rewrite (signal_waiter_spec _ _ _ Hr). simpl.
    match goal with |- context [broadcast_loop fuel (next r) ?x] =>
      set (σ1 := x) end.
    assert (Hl1 : lseg (stack σ1) (NextOf a) (next r) l).
    { eapply lseg_frame; [|exact Hl]. intros x Hx. simpl.
      apply lookup_insert_ne. intros ->. contradiction. }
    destruct (IH fuel σ1 _ _ Hl1) as [σ' [Hrun [Hh [Hn [Hdet Hfr]]]]].
    { simpl in Hfuel. lia. }
    exists σ'. split_and!.
    + exact Hrun.
    + rewrite Hh. reflexivity.
    + rewrite Hn. simpl. rewrite <- app_assoc. reflexivity.
    + intros w Hw. apply elem_of_cons in Hw as [->|Hw].
      * unfold detached, value_of. rewrite (Hfr a Hal). simpl.
        rewrite lookup_insert_eq, Hr. split; [|reflexivity].
        eexists. split; [reflexivity|]. split; reflexivity.
      * destruct (Hdet w Hw) as [Hd Hv]. split; [exact Hd|].
        rewrite Hv. unfold value_of at 1. simpl.
        rewrite lookup_insert_ne by (intros ->; contradiction).
        reflexivity.
    + intros w Hw. rewrite Hfr.
      * simpl. apply lookup_insert_ne. intros ->. apply Hw. by left.
      * intros Hin. apply Hw. by right.
Qed.

Lemma broadcast_queue σ l :
  queue σ l →
  ∃ σ', vlc_cond_broadcast σ = Ok σ' ∧
        head σ' = None ∧
        notified σ' = notified σ ++ l ∧
        (∀ w, w ∈ l →
              detached w σ' ∧
              value_of w σ' = to_uint (value_of w σ + 1)) ∧
        (∀ w, w ∉ l → stack σ' !! w = stack σ !! w).
Proof.
  intros Hq. unfold vlc_cond_broadcast.
  destruct (broadcast_loop_lseg l (S (size (stack σ))) (set_head None σ)
              HeadOf (head σ)) as [σ' H].
  - exact Hq.
  - apply lseg_length_size in Hq. simpl. lia.
  - exists σ'. exact H.
Qed.

(** The unlink of [vlc_cond_wait_finish] on a waiter whose linkage points
    at itself writes [NULL] over the [NULL] of its own [next] field. *)
Lemma wait_finish_detached w σ :
  detached w σ → vlc_cond_wait_finish w σ = Ok σ.
Proof.
  intros [r [Hr [Hp Hn]]].
  assert (Hst : store w {| pprev := pprev r; next := None; value := value r;
                           mutex := mutex r |} σ = σ).
  { destruct σ as [h m n]. unfold store. simpl in *. f_equal.
    apply insert_id. rewrite Hr. destruct r; simpl in *. congruence. }
  unfold vlc_cond_wait_finish. rewrite (load_Some _ _ _ Hr). simpl.
  rewrite Hp, Hn. simpl. rewrite (load_Some _ _ _ Hr). simpl.
  rewrite Hst, (load_Some _ _ _ Hr). reflexivity.
Qed.

Lemma waits_queue ts mtx :
  ∀ σ l,
    queue σ l → NoDup ts → (∀ t, t ∈ ts → t ∉ l) →
    ∃ σ', waits ts mtx σ = Ok σ' ∧
          queue σ' (rev ts ++ l) ∧
          notified σ' = notified σ.
Proof.
  induction ts as [|t ts IH]; intros σ l Hq Hnd Hfresh.
  - exists σ. simpl. auto.
  - apply NoDup_cons in Hnd as [Ht Hnd].
    destruct (wait_prepare_queue σ l t mtx Hq) as [σ1 [Hp [Hq1 [Hn1 _]]]].
    { apply Hfresh. by left. }
    destruct (IH σ1 (t :: l) Hq1 Hnd) as [σ' [Hw [Hq' Hn']]].
    { intros x Hx Hin. apply elem_of_cons in Hin as [->|Hin].
      - contradiction.
      - eapply Hfresh; [right; exact Hx|exact Hin]. }
    exists σ'. simpl. rewrite Hp. simpl. split_and!.
    + exact Hw.
    + rewrite <- app_assoc. exact Hq'.
    + congruence.
Qed.

Lemma signals_queue l1 :
  ∀ σ l2,
    queue σ (l1 ++ l2) →
    ∃ σ', signals (length l1) σ = Ok σ' ∧
          queue σ' l2 ∧
          notified σ' = notified σ ++ l1.
Proof.
  induction l1 as [|w l1 IH]; intros σ l2 Hq.
  - exists σ. simpl. rewrite app_nil_r. auto.
  - destruct (signal_queue σ w (l1 ++ l2) Hq) as [σ1 [Hs [Hq1 [Hn1 _]]]].
    destruct (IH σ1 l2 Hq1) as [σ' [Hss [Hq' Hn']]].
    exists σ'. simpl. rewrite Hs. simpl. split_and!.
    + exact Hss.
    + exact Hq'.
    + rewrite Hn', Hn1, <- app_assoc. reflexivity.
Qed.

Lemma init_queue : queue vlc_cond_init [].
Proof. reflexivity. Qed.

(** The unlink of [vlc_cond_wait_finish] on a waiter that is still in the
    list reached from the pointer at [s]: the waiter leaves the list, its
    neighbours are linked to each other. *)
Lemma unlink_lseg w l2 l1 :
  ∀ σ s cur,
    lseg (stack σ) s cur (l1 ++ w :: l2) →
    slot_holds σ s cur →
    (∀ p, s = NextOf p → p ∉ l1 ++ w :: l2) →
    ∃ σ' cur',
      vlc_cond_wait_finish w σ = Ok σ' ∧
      lseg (stack σ') s cur' (l1 ++ l2) ∧
      slot_holds σ' s cur' ∧
      (∀ p rp, s = NextOf p → stack σ !! p = Some rp →
               ∃ rp', stack σ' !! p = Some rp' ∧ same_but_next rp rp') ∧
      (s ≠ HeadOf → head σ' = head σ) ∧
      notified σ' = notified σ ∧
      (∀ x, x ∉ l1 ++ w :: l2 → s ≠ NextOf x →
            stack σ' !! x = stack σ !! x) ∧
      (∀ x, value_of x σ' = value_of x σ).
Proof.
  induction l1 as [|a l1 IH]; intros σ s cur Hl Hs Hp.
  - simpl in *.
    pose proof (lseg_head_fresh _ _ _ _ _ Hl) as Hwl2.
    destruct Hl as [-> [rw [Hrw [Hpw Hl2]]]].
    unfold vlc_cond_wait_finish. rewrite (load_Some _ _ _ Hrw). simpl.
    rewrite Hpw. destruct s as [|p]; simpl in Hs.
    + simpl. rewrite (load_Some w (set_head (next rw) σ) rw Hrw). simpl.
      rewrite Hpw.
      destruct (store_pprev_lseg (set_head (next rw) σ) (NextOf w) HeadOf
                  (next rw) l2 Hl2) as [σ' [Hst [Hh [Hn [Hl' [Hfr Hv]]]]]].
      exists σ', (next rw). split_and!; try done.
      intros x Hx _. apply Hfr. intros Hin. apply Hx. by right.
    + destruct Hs as [rp [Hrp Hnp]].
      assert (Hpw' : p ≠ w).
      { intros ->. apply (Hp w eq_refl). by left. }
      assert (Hpl2 : p ∉ l2).
      { intros Hin. apply (Hp p eq_refl). by right. }
      simpl. rewrite (load_Some _ _ _ Hrp). simpl.
      set (rp' := {| pprev := pprev rp; next := next rw; value := value rp;
                     mutex := mutex rp |}).
      set (σ1 := store p rp' σ).
      assert (Hrw1 : stack σ1 !! w = Some rw).
      { simpl. rewrite lookup_insert_ne by exact Hpw'. exact Hrw. }
      rewrite (load_Some _ _ _ Hrw1). simpl. rewrite Hpw.
      assert (Hl1 : lseg (stack σ1) (NextOf w) (next rw) l2).
      { eapply lseg_frame; [|exact Hl2]. intros x Hx. simpl.
        apply lookup_insert_ne. intros ->. contradiction. }
      destruct (store_pprev_lseg σ1 (NextOf w) (NextOf p) (next rw) l2 Hl1)
        as [σ' [Hst [Hh [Hn [Hl' [Hfr Hv]]]]]].
      assert (Hp' : stack σ' !! p = Some rp').
      { rewrite Hfr by exact Hpl2. simpl. apply lookup_insert_eq. }
      exists σ', (next rw). split_and!; try done.
      * exists rp'. split; [exact Hp'|reflexivity].
      * intros q rq [= <-] Hrq. rewrite Hrp in Hrq. injection Hrq as <-.
        exists rp'. split; [exact Hp'|]. repeat split.
      * intros x Hx Hsx. rewrite Hfr.
        -- simpl. apply lookup_insert_ne. congruence.
        -- intros Hin. apply Hx. by right.
      * intros x. rewrite Hv. unfold value_of. simpl.
        destruct (decide (p = x)) as [->|Hne].
        -- rewrite lookup_insert_eq, Hrp. reflexivity.
        -- rewrite lookup_insert_ne by exact Hne. reflexivity.
  - simpl in Hl.
    pose proof (lseg_head_fresh _ _ _ _ _ Hl) as Hal.
    destruct Hl as [-> [ra [Hra [Hpa Hl]]]].
    destruct (IH σ (NextOf a) (next ra) Hl) as
      [σ' [cur' [Hfin [Hl' [Hs' [Hsame [Hh [Hn [Hfr Hv]]]]]]]]].
    { exists ra. split; [exact Hra|reflexivity]. }
    { intros p [= <-]. exact Hal. }
    destruct (Hsame a ra eq_refl Hra) as [ra' [Hra' [Hpp [_ _]]]].
    destruct Hs' as [ra'' [Hra'' Hnext]].
    rewrite Hra' in Hra''. injection Hra'' as <-.
    exists σ', (Some a). split_and!.
    + exact Hfin.
    + simpl. split; [reflexivity|]. exists ra'.
      split; [exact Hra'|]. split; [congruence|]. rewrite Hnext. exact Hl'.
    + destruct s as [|p]; simpl in *.
      * rewrite Hh by discriminate. exact Hs.
      * destruct Hs as [rp [Hrp Hnp]]. exists rp. split; [|exact Hnp].
        rewrite Hfr; [exact Hrp| |].
        -- intros Hin. apply (Hp p eq_refl). by right.
        -- intros [= ->]. apply (Hp p eq_refl). by left.
    + intros p rp -> Hrp. exists rp. split; [|repeat split].
      rewrite Hfr; [exact Hrp| |].
      * intros Hin. apply (Hp p eq_refl). by right.
      * intros [= ->]. apply (Hp p eq_refl). by left.
    + intros _. apply Hh. discriminate.
    + exact Hn.
    + intros x Hx Hsx. apply Hfr.
      * intros Hin. apply Hx. by right.
      * intros [= ->]. apply Hx. by left.
    + exact Hv.
Qed.

(** [vlc_cond_wait_finish] of a waiter that nobody woke takes it out of the
    queue. *)
Lemma wait_finish_queued σ l1 w l2 :
  queue σ (l1 ++ w :: l2) →
  ∃ σ', vlc_cond_wait_finish w σ = Ok σ' ∧
        queue σ' (l1 ++ l2) ∧
        notified σ' = notified σ ∧
        (∀ x, x ∉ l1 ++ w :: l2 → stack σ' !! x = stack σ !! x) ∧
        (∀ x, value_of x σ' = value_of x σ).
Proof.
  intros Hq.
  destruct (unlink_lseg w l2 l1 σ HeadOf (head σ) Hq)
    as [σ' [cur' [Hfin [Hl' [Hs' [_ [_ [Hn [Hfr Hv]]]]]]]]].
  { reflexivity. }
  { intros p Hp. discriminate Hp. }
  exists σ'. split_and!; try done.
  - unfold queue. simpl in Hs'. rewrite Hs'. exact Hl'.
  - intros x Hx. apply Hfr; [exact Hx|discriminate].
Qed.

Lemma detached_not_in_lseg w m l :
  ∀ s cur r,
    lseg m s cur l → m !! w = Some r → pprev r = NextOf w →
    s ≠ NextOf w → w ∉ l.
Proof.
  induction l as [|a l IH]; intros s cur r Hl Hr Hp Hs Hin.
  - by apply elem_of_nil in Hin.
  - pose proof (lseg_head_fresh _ _ _ _ _ Hl) as Hal.
    destruct Hl as [-> [ra [Hra [Hpa Hl]]]].
    apply elem_of_cons in Hin as [->|Hin].
    + rewrite Hr in Hra. injection Hra as <-. congruence.
    + eapply (IH (NextOf a)); try eassumption.
      intros [= ->]. contradiction.
Qed.

Lemma detached_not_queued w σ l : queue σ l → detached w σ → w ∉ l.
Proof.
  intros Hq [r [Hr [Hp _]]].
  eapply detached_not_in_lseg; try eassumption. discriminate.
Qed.

Lemma wait_return_detached w σ :
  detached w σ →
  vlc_cond_wait_return w σ =
    Ok {| head := head σ; stack := delete w (stack σ);
          notified := notified σ |}.
Proof.
  intros Hd. unfold vlc_cond_wait_return.
  rewrite (wait_finish_detached _ _ Hd). reflexivity.
Qed.

Lemma detached_frame w σ σ' :
  stack σ' !! w = stack σ !! w → detached w σ → detached w σ'.
Proof. intros Heq [r H]. exists r. rewrite Heq. exact H. Qed.

Lemma value_of_frame w σ σ' :
  stack σ' !! w = stack σ !! w → value_of w σ' = value_of w σ.
Proof. intros Heq. unfold value_of. rewrite Heq. reflexivity. Qed.

(** Every enabled call runs to its end from a well-formed state, leads to a
    well-formed state, and leaves alone the waiters that are neither queued
    nor the caller's. *)
Lemma run_op_wf o σ l :
  wf_with σ l → enabled o σ →
  ∃ σ' l', run_op o σ = Ok σ' ∧ wf_with σ' l' ∧
    (∀ y, y ∉ l → op_waiter o ≠ Some y → stack σ' !! y = stack σ !! y).
Proof.
  intros (Hq & Hz & Hd) Hen.
  pose proof (queue_NoDup _ _ Hq) as Hnd.
  destruct o as [w mtx| | |w]; simpl in *.
  - assert (Hwl : w ∉ l).
    { intros Hin. destruct (lseg_live _ _ _ _ _ Hq Hin) as [r Hr].
      congruence. }
    destruct (wait_prepare_queue σ l w mtx Hq Hwl)
      as (σ' & Hrun & Hq' & _ & Hv0 & Hfr & Hv).
    exists σ', (w :: l). split; [exact Hrun|]. split; [split_and!|].
    + exact Hq'.
    + intros x Hx. apply elem_of_cons in Hx as [->|Hx]; [exact Hv0|].
      rewrite Hv by (intros ->; contradiction). apply Hz, Hx.
    + intros x Hx Hxl.
      apply not_elem_of_cons in Hxl as [Hxw Hxl].
      eapply detached_frame; [apply Hfr; assumption|].
      apply Hd; [|exact Hxl]. rewrite <- Hfr by assumption. exact Hx.
    + intros y Hy Hyw. apply Hfr; [congruence|exact Hy].
  - destruct l as [|w l].
    + exists σ, []. rewrite (signal_empty _ Hq).
      split; [reflexivity|]. split; [split_and!; assumption|done].
    + apply NoDup_cons in Hnd as [Hwl Hnd].
      destruct (signal_queue σ w l Hq)
        as (σ' & Hrun & Hq' & _ & Hdet & _ & Hfr & Hv).
      exists σ', l. split; [exact Hrun|]. split; [split_and!|].
      * exact Hq'.
      * intros x Hx. rewrite Hv by (intros ->; contradiction).
        apply Hz. by right.
      * intros x Hx Hxl. destruct (decide (x = w)) as [->|Hne];
          [exact Hdet|].
        eapply detached_frame; [apply Hfr; assumption|].
        apply Hd.
        -- rewrite <- Hfr by assumption. exact Hx.
        -- intros Hin. apply elem_of_cons in Hin as [?|?]; contradiction.
      * intros y Hy _. apply not_elem_of_cons in Hy as [Hyw Hyl].
        apply Hfr; assumption.
  - destruct (broadcast_queue σ l Hq) as (σ' & Hrun & Hh & _ & Hdet & Hfr).
    exists σ', []. split; [exact Hrun|]. split; [split_and!|].
    + unfold queue. rewrite Hh. reflexivity.
    + intros x Hx. by apply elem_of_nil in Hx.
    + intros x Hx _. destruct (decide (x ∈ l)) as [Hin|Hnin].
      * apply Hdet, Hin.
      * eapply detached_frame; [apply Hfr, Hnin|].
        apply Hd; [|exact Hnin]. rewrite <- Hfr by exact Hnin. exact Hx.
    + intros y Hy _. apply Hfr, Hy.
  - destruct (decide (w ∈ l)) as [Hin|Hnin].
    + apply list_elem_of_split in Hin as (l1 & l2 & ->).
      destruct (wait_finish_queued σ l1 w l2 Hq)
        as (σ1 & Hfin & Hq1 & _ & Hfr & Hv).
      assert (Hw12 : w ∉ l1 ++ l2).
      { apply NoDup_app in Hnd as (_ & Hdis & Hnd2).
        apply NoDup_cons in Hnd2 as [Hw2 _].
        intros Hin. apply elem_of_app in Hin as [Hin|Hin].
        - apply (Hdis w Hin). by left.
        - contradiction. }
      unfold vlc_cond_wait_return. rewrite Hfin. simpl.
      eexists _, (l1 ++ l2). split; [reflexivity|]. split; [split_and!|].
      * unfold queue. simpl. eapply lseg_frame; [|exact Hq1].
        intros x Hx. apply lookup_delete_ne. intros ->. contradiction.
      * intros x Hx. unfold value_of. simpl.
        rewrite lookup_delete_ne by (intros ->; contradiction).
        fold (value_of x σ1). rewrite Hv. apply Hz.
        apply elem_of_app in Hx as [Hx|Hx]; apply elem_of_app;
          [left|right; right]; exact Hx.
      * intros x Hx Hxl. simpl in Hx.
        destruct (decide (w = x)) as [->|Hne].
        { rewrite lookup_delete_eq in Hx. by destruct Hx. }
        rewrite lookup_delete_ne in Hx by exact Hne.
        assert (Hxl' : x ∉ l1 ++ w :: l2).
        { intros Hin. apply Hxl.
          apply elem_of_app in Hin as [Hin|Hin]; apply elem_of_app;
            [left; exact Hin|right].
          apply elem_of_cons in Hin as [->|Hin]; [done|exact Hin]. }
        eapply (detached_frame x σ).
        -- simpl. rewrite lookup_delete_ne by exact Hne.
           apply Hfr, Hxl'.
        -- apply Hd; [|exact Hxl']. rewrite <- Hfr by exact Hxl'. exact Hx.
      * intros y Hy Hyw. simpl.
        rewrite lookup_delete_ne by congruence. apply Hfr, Hy.
    + rewrite (wait_return_detached w σ (Hd w Hen Hnin)).
      eexists _, l. split; [reflexivity|]. split; [split_and!|].
      * unfold queue. simpl. eapply lseg_frame; [|exact Hq].
        intros x Hx. apply lookup_delete_ne. intros ->. contradiction.
      * intros x Hx. unfold value_of. simpl.
        rewrite lookup_delete_ne by (intros ->; contradiction).
        apply Hz, Hx.
      * intros x Hx Hxl. simpl in Hx.
        destruct (decide (w = x)) as [->|Hne].
        { rewrite lookup_delete_eq in Hx. by destruct Hx. }
        rewrite lookup_delete_ne in Hx by exact Hne.
        eapply (detached_frame x σ); [|apply Hd; assumption].
        simpl. apply lookup_delete_ne, Hne.
      * intros y Hy Hyw. simpl. apply lookup_delete_ne. congruence.
Qed.

Lemma init_wf : wf_with vlc_cond_init [].
Proof.
  split_and!.
  - reflexivity.
  - intros x Hx. by apply elem_of_nil in Hx.
  - intros x [r Hr]. simpl in Hr. by rewrite lookup_empty in Hr.
Qed.

Lemma waits_wf ts mtx :
  ∀ σ l,
    wf_with σ l → NoDup ts → (∀ t, t ∈ ts → stack σ !! t = None) →
    ∃ σ', waits ts mtx σ = Ok σ' ∧ wf_with σ' (rev ts ++ l).
Proof.
  induction ts as [|t ts IH]; intros σ l Hwf Hnd Hfresh.
  - exists σ. split; [reflexivity|exact Hwf].
  - apply NoDup_cons in Hnd as [Ht Hnd].
    assert (Htl : ∀ x, stack σ !! x = None → x ∉ l).
    { intros x Hx Hin. destruct Hwf as (Hq & _).
      destruct (lseg_live _ _ _ _ _ Hq Hin) as [r Hr]. congruence. }
    destruct Hwf as (Hq & Hz & Hd).
    destruct (wait_prepare_queue σ l t mtx Hq)
      as (σ1 & Hrun & Hq1 & _ & Hv0 & Hfr & Hv).
    { apply Htl, Hfresh. by left. }
    destruct (IH σ1 (t :: l)) as (σ' & Hw & Hwf'); [|exact Hnd| |].
    + split_and!; [exact Hq1| |].
      * intros x Hx. apply elem_of_cons in Hx as [->|Hx]; [exact Hv0|].
        rewrite Hv; [apply Hz, Hx|]. intros ->.
        apply (Htl t); [apply Hfresh; by left|exact Hx].
      * intros x Hx Hxl. apply not_elem_of_cons in Hxl as [Hxt Hxl].
        eapply detached_frame; [apply Hfr; assumption|].
        apply Hd; [|exact Hxl]. rewrite <- Hfr by assumption. exact Hx.
    + intros x Hx. rewrite Hfr.
      * apply Hfresh. by right.
      * intros ->. contradiction.
      * apply Htl, Hfresh. by right.
    + exists σ'. simpl. rewrite Hrun. simpl. split; [exact Hw|].
      rewrite <- app_assoc. exact Hwf'.
Qed.

Lemma three_parked_wf : wf_with three_parked [3; 2; 1]%nat.
Proof.
  destruct (waits_wf [1; 2; 3]%nat 0%nat vlc_cond_init [] init_wf)
    as (σ' & Hw & Hwf).
  - by apply (bool_decide_unpack _).
  - intros t _. apply lookup_empty.
  - unfold three_parked. rewrite Hw. exact Hwf.
Defined.




Lemma steps_detached w σ os σ' :
  steps σ os σ' → wf σ → detached w σ → Return w ∉ os →
  wf σ' ∧ detached w σ'.
Proof.
  induction 1 as [|σ o σ1 os σ' Hen Hrun _ IH]; intros Hwf Hd Hos;
    [split; assumption|].
  destruct Hwf as [l Hl].
  destruct (run_op_wf o σ l Hl Hen) as (σ2 & l' & Hrun' & Hwf' & Hfr).
  rewrite Hrun in Hrun'. injection Hrun' as <-.
  apply not_elem_of_cons in Hos as [Ho Hos].
  apply IH; [exists l'; exact Hwf'| |exact Hos].
  eapply detached_frame; [|exact Hd]. apply Hfr.
  - apply (detached_not_queued w σ l); [apply Hl|exact Hd].
  - destruct Hd as (r & Hr & _).
    destruct o as [x m| | |x]; simpl in *; try discriminate.
    + intros [= ->]. congruence.
    + intros [= ->]. congruence.
Qed.

Lemma leave_detached ws :
  ∀ σ,
    NoDup ws →
    (∀ w, w ∈ ws → detached w σ ∧ woken w σ = true) →
    ∃ σ', leave σ ws σ' ∧ head σ' = head σ ∧ notified σ' = notified σ ∧
          (∀ w, w ∈ ws → stack σ' !! w = None) ∧
          (∀ y, y ∉ ws → stack σ' !! y = stack σ !! y).
Proof.
  induction ws as [|w ws IH]; intros σ Hnd Hall.
  - exists σ. split_and!; try done; [constructor|].
    intros w Hw. by apply elem_of_nil in Hw.
  - apply NoDup_cons in Hnd as [Hw Hnd].
    destruct (Hall w) as [Hd Hwk]; [by left|].
    set (σ1 := {| head := head σ; stack := delete w (stack σ);
                  notified := notified σ |}).
    destruct (IH σ1 Hnd) as (σ' & Hlv & Hh & Hn & Hgone & Hfr).
    { intros x Hx. destruct (Hall x) as [Hdx Hwx]; [by right|].
      assert (Hne : w ≠ x) by (intros ->; contradiction).
      split.
      - eapply detached_frame; [|exact Hdx]. simpl.
        apply lookup_delete_ne, Hne.
      - unfold woken in *. simpl. rewrite lookup_delete_ne by exact Hne.
        exact Hwx. }
    exists σ'. split_and!.
    + econstructor; [exact Hwk|apply wait_return_detached, Hd|exact Hlv].
    + rewrite Hh. reflexivity.
    + rewrite Hn. reflexivity.
    + intros x Hx. apply elem_of_cons in Hx as [->|Hx].
      * rewrite Hfr by exact Hw. simpl. apply lookup_delete_eq.
      * apply Hgone, Hx.
    + intros y Hy. apply not_elem_of_cons in Hy as [Hyw Hy].
      rewrite Hfr by exact Hy. simpl. apply lookup_delete_ne. congruence.
Qed.

Lemma to_uint_1 : to_uint (0 + 1) = 1.
Proof. reflexivity. Qed.

(** ** The claims on condition variables *)

(** C1, as amended. The queue is a stack: [vlc_cond_wait_prepare] links the
    new waiter in front of the queue and [vlc_cond_signal] takes the waiter
    in front of the queue. When the threads of [ts] have entered
    [vlc_cond_wait] on a fresh condition variable in the order of [ts], the
    queue holds them latest first; for every [k] up to their number, [k]
    calls of [vlc_cond_signal] run to their end and wake the [k] threads
    that queued last, the latest first; so as many calls as there are
    threads wake them in the reverse of the order in which they queued. *)
Theorem signal_wakes_latest_first (ts : list addr) :
  NoDup ts →
  (∃ σ1, waits ts 0%nat vlc_cond_init = Ok σ1 ∧
         queue σ1 (rev ts) ∧
         ∀ k, (k ≤ length ts)%nat →
              ∃ σ2, signals k σ1 = Ok σ2 ∧
                    notified σ2 = take k (rev ts) ∧
                    queue σ2 (drop k (rev ts))) ∧
  wake_order ts = Ok (rev ts).
Proof.
  intros Hnd.
  destruct (waits_queue ts 0%nat vlc_cond_init [] init_queue Hnd)
    as (σ1 & Hw & Hq & Hn).
  { intros t _ Hin. by apply elem_of_nil in Hin. }
  rewrite app_nil_r in Hq.
  assert (Hk : ∀ k, (k ≤ length ts)%nat →
              ∃ σ2, signals k σ1 = Ok σ2 ∧
                    notified σ2 = take k (rev ts) ∧
                    queue σ2 (drop k (rev ts))).
  { intros k Hk.
    assert (Hlen : length (take k (rev ts)) = k).
    { rewrite length_take, length_rev. lia. }
    destruct (signals_queue (take k (rev ts)) σ1 (drop k (rev ts)))
      as (σ2 & Hs & Hq2 & Hn2).
    { rewrite take_drop. exact Hq. }
    rewrite Hlen in Hs. exists σ2. split_and!; [exact Hs| |exact Hq2].
    rewrite Hn2, Hn. reflexivity. }
  split.
  - exists σ1. split_and!; assumption.
  - destruct (Hk (length ts) (le_n _)) as (σ2 & Hs & Hn2 & _).
    unfold wake_order. rewrite Hw. simpl. rewrite Hs. simpl.
    rewrite Hn2. rewrite firstn_all2 by (rewrite length_rev; lia).
    reflexivity.
Qed.

Lemma signal_wakes_latest_first_witness :
  wake_order [1; 2; 3]%nat = Ok [3; 2; 1]%nat.
Proof.
  apply (signal_wakes_latest_first [1; 2; 3]%nat).
  by apply (bool_decide_unpack _).
Defined.

(** C1 as it is stated fails: of two threads that queued in the order 1, 2,
    the first call of [vlc_cond_signal] wakes thread 2, not thread 1. *)
Lemma signal_fifo_counterexample :
  wake_order [1; 2]%nat = Ok [2; 1]%nat ∧
  wake_order [1; 2]%nat ≠ Ok [1; 2]%nat ∧
  ¬ (∀ ts, NoDup ts → wake_order ts = Ok ts).
Proof.
  assert (H : wake_order [1; 2]%nat = Ok [2; 1]%nat)
    by (vm_compute; reflexivity).
  split; [exact H|]. split.
  - rewrite H. discriminate.
  - intros Hfifo. specialize (Hfifo [1; 2]%nat).
    rewrite H in Hfifo. discriminate Hfifo.
    by apply (bool_decide_unpack _).
Qed.

(** The turns of the loop of [vlc_cond_broadcast] never write the head of
    the queue. *)
Lemma broadcast_turns_head k :
  ∀ cur σ cur' σ',
    broadcast_turns k cur σ = Ok (cur', σ') → head σ' = head σ.
Proof.
  induction k as [|k IH]; intros [w|] σ cur' σ' H; simpl in H;
    try (injection H as <- <-; reflexivity).
  apply bind_Ok in H as (r & Hr & H).
  apply bind_Ok in H as (σ1 & H1 & H).
  apply IH in H. rewrite H.
  unfold vlc_cond_signal_waiter in H1.
  apply bind_Ok in H1 as (r1 & _ & H1). injection H1 as <-. reflexivity.
Qed.

(** A loop that ends has made the state its turns make. *)
Lemma broadcast_loop_turns fuel :
  ∀ cur σ σ',
    broadcast_loop fuel cur σ = Ok σ' →
    broadcast_turns fuel cur σ = Ok (None, σ').
Proof.
  induction fuel as [|fuel IH]; intros [w|] σ σ' H; simpl in *;
    try discriminate; try (injection H as <-; reflexivity).
  apply bind_Ok in H as (r & Hr & H).
  apply bind_Ok in H as (σ1 & H1 & H).
  rewrite Hr. simpl. rewrite H1. simpl. apply IH, H.
Qed.

(** [vlc_cond_broadcast] on a well-formed state. *)
Lemma broadcast_wakes_all (σ : world) (l : list addr) :
  wf_with σ l →
  ∃ σ', vlc_cond_broadcast σ = Ok σ' ∧
        head σ' = None ∧ queue σ' [] ∧
        notified σ' = notified σ ++ l ∧
        (∀ w, w ∈ l → woken w σ' = true ∧ detached w σ') ∧
        (∀ w, w ∉ l → stack σ' !! w = stack σ !! w).
Proof.
  intros (Hq & Hz & _).
  destruct (broadcast_queue σ l Hq) as (σ' & Hrun & Hh & Hn & Hdet & Hfr).
  assert (Hwk : ∀ w, w ∈ l → woken w σ' = true ∧ detached w σ').
  { intros w Hw. destruct (Hdet w Hw) as [Hd Hv]. split; [|exact Hd].
    rewrite (Hz w Hw), to_uint_1 in Hv.
    destruct Hd as (r & Hr & _). unfold woken, value_of in *.
    rewrite Hr in *. rewrite Hv. reflexivity. }
  exists σ'. split_and!; try assumption.
Qed.

(** C4. From a state in which the queue holds the parked waiters [l],
    [vlc_cond_broadcast] runs to its end in one transition of the queue:
    it leaves the head empty, has called [vlc_atomic_notify_one] once on the
    cell of every waiter of [l] and on no other, has made every such cell
    nonzero and detached every such waiter, and has not touched any other
    waiter. The head is reset before the first wake and the queue is empty
    after every turn of the loop that delivers the wakes. Afterwards the
    threads of [l] return from [vlc_cond_wait], in whatever order [ws] they
    are scheduled, and the queue stays empty. *)
Theorem broadcast_wakes_every_waiter (σ : world) (l : list addr) :
  wf_with σ l →
  ∃ σ', vlc_cond_broadcast σ = Ok σ' ∧
        head σ' = None ∧ queue σ' [] ∧
        notified σ' = notified σ ++ l ∧
        (∀ w, w ∈ l → woken w σ' = true ∧ detached w σ') ∧
        (∀ w, w ∉ l → stack σ' !! w = stack σ !! w) ∧
        (∀ k cur σk,
           broadcast_turns k (head σ) (set_head None σ) = Ok (cur, σk) →
           queue σk []) ∧
        (∀ ws, ws ≡ₚ l →
               ∃ σ'', leave σ' ws σ'' ∧ queue σ'' [] ∧
                      notified σ'' = notified σ' ∧
                      ∀ w, w ∈ l → stack σ'' !! w = None).
Proof.
  intros Hwf.
  destruct (broadcast_wakes_all σ l Hwf)
    as (σ' & Hrun & Hh & Hq' & Hn & Hwk & Hfr).
  destruct Hwf as (Hq & _).
  exists σ'. split_and!; try assumption.
  - intros k cur σk Hk. apply broadcast_turns_head in Hk.
    unfold queue. rewrite Hk. reflexivity.
  - intros ws Hperm.
    destruct (leave_detached ws σ') as (σ'' & Hlv & Hh' & Hn' & Hgone & _).
    { rewrite Hperm. exact (queue_NoDup _ _ Hq). }
    { intros w Hw. rewrite Hperm in Hw. destruct (Hwk w Hw). by split. }
    exists σ''. split_and!; try assumption.
    + unfold queue. rewrite Hh', Hh. reflexivity.
    + intros w Hw. apply Hgone. rewrite Hperm. exact Hw.
Qed.

Lemma broadcast_wakes_every_waiter_witness :
  ∃ σ', vlc_cond_broadcast three_parked = Ok σ' ∧
        head σ' = None ∧ queue σ' [] ∧
        notified σ' = notified three_parked ++ [3; 2; 1]%nat ∧
        (∀ w, w ∈ [3; 2; 1]%nat → woken w σ' = true ∧ detached w σ') ∧
        (∀ w, w ∉ [3; 2; 1]%nat →
              stack σ' !! w = stack three_parked !! w) ∧
        (∀ k cur σk,
           broadcast_turns k (head three_parked)
             (set_head None three_parked) = Ok (cur, σk) →
           queue σk []) ∧
        (∀ ws, ws ≡ₚ [3; 2; 1]%nat →
               ∃ σ'', leave σ' ws σ'' ∧ queue σ'' [] ∧
                      notified σ'' = notified σ' ∧
                      ∀ w, w ∈ [3; 2; 1]%nat → stack σ'' !! w = None).
Proof.
  apply (broadcast_wakes_every_waiter three_parked [3; 2; 1]%nat).
  exact three_parked_wf.
Defined.

(** Clearing the [next] field of a waiter. *)
Lemma linked_clear (m : gmap addr vlc_cond_waiter) w r r' :
  m !! w = Some r → next r' = None →
  linked (<[w := r']> m) =
  (if next r is Some _ then pred (linked m) else linked m) ∧
  (if next r is Some _ then 0 < linked m else True)%nat.
Proof.
  intros Hr Hn'. unfold linked.
  set (P := λ kv : addr * vlc_cond_waiter, next kv.2 ≠ None).
  rewrite map_filter_insert_False by (unfold P; simpl; congruence).
  rewrite map_filter_delete, map_size_delete.
  destruct (filter P m !! w) as [x|] eqn:Hf.
  - pose proof (map_size_ne_0_lookup_2 _ _ (ex_intro _ x Hf)) as Hne.
    apply map_lookup_filter_Some in Hf as [Hm Hx].
    unfold P in Hx. simpl in Hx. rewrite Hr in Hm. injection Hm as <-.
    destruct (next r); [|congruence]. split; [reflexivity|lia].
  - destruct (next r) as [n|] eqn:Hnr; [|done].
    rewrite (map_lookup_filter_Some_2 P m w r Hr) in Hf; [discriminate|].
    unfold P. simpl. congruence.
Qed.

(** The loop of [vlc_cond_broadcast] ends on every state, well formed or
    not, within the fuel [vlc_cond_broadcast] gives it. *)
Lemma broadcast_loop_total fuel :
  ∀ cur σ,
    (linked (stack σ) < fuel)%nat → broadcast_loop fuel cur σ ≠ Diverged.
Proof.
  induction fuel as [|fuel IH]; intros cur σ Hfuel; [lia|].
  destruct cur as [w|]; simpl; [|discriminate].
  unfold load at 1. destruct (stack σ !! w) as [r|] eqn:Hr; simpl;
    [|discriminate].
  rewrite (signal_waiter_spec _ _ _ Hr). simpl.
  destruct (linked_clear (stack σ) w r
              {| pprev := NextOf w; next := None;
                 value := to_uint (value r + 1); mutex := mutex r |}
              Hr eq_refl) as [Hl Hpos].
  destruct (next r) as [n|] eqn:Hn.
  - apply IH. simpl. rewrite Hl. lia.
  - destruct fuel; simpl; discriminate.
Qed.

Lemma broadcast_never_diverges σ : vlc_cond_broadcast σ ≠ Diverged.
Proof.
  unfold vlc_cond_broadcast. apply broadcast_loop_total. simpl.
  unfold linked.
  pose proof (map_subseteq_size _ _
    (map_filter_subseteq
       (λ kv : addr * vlc_cond_waiter, next kv.2 ≠ None) (stack σ))).
  lia.
Qed.

(** The loop of [vlc_cond_broadcast] never writes the head of the queue:
    it is empty from the detachment on. *)
Lemma broadcast_loop_head fuel :
  ∀ cur σ σ', broadcast_loop fuel cur σ = Ok σ' → head σ' = head σ.
Proof.
  induction fuel as [|fuel IH]; intros [w|] σ σ' H; simpl in H;
    try discriminate; try (injection H as <-; reflexivity).
  apply bind_Ok in H as (r & Hr & H).
  apply bind_Ok in H as (σ1 & H1 & H).
  apply IH in H. rewrite H.
  unfold vlc_cond_signal_waiter in H1.
  apply bind_Ok in H1 as (r1 & _ & H1). injection H1 as <-. reflexivity.
Qed.

(** C10. A waiter [w] that [vlc_cond_signal] or [vlc_cond_broadcast] took
    off the queue has its linkage pointing at itself ([pprev = &w->next],
    [next = NULL]); it stays so whatever calls other threads make on the
    condition variable afterwards, and the unlink that
    [vlc_cond_wait_finish] then runs for [w] leaves the whole state as it
    was: the head, every waiter, the notifications. *)
Theorem detached_unlink_is_noop (σ : world) (w : addr) (σ1 : world)
  (os : list cond_op) (σ2 : world) :
  wf σ →
  (head σ = Some w ∧ vlc_cond_signal σ = Ok σ1) ∨
  (∃ l, queue σ l ∧ w ∈ l ∧ vlc_cond_broadcast σ = Ok σ1) →
  steps σ1 os σ2 → Return w ∉ os →
  detached w σ1 ∧ detached w σ2 ∧ vlc_cond_wait_finish w σ2 = Ok σ2.
Proof.
  intros [l0 Hwf] Hwake Hsteps Hos.
  assert (H1 : wf σ1 ∧ detached w σ1).
  { destruct Hwake as [[Hh Hrun]|(l & Hq & Hin & Hrun)].
    - pose proof Hwf as (Hq & _).
      destruct l0 as [|w0 l0].
      { unfold queue in Hq. simpl in Hq. congruence. }
      assert (w0 = w) as ->.
      { destruct Hq as [Hq _]. congruence. }
      destruct (run_op_wf Signal σ _ Hwf I) as (σ' & l' & Hrun' & Hwf' & _).
      simpl in Hrun'. rewrite Hrun in Hrun'. injection Hrun' as <-.
      split; [exists l'; exact Hwf'|].
      destruct (signal_queue σ w l0 Hq) as (σ' & Hrun' & _ & _ & Hd & _).
      rewrite Hrun in Hrun'. injection Hrun' as <-. exact Hd.
    - destruct (run_op_wf Broadcast σ _ Hwf I)
        as (σ' & l' & Hrun' & Hwf' & _).
      simpl in Hrun'. rewrite Hrun in Hrun'. injection Hrun' as <-.
      split; [exists l'; exact Hwf'|].
      destruct (broadcast_queue σ l Hq) as (σ' & Hrun' & _ & _ & Hd & _).
      rewrite Hrun in Hrun'. injection Hrun' as <-. apply Hd, Hin. }
  destruct H1 as [Hwf1 Hd1].
  destruct (steps_detached w σ1 os σ2 Hsteps Hwf1 Hd1 Hos) as [_ Hd2].
  split_and!; [exact Hd1|exact Hd2|].
  apply wait_finish_detached, Hd2.
Qed.

Lemma detached_unlink_is_noop_witness :
  detached 3%nat three_parked_signalled ∧
  detached 3%nat three_parked_later ∧
  vlc_cond_wait_finish 3%nat three_parked_later = Ok three_parked_later.
Proof.
  apply (detached_unlink_is_noop three_parked 3%nat three_parked_signalled
           later_calls three_parked_later).
  - exists [3; 2; 1]%nat. exact three_parked_wf.
  - left. split; vm_compute; reflexivity.
  - unfold later_calls.
    eapply steps_cons; [vm_compute; reflexivity|vm_compute; reflexivity|].
    eapply steps_cons; [exact I|vm_compute; reflexivity|].
    eapply steps_cons;
      [eexists; vm_compute; reflexivity|vm_compute; reflexivity|].
    assert (H : ∀ σ σ', σ = σ' → steps σ [] σ')
      by (intros σ ? <-; constructor).
    apply H. vm_compute. reflexivity.
  - unfold later_calls. intros Hin.
    repeat (apply elem_of_cons in Hin as [Hin|Hin]; [discriminate Hin|]).
    by apply elem_of_nil in Hin.
Defined.

(** *** Which waiters are live after a call *)

Lemma store_live w r σ :
  is_Some (stack σ !! w) → dom (stack (store w r σ)) = dom (stack σ).
Proof. intros H. simpl. apply dom_insert_lookup_L, H. Qed.

Lemma load_live w σ r : load w σ = Ok r → is_Some (stack σ !! w).
Proof.
  unfold load. destruct (stack σ !! w) eqn:H; [eauto|discriminate].
Qed.

Lemma store_slot_live s v σ σ' :
  store_slot s v σ = Ok σ' → dom (stack σ') = dom (stack σ).
Proof.
  destruct s as [|w]; simpl; intros H.
  - injection H as <-. reflexivity.
  - apply bind_Ok in H as (r & Hr & H). injection H as <-.
    apply store_live. eapply load_live, Hr.
Qed.

Lemma store_pprev_live n s σ σ' :
  store_pprev n s σ = Ok σ' → dom (stack σ') = dom (stack σ).
Proof.
  destruct n as [w|]; simpl; intros H.
  - apply bind_Ok in H as (r & Hr & H). injection H as <-.
    apply store_live. eapply load_live, Hr.
  - injection H as <-. reflexivity.
Qed.

Lemma signal_waiter_live w σ σ' :
  vlc_cond_signal_waiter w σ = Ok σ' → dom (stack σ') = dom (stack σ).
Proof.
  unfold vlc_cond_signal_waiter. intros H.
  apply bind_Ok in H as (r & Hr & H). injection H as <-. simpl.
  apply dom_insert_lookup_L. eapply load_live, Hr.
Qed.

Lemma signal_live σ σ' :
  vlc_cond_signal σ = Ok σ' → dom (stack σ') = dom (stack σ).
Proof.
  unfold vlc_cond_signal. destruct (head σ) as [w|]; intros H.
  - apply bind_Ok in H as (r & Hr & H).
    apply bind_Ok in H as (σ1 & H1 & H).
    apply bind_Ok in H as (σ2 & H2 & H).
    apply signal_waiter_live in H. apply store_pprev_live in H2.
    apply store_slot_live in H1. congruence.
  - injection H as <-. reflexivity.
Qed.

Lemma broadcast_loop_live fuel :
  ∀ cur σ σ',
    broadcast_loop fuel cur σ = Ok σ' → dom (stack σ') = dom (stack σ).
Proof.
  induction fuel as [|fuel IH]; intros [w|] σ σ' H; simpl in H;
    try discriminate; try (injection H as <-; reflexivity).
  apply bind_Ok in H as (r & Hr & H).
  apply bind_Ok in H as (σ1 & H1 & H).
  apply IH in H. apply signal_waiter_live in H1. congruence.
Qed.

Lemma broadcast_live σ σ' :
  vlc_cond_broadcast σ = Ok σ' → dom (stack σ') = dom (stack σ).
Proof.
  unfold vlc_cond_broadcast. intros H. apply broadcast_loop_live in H.
  exact H.
Qed.

Lemma wait_finish_live w σ σ' :
  vlc_cond_wait_finish w σ = Ok σ' → dom (stack σ') = dom (stack σ).
Proof.
  unfold vlc_cond_wait_finish. intros H.
  apply bind_Ok in H as (r & Hr & H).
  apply bind_Ok in H as (σ1 & H1 & H).
  apply bind_Ok in H as (r1 & Hr1 & H).
  apply store_pprev_live in H. apply store_slot_live in H1. congruence.
Qed.

Lemma wait_return_live w σ σ' :
  vlc_cond_wait_return w σ = Ok σ' →
  dom (stack σ') = dom (stack σ) ∖ {[w]}.
Proof.
  unfold vlc_cond_wait_return. intros H.
  apply bind_Ok in H as (σ1 & H1 & H). injection H as <-. simpl.
  rewrite dom_delete_L. apply wait_finish_live in H1. congruence.
Qed.

Lemma wait_prepare_live w mtx σ σ' :
  vlc_cond_wait_prepare w mtx σ = Ok σ' →
  dom (stack σ') = {[w]} ∪ dom (stack σ).
Proof.
  unfold vlc_cond_wait_prepare. intros H.
  apply store_pprev_live in H. rewrite H. simpl. apply dom_insert_L.
Qed.

End CondTheory.

Module SemTheory.
Import Sem.

Lemma to_uint_id z : 0 ≤ z ≤ UINT_MAX → to_uint z = z.
Proof.
  intros H. unfold to_uint. apply Z.mod_small. unfold UINT_MAX in *. lia.
Qed.

(** Case analysis on one turn of a thread: every test of the code becomes
    a hypothesis. *)
Ltac zbool :=
  repeat match goal with
  | H : (_ =? _) = true |- _ => apply Z.eqb_eq in H
  | H : (_ =? _) = false |- _ => apply Z.eqb_neq in H
  end.

Ltac turn_cases a p c :=
  destruct a as [[]|c]; destruct p; try destruct c; simpl in *;
  unfold cas_weak, vlc_atomic_wait, vlc_atomic_timedwait in *; simpl in *;
  rewrite ?andb_true_r, ?andb_false_r, ?orb_true_r, ?orb_false_r in *;
  repeat (case_match; simpl in * ); simplify_eq; zbool.

(** Case analysis on the membership in an explicit list. *)
Ltac elem_cases H :=
  repeat (apply elem_of_cons in H as [H|H]; [try discriminate H|]);
  try (by apply elem_of_nil in H).

Lemma turn_ok a p v p' v' es :
  pc_ok p → 0 ≤ v ≤ UINT_MAX → turn a p v = (p', v', es) →
  pc_ok p' ∧ 0 ≤ v' ≤ UINT_MAX.
Proof.
  intros Hp Hv Ht. turn_cases a p c; simpl;
    rewrite ?to_uint_id by lia; unfold UINT_MAX in *; lia.
Qed.

Lemma pc_of_insert t t' p v (m : gmap nat pc) :
  pc_of t' {| value := v; threads := <[t := p]> m |} =
  if decide (t = t') then p else default Idle (m !! t').
Proof.
  unfold pc_of. simpl. case_decide as H.
  - subst. rewrite lookup_insert_eq. reflexivity.
  - rewrite lookup_insert_ne by exact H. reflexivity.
Qed.

Lemma step_eq t a s p' v' es :
  turn a (pc_of t s) (value s) = (p', v', es) →
  step (t, a) s =
    ({| value := v'; threads := <[t := p']> (threads s) |},
     (λ e, (t, e)) <$> es).
Proof. intros H. unfold step. simpl. rewrite H. reflexivity. Qed.

Lemma step_ok ta s : state_ok s → state_ok (step ta s).1.
Proof.
  intros [Hv Hp]. destruct ta as [t a].
  destruct (turn a (pc_of t s) (value s)) as [[p' v'] es] eqn:Ht.
  rewrite (step_eq _ _ _ _ _ _ Ht). simpl.
  destruct (turn_ok _ _ _ _ _ _ (Hp t) Hv Ht) as [Hp' Hv'].
  split; [exact Hv'|]. intros t'. rewrite pc_of_insert.
  case_decide; [exact Hp'|apply Hp].
Qed.

Lemma exec_cons ta sch s :
  exec (ta :: sch) s =
    ((exec sch (step ta s).1).1, (step ta s).2 ++ (exec sch (step ta s).1).2).
Proof.
  simpl. destruct (step ta s) as [s1 es]. simpl.
  destruct (exec sch s1) as [s2 tr]. reflexivity.
Qed.

Lemma exec_ok sch : ∀ s, state_ok s → state_ok (exec sch s).1.
Proof.
  induction sch as [|ta sch IH]; intros s Hs; [exact Hs|].
  rewrite exec_cons. simpl. apply IH, step_ok, Hs.
Qed.

Lemma init_ok V : state_ok (vlc_sem_init V).
Proof.
  split; simpl.
  - unfold to_uint. pose proof (Z.mod_pos_bound V (UINT_MAX + 1)).
    unfold UINT_MAX in *. lia.
  - intros t. unfold pc_of. simpl. rewrite lookup_empty. exact I.
Qed.

Lemma count_app f tr1 tr2 : count f (tr1 ++ tr2) = count f tr1 + count f tr2.
Proof.
  induction tr1 as [|te tr1 IH]; simpl; [reflexivity|]. rewrite IH. lia.
Qed.

Lemma count_nonneg f tr : 0 ≤ count f tr.
Proof. induction tr as [|te tr IH]; simpl; [lia|]. case_match; lia. Qed.

(** The calls of [vlc_sem_post] that are between their compare-exchange
    and their return, when one thread moves. *)
Lemma posting_insert t p v s :
  posting {| value := v; threads := <[t := p]> (threads s) |} =
  posting s - notifying (pc_of t s) + notifying p.
Proof.
  unfold posting, notifying, pc_of. simpl.
  set (P := λ tp : nat * pc, tp.2 = PostNotify).
  set (m := threads s).
  assert (Hsize : Z.of_nat (size (filter P m)) =
                  Z.of_nat (size (delete t (filter P m))) +
                  (if decide (default Idle (m !! t) = PostNotify)
                   then 1 else 0)).
  { rewrite map_size_delete.
    destruct (filter P m !! t) as [x|] eqn:Hf.
    - pose proof (map_size_ne_0_lookup_2 _ _ (ex_intro _ x Hf)) as Hne.
      apply map_lookup_filter_Some in Hf as [Hm Hx].
      unfold P in Hx. simpl in Hx. subst x.
      rewrite Hm. simpl. lia.
    - rewrite decide_False; [simpl; lia|]. intros Hd.
      destruct (m !! t) as [x|] eqn:Hm; simpl in Hd; [|discriminate].
      subst x.
      rewrite (map_lookup_filter_Some_2 P m t PostNotify Hm eq_refl) in Hf.
      discriminate. }
  rewrite map_filter_insert.
  destruct (decide (P (t, p))) as [HP|HP]; unfold P in HP; simpl in HP.
  - rewrite (decide_True (P := p = PostNotify)) by exact HP.
    rewrite <- (insert_delete_eq (filter P m)).
    rewrite map_size_insert_None by apply lookup_delete_eq. lia.
  - rewrite (decide_False (P := p = PostNotify)) by exact HP.
    rewrite map_filter_delete. lia.
Qed.

Lemma turn_conserve a p v p' v' es t :
  pc_ok p → 0 ≤ v ≤ UINT_MAX → turn a p v = (p', v', es) →
  v' - notifying p' - posts ((λ e, (t, e)) <$> es)
     + waits ((λ e, (t, e)) <$> es) = v - notifying p.
Proof.
  intros Hp Hv Ht. unfold posts, waits, notifying.
  turn_cases a p c; simpl;
    rewrite ?to_uint_id by lia; unfold UINT_MAX in *; try lia.
Qed.

Lemma step_conserve ta s :
  state_ok s →
  value (step ta s).1 - posting (step ta s).1
    - posts (step ta s).2 + waits (step ta s).2
  = value s - posting s.
Proof.
  intros [Hv Hp]. destruct ta as [t a].
  destruct (turn a (pc_of t s) (value s)) as [[p' v'] es] eqn:Ht.
  rewrite (step_eq _ _ _ _ _ _ Ht). simpl.
  rewrite posting_insert.
  pose proof (turn_conserve _ _ _ _ _ _ t (Hp t) Hv Ht). lia.
Qed.

Lemma exec_conserve sch :
  ∀ s, state_ok s →
       value (exec sch s).1 - posting (exec sch s).1
         - posts (exec sch s).2 + waits (exec sch s).2
       = value s - posting s.
Proof.
  induction sch as [|ta sch IH]; intros s Hs.
  - simpl. unfold posts, waits. simpl. lia.
  - rewrite exec_cons. simpl.
    pose proof (IH _ (step_ok ta s Hs)) as H1.
    pose proof (step_conserve ta s Hs) as H2.
    unfold posts, waits in *. rewrite !count_app. lia.
Qed.

Lemma quiescent_posting s : quiescent s → posting s = 0.
Proof.
  intros Hq. unfold posting.
  replace (filter (λ tp : nat * pc, tp.2 = PostNotify) (threads s))
    with (∅ : gmap nat pc); [reflexivity|].
  symmetry. apply map_empty. intros t.
  apply map_lookup_filter_None. right. intros p Hp HP. simpl in HP.
  specialize (Hq t p Hp). simpl in Hq. congruence.
Qed.

Lemma init_posting V : posting (vlc_sem_init V) = 0.
Proof. reflexivity. Qed.

Lemma events_of_app t tr1 tr2 :
  events_of t (tr1 ++ tr2) = events_of t tr1 ++ events_of t tr2.
Proof. apply omap_app. Qed.

Lemma events_of_thread t t' (es : list event) :
  events_of t ((λ e, (t', e)) <$> es) = if decide (t' = t) then es else [].
Proof.
  unfold events_of. induction es as [|e es IH]; csimpl.
  - case_decide; reflexivity.
  - rewrite IH. case_decide; reflexivity.
Qed.

Lemma history_silent p p' h :
  history p h → (∀ cur, partial_call p cur → partial_call p' cur) →
  history p' (h ++ []).
Proof.
  intros (calls & cur & -> & Hall & Hcur) Hp. rewrite app_nil_r.
  exists calls, cur. auto.
Qed.

Lemma history_extend p p' h es :
  history p h →
  (∀ cur, partial_call p cur → partial_call p' (cur ++ es)) →
  history p' (h ++ es).
Proof.
  intros (calls & cur & -> & Hall & Hcur) Hp.
  exists calls, (cur ++ es). rewrite app_assoc. auto.
Qed.

Lemma history_complete p h es :
  history p h →
  (∀ cur, partial_call p cur → complete_call (cur ++ es)) →
  history Idle (h ++ es).
Proof.
  intros (calls & cur & -> & Hall & Hcur) Hp.
  exists (calls ++ [cur ++ es]), []. split_and!.
  - rewrite concat_app. simpl. rewrite !app_nil_r, app_assoc. reflexivity.
  - apply Forall_app. split; [exact Hall|]. constructor; [|constructor].
    apply Hp, Hcur.
  - reflexivity.
Qed.

(** One turn of a thread extends its history by what the turn lets see. *)
Lemma turn_history a p v p' v' es h :
  pc_ok p → 0 ≤ v ≤ UINT_MAX → turn a p v = (p', v', es) →
  history p h → history p' (h ++ es).
Proof.
  intros Hp Hv Ht Hh.
  turn_cases a p c;
    first
      [ by (eapply history_silent; [exact Hh|simpl; intros; assumption])
      | by (eapply history_extend; [exact Hh|];
            simpl; intros cur Hcur; subst; simpl; eauto with lia)
      | by (eapply history_complete; [exact Hh|];
            simpl; intros cur Hcur;
            try (destruct Hcur as (old & Hold & Hcur));
            subst; simpl; constructor; lia) ].
Qed.

Lemma step_history ta s tr0 :
  state_ok s →
  (∀ t, history (pc_of t s) (events_of t tr0)) →
  ∀ t, history (pc_of t (step ta s).1) (events_of t (tr0 ++ (step ta s).2)).
Proof.
  intros [Hv Hp] Hh t'. destruct ta as [t a].
  destruct (turn a (pc_of t s) (value s)) as [[p' v'] es] eqn:Ht.
  rewrite (step_eq _ _ _ _ _ _ Ht). simpl.
  rewrite pc_of_insert, events_of_app, events_of_thread.
  case_decide as Htt.
  - subst t'. eapply turn_history; [apply Hp|exact Hv|exact Ht|apply Hh].
  - rewrite app_nil_r. apply Hh.
Qed.

Lemma exec_history sch :
  ∀ s tr0,
    state_ok s →
    (∀ t, history (pc_of t s) (events_of t tr0)) →
    ∀ t, history (pc_of t (exec sch s).1)
                 (events_of t (tr0 ++ (exec sch s).2)).
Proof.
  induction sch as [|ta sch IH]; intros s tr0 Hs Hh t.
  - simpl. rewrite app_nil_r. apply Hh.
  - rewrite exec_cons. simpl. rewrite app_assoc.
    apply IH; [apply step_ok, Hs|].
    apply step_history; assumption.
Qed.

Lemma init_history V t : history (pc_of t (vlc_sem_init V)) (events_of t []).
Proof.
  exists [], []. unfold pc_of. simpl. rewrite lookup_empty. simpl.
  split_and!; [reflexivity|constructor|reflexivity].
Qed.

(** While the count is 0 and no thread is in [vlc_sem_post], no turn
    changes the count or completes a wait. *)
Lemma turn_no_post a p v p' v' es t :
  pc_ok p → v = 0 → a ≠ Enter Post → in_post p = false →
  turn a p v = (p', v', es) →
  v' = 0 ∧ waits ((λ e, (t, e)) <$> es) = 0.
Proof.
  intros Hp Hv Ha Hin Ht. unfold waits.
  turn_cases a p c; simpl; try done; try lia.
Qed.

Lemma exec_no_post sch :
  ∀ s, state_ok s → value s = 0 → no_post sch s →
       value (exec sch s).1 = 0 ∧ waits (exec sch s).2 = 0.
Proof.
  induction sch as [|ta sch IH]; intros s Hs Hv Hn.
  - simpl. auto.
  - destruct Hn as (Ha & Hin & Hn). rewrite exec_cons. simpl.
    pose proof (step_ok ta s Hs) as Hs1.
    destruct ta as [t a]. simpl in *.
    destruct (turn a (pc_of t s) (value s)) as [[p' v'] es] eqn:Ht.
    rewrite (step_eq _ _ _ _ _ _ Ht) in *. simpl in *.
    destruct Hs as [Hrange Hpc].
    destruct (turn_no_post _ _ _ _ _ _ t (Hpc t) Hv Ha Hin Ht) as [Hv' Hw].
    subst v'. destruct (IH _ Hs1 eq_refl Hn) as [Hv2 Hw2].
    split; [exact Hv2|]. unfold waits in *. rewrite count_app. lia.
Qed.

Lemma turn_dec a p v p' v' es old :
  pc_ok p → 0 ≤ v ≤ UINT_MAX → turn a p v = (p', v', es) → Dec old ∈ es →
  v = old ∧ 0 < old ∧ v' = old - 1.
Proof.
  intros Hp Hv Ht Hin.
  turn_cases a p c; elem_cases Hin; simplify_eq;
    rewrite ?to_uint_id by lia; lia.
Qed.

Lemma step_dec ta s t old :
  state_ok s → (t, Dec old) ∈ (step ta s).2 →
  value s = old ∧ 0 < old ∧ value (step ta s).1 = old - 1.
Proof.
  intros [Hv Hp] Hin. destruct ta as [t' a].
  destruct (turn a (pc_of t' s) (value s)) as [[p' v'] es] eqn:Ht.
  rewrite (step_eq _ _ _ _ _ _ Ht) in *. simpl in *.
  apply list_elem_of_fmap in Hin as (e & [= ? ?] & Hin). subst.
  eapply turn_dec; [apply Hp|exact Hv|exact Ht|exact Hin].
Qed.

Lemma turn_inc a p v p' v' es old :
  pc_ok p → 0 ≤ v ≤ UINT_MAX → turn a p v = (p', v', es) → Inc old ∈ es →
  v = old ∧ old < UINT_MAX ∧ v' = old + 1.
Proof.
  intros Hp Hv Ht Hin.
  turn_cases a p c; elem_cases Hin; simplify_eq;
    rewrite ?to_uint_id by lia; lia.
Qed.

Lemma step_inc ta s t old :
  state_ok s → (t, Inc old) ∈ (step ta s).2 →
  value s = old ∧ old < UINT_MAX ∧ value (step ta s).1 = old + 1.
Proof.
  intros [Hv Hp] Hin. destruct ta as [t' a].
  destruct (turn a (pc_of t' s) (value s)) as [[p' v'] es] eqn:Ht.
  rewrite (step_eq _ _ _ _ _ _ Ht) in *. simpl in *.
  apply list_elem_of_fmap in Hin as (e & [= ? ?] & Hin). subst.
  eapply turn_inc; [apply Hp|exact Hv|exact Ht|exact Hin].
Qed.

Lemma complete_timedwait c : complete_call c → timedwait_shape c.
Proof.
  intros Hc r Hin. destruct Hc; elem_cases Hin; simplify_eq.
  - right. split; [reflexivity|]. exists old. auto.
  - left. auto.
Qed.

Lemma complete_post c : complete_call c → post_shape c.
Proof.
  intros Hc r Hin. destruct Hc; elem_cases Hin; simplify_eq.
  - left. auto.
  - right. split; [reflexivity|]. exists old. auto.
Qed.

(** The events of every thread in every run from a fresh semaphore. *)
Lemma run_history V sch t :
  ∃ calls cur,
    events_of t (exec sch (vlc_sem_init V)).2 = concat calls ++ cur ∧
    partial_call (pc_of t (exec sch (vlc_sem_init V)).1) cur ∧
    Forall complete_call calls.
Proof.
  destruct (exec_history sch (vlc_sem_init V) [] (init_ok V)
              (init_history V) t) as (calls & cur & Heq & Hall & Hcur).
  simpl in Heq. exists calls, cur. auto.
Qed.

(** ** The claims on semaphores *)

(** C2. On a semaphore initialised to [V], whatever the threads and the
    schedule: the count is [V], plus the calls of [vlc_sem_post] that
    returned 0 and those that have added their 1 and not returned yet, minus
    the waits that returned with success; it stays within the range of an
    [unsigned]; when no thread is inside a call it is exactly [V + P - W].
    And from a count of 0, as long as no thread is in, or enters,
    [vlc_sem_post], the count stays 0 and no wait returns with success. *)
Theorem semaphore_conservation (V : Z) (sch : list (nat * action)) :
  0 ≤ V ≤ UINT_MAX →
  let s := (exec sch (vlc_sem_init V)).1 in
  let tr := (exec sch (vlc_sem_init V)).2 in
  value s = V + posts tr + posting s - waits tr ∧
  0 ≤ value s ≤ UINT_MAX ∧
  (quiescent s → value s = V + posts tr - waits tr) ∧
  (value s = 0 →
   ∀ sch', no_post sch' s →
           value (exec sch' s).1 = 0 ∧ waits (exec sch' s).2 = 0).
Proof.
  intros HV s tr.
  pose proof (exec_ok sch _ (init_ok V)) as Hok. fold s in Hok.
  pose proof (exec_conserve sch _ (init_ok V)) as Hc.
  fold s in Hc. fold tr in Hc.
  rewrite init_posting in Hc. simpl in Hc. rewrite (to_uint_id V HV) in Hc.
  destruct Hok as [Hrange Hpcs].
  split; [lia|]. split; [exact Hrange|]. split.
  - intros Hq. rewrite (quiescent_posting s Hq) in Hc. lia.
  - intros Hz sch' Hn. apply exec_no_post; [split| |]; assumption.
Qed.

Lemma semaphore_conservation_witness :
  value sample_state =
    1 + posts (exec sample_calls (vlc_sem_init 1)).2
      - waits (exec sample_calls (vlc_sem_init 1)).2 ∧
  value (exec sample_waiters sample_state).1 = 0 ∧
  waits (exec sample_waiters sample_state).2 = 0.
Proof.
  assert (HV : 0 ≤ 1 ≤ UINT_MAX) by (unfold UINT_MAX; lia).
  destruct (semaphore_conservation 1 sample_calls HV) as (_ & _ & Hq & Hz).
  split.
  - apply Hq. apply (bool_decide_unpack _). vm_compute. exact I.
  - apply Hz.
    + vm_compute. reflexivity.
    + vm_compute. repeat split; discriminate.
Defined.

(** A call of [vlc_sem_post] by a thread that is outside of any call, with
    no other thread running. *)
Lemma post_alone_runs (s : state) (t : nat) :
  state_ok s → pc_of t s = Idle →
  (value s = UINT_MAX →
   ∀ c1 c2,
     exec [(t, Enter Post); (t, Run c1); (t, Run c2)] s =
       ({| value := UINT_MAX; threads := <[t := Idle]> (threads s) |},
        [(t, Call Post); (t, Ret Post EOVERFLOW)])) ∧
  (value s < UINT_MAX →
   ∀ k,
     exec (post_alone t k) s =
       ({| value := value s + 1; threads := <[t := Idle]> (threads s) |},
        [(t, Call Post); (t, Inc (value s)); (t, Notify);
         (t, Ret Post 0)])).
Proof.
  intros [Hv _] Hidle.
  assert (Hstep : ∀ a p v m p' v' es,
            turn a p v = (p', v', es) →
            step (t, a) {| value := v; threads := <[t := p]> m |} =
              ({| value := v'; threads := <[t := p']> m |},
               (λ e, (t, e)) <$> es)).
  { intros a p v m p' v' es Ht. unfold step. simpl.
    rewrite pc_of_insert, decide_True by reflexivity.
    rewrite Ht, insert_insert_eq. reflexivity. }
  assert (Henter : step (t, Enter Post) s =
            ({| value := value s; threads := <[t := PostLoad]> (threads s) |},
             [(t, Call Post)])).
  { unfold step. simpl. rewrite Hidle. reflexivity. }
  assert (Hnext : ∀ a p v m p' v' es sch,
            turn a p v = (p', v', es) →
            exec ((t, a) :: sch) {| value := v; threads := <[t := p]> m |} =
              ((exec sch {| value := v'; threads := <[t := p']> m |}).1,
               ((λ e, (t, e)) <$> es)
               ++ (exec sch {| value := v'; threads := <[t := p']> m |}).2)).
  { intros a p v m p' v' es sch Ht.
    rewrite exec_cons, (Hstep _ _ _ _ _ _ _ Ht). reflexivity. }
  assert (Hload : ∀ c v, turn (Run c) PostLoad v = (PostTest v, v, []))
    by reflexivity.
  assert (Hnotify : ∀ c v, turn (Run c) PostNotify v =
                             (Idle, v, [Notify; Ret Post 0]))
    by reflexivity.
  split.
  - intros Hmax c1 c2. rewrite exec_cons, Henter. cbn [fst snd].
    rewrite (Hnext _ _ _ _ _ _ _ _ (Hload _ _)). cbn [fst snd].
    assert (Htest : turn (Run c2) (PostTest (value s)) (value s) =
              (Idle, value s, [Ret Post EOVERFLOW])).
    { simpl. rewrite Hmax. reflexivity. }
    rewrite (Hnext _ _ _ _ _ _ _ _ Htest). rewrite Hmax. reflexivity.
  - intros Hlt k. unfold post_alone. cbn [app].
    rewrite exec_cons, Henter. cbn [fst snd app].
    rewrite (Hnext _ _ _ _ _ _ _ _ (Hload _ _)). cbn [fst snd app].
    assert (Htest : turn (Run Normal) (PostTest (value s)) (value s) =
              (PostCas (value s), value s, [])).
    { simpl. destruct (Z.eqb_spec (value s) UINT_MAX); [lia|reflexivity]. }
    rewrite (Hnext _ _ _ _ _ _ _ _ Htest). cbn [fst snd app].
    assert (Hfail : turn (Run Spurious) (PostCas (value s)) (value s) =
              (PostTest (value s), value s, [])).
    { simpl. unfold cas_weak. simpl. rewrite andb_false_r. reflexivity. }
    assert (Hcas : turn (Run Normal) (PostCas (value s)) (value s) =
              (PostNotify, value s + 1, [Inc (value s)])).
    { simpl. unfold cas_weak. simpl. rewrite Z.eqb_refl. simpl.
      rewrite to_uint_id by lia. reflexivity. }
    induction k as [|k IH].
    + cbn [replicate concat app].
      rewrite (Hnext _ _ _ _ _ _ _ _ Hcas). cbn [fst snd app].
      rewrite (Hnext _ _ _ _ _ _ _ _ (Hnotify _ _)). reflexivity.
    + cbn [replicate concat]. rewrite <- !app_assoc. cbn [app].
      rewrite (Hnext _ _ _ _ _ _ _ _ Hfail). cbn [fst snd app].
      rewrite (Hnext _ _ _ _ _ _ _ _ Htest). exact IH.
Qed.

(** C5. In every state [s] that a run from a fresh semaphore leads to,
    for every thread [t]:
    - [EOVERFLOW] is not the success status;
    - if [t] is outside of any call and the count is at its maximum, a call
      of [vlc_sem_post] by [t] that no other thread interferes with returns
      [EOVERFLOW] after its load and its test, whatever the environment
      decides: it never parks, the count is unchanged and no notification is
      sent;
    - if [t] is outside of any call and the count is below its maximum, such
      a call, however many times its weak compare-exchange fails spuriously,
      adds exactly 1 to the count, calls [vlc_atomic_notify_one] once and
      returns 0;
    - an [Inc old] event of a turn means that the turn took the count from
      [old], which is below the maximum, to [old + 1];
    - whatever the other threads did in between, every finished call of
      [vlc_sem_post] by [t] either returned [EOVERFLOW] with no increment and
      no notification, or returned 0 after exactly one increment followed by
      exactly one notification. *)
Theorem post_overflow_or_increment (V : Z) (sch : list (nat * action))
  (t : nat) :
  let s := (exec sch (vlc_sem_init V)).1 in
  let tr := (exec sch (vlc_sem_init V)).2 in
  EOVERFLOW ≠ 0 ∧
  (pc_of t s = Idle → value s = UINT_MAX →
   ∀ c1 c2,
     exec [(t, Enter Post); (t, Run c1); (t, Run c2)] s =
       ({| value := UINT_MAX; threads := <[t := Idle]> (threads s) |},
        [(t, Call Post); (t, Ret Post EOVERFLOW)])) ∧
  (pc_of t s = Idle → value s < UINT_MAX →
   ∀ k,
     exec (post_alone t k) s =
       ({| value := value s + 1; threads := <[t := Idle]> (threads s) |},
        [(t, Call Post); (t, Inc (value s)); (t, Notify);
         (t, Ret Post 0)])) ∧
  (∀ ta old, (t, Inc old) ∈ (step ta s).2 →
             value s = old ∧ old < UINT_MAX ∧
             value (step ta s).1 = old + 1) ∧
  ∃ calls cur,
    events_of t tr = concat calls ++ cur ∧
    partial_call (pc_of t s) cur ∧
    Forall (λ c, complete_call c ∧ post_shape c) calls.
Proof.
  intros s tr.
  pose proof (exec_ok sch _ (init_ok V)) as Hok. fold s in Hok.
  split; [discriminate|]. split; [|split; [|split]].
  - intros Hidle. apply (post_alone_runs s t Hok Hidle).
  - intros Hidle. apply (post_alone_runs s t Hok Hidle).
  - intros ta old Hin. eapply step_inc; eassumption.
  - destruct (run_history V sch t) as (calls & cur & Heq & Hcur & Hall).
    exists calls, cur. split_and!; try assumption.
    eapply Forall_impl; [exact Hall|]. intros c Hc. split; [exact Hc|].
    apply complete_post, Hc.
Qed.

Lemma post_overflow_or_increment_witness :
  exec [(1%nat, Enter Post); (1%nat, Run Normal); (1%nat, Run Normal)]
       (vlc_sem_init UINT_MAX) =
    ({| value := UINT_MAX; threads := {[1%nat := Idle]} |},
     [(1%nat, Call Post); (1%nat, Ret Post EOVERFLOW)]) ∧
  exec (post_alone 1 2) (vlc_sem_init 5) =
    ({| value := 6; threads := {[1%nat := Idle]} |},
     [(1%nat, Call Post); (1%nat, Inc 5); (1%nat, Notify);
      (1%nat, Ret Post 0)]).
Proof.
  split.
  - destruct (post_overflow_or_increment UINT_MAX [] 1%nat)
      as (_ & H & _).
    apply H; reflexivity.
  - destruct (post_overflow_or_increment 5 [] 1%nat) as (_ & _ & H & _).
    apply (H eq_refl ltac:(vm_compute; reflexivity) 2%nat).
Defined.

(** C7. On a semaphore initialised to [V], whatever the threads and the
    schedule, for every thread [t]:
    - [ETIMEDOUT] is not the success status;
    - if [t] is parked in [vlc_sem_timedwait] and the deadline elapses, the
      call returns [ETIMEDOUT] and the count is what it was;
    - a [Dec old] event of a turn means that the turn took the count from
      [old], which is not 0, to [old - 1];
    - the events of [t] are those of finished calls followed by those of
      the call [t] is in, and a finished call of [vlc_sem_timedwait] either
      returned [ETIMEDOUT] without any decrement, or returned 0 after
      exactly one decrement. *)
Theorem timedwait_timeout_or_decrement (V : Z) (sch : list (nat * action))
  (t : nat) :
  let s := (exec sch (vlc_sem_init V)).1 in
  let tr := (exec sch (vlc_sem_init V)).2 in
  ETIMEDOUT ≠ 0 ∧
  (pc_of t s = TimedPark →
   step (t, Run Elapsed) s =
     ({| value := value s; threads := <[t := Idle]> (threads s) |},
      [(t, Ret TimedWait ETIMEDOUT)])) ∧
  (∀ ta old, (t, Dec old) ∈ (step ta s).2 →
             value s = old ∧ 0 < old ∧ value (step ta s).1 = old - 1) ∧
  ∃ calls cur,
    events_of t tr = concat calls ++ cur ∧
    partial_call (pc_of t s) cur ∧
    Forall (λ c, complete_call c ∧ timedwait_shape c) calls.
Proof.
  intros s tr.
  pose proof (exec_ok sch _ (init_ok V)) as Hok. fold s in Hok.
  split_and!.
  - discriminate.
  - intros Hpc. unfold step. simpl. rewrite Hpc. reflexivity.
  - intros ta old Hin. eapply step_dec; eassumption.
  - destruct (run_history V sch t) as (calls & cur & Heq & Hcur & Hall).
    exists calls, cur. split_and!; try assumption.
    eapply Forall_impl; [exact Hall|]. intros c Hc. split; [exact Hc|].
    apply complete_timedwait, Hc.
Qed.

Lemma timedwait_timeout_or_decrement_witness :
  step (5%nat, Run Elapsed) (exec sample_parked (vlc_sem_init 1)).1 =
    ({| value := 0;
        threads :=
          <[5%nat := Idle]>
            (threads (exec sample_parked (vlc_sem_init 1)).1) |},
     [(5%nat, Ret TimedWait ETIMEDOUT)]).
Proof.
  destruct (timedwait_timeout_or_decrement 1 sample_parked 5%nat)
    as (_ & H & _).
  apply H. vm_compute. reflexivity.
Defined.

End SemTheory.

Module RWLockTheory.
Import RWLock.

Lemma long_bounds : WRITER_BIT < 0 ∧ 0 < READER_MASK.
Proof. unfold WRITER_BIT, READER_MASK, LONG_MIN, LONG_MAX. lia. Qed.

(** The three ways [vlc_rwlock_rdlock] can go. *)
Lemma rdlock_cases w lk p :
  vlc_rwlock_rdlock w lk = Ok p →
  (state lk = WRITER_BIT ∧
   ∃ c, Cond.vlc_cond_wait_prepare w lock_mutex (wait lk) = Ok c ∧
        p = Parked {| state := state lk; wait := c |}) ∨
  (0 ≤ state lk < READER_MASK ∧
   p = Acquired {| state := state lk + 1; wait := wait lk |}).
Proof.
  unfold vlc_rwlock_rdlock. intros H.
  destruct (Z.ltb_spec (state lk) 0) as [Hneg|Hpos].
  - apply bind_Ok in H as ([] & Ha & H). apply assert_Ok in Ha.
    apply Z.eqb_eq in Ha.
    apply bind_Ok in H as (c & Hc & H). injection H as <-.
    left. split; [exact Ha|]. exists c. auto.
  - destruct (Z.geb_spec (state lk) READER_MASK) as [Hge|Hlt];
      [discriminate|].
    injection H as <-. right. split; [lia|reflexivity].
Qed.

Lemma wrlock_cases w lk p :
  vlc_rwlock_wrlock w lk = Ok p →
  (state lk ≠ 0 ∧
   ∃ c, Cond.vlc_cond_wait_prepare w lock_mutex (wait lk) = Ok c ∧
        p = Parked {| state := state lk; wait := c |}) ∨
  (state lk = 0 ∧ p = Acquired {| state := WRITER_BIT; wait := wait lk |}).
Proof.
  unfold vlc_rwlock_wrlock. intros H.
  destruct (Z.eqb_spec (state lk) 0) as [Hz|Hnz]; simpl in H.
  - injection H as <-. right. auto.
  - apply bind_Ok in H as (c & Hc & H). injection H as <-.
    left. split; [exact Hnz|]. exists c. auto.
Qed.

Lemma unlock_cases lk lk' :
  vlc_rwlock_unlock lk = Ok lk' →
  (state lk = WRITER_BIT ∧ state lk' = 0) ∨
  (0 < state lk ∧ state lk' = state lk - 1).
Proof.
  unfold vlc_rwlock_unlock. intros H.
  destruct (Z.ltb_spec (state lk) 0) as [Hneg|Hpos].
  - apply bind_Ok in H as ([] & Ha & H). apply assert_Ok in Ha.
    apply Z.eqb_eq in Ha.
    apply bind_Ok in H as (c & Hc & H). injection H as <-. left. auto.
  - apply bind_Ok in H as ([] & Ha & H). apply assert_Ok in Ha.
    apply Z.ltb_lt in Ha. right. split; [exact Ha|].
    destruct (state lk - 1 =? 0).
    + apply bind_Ok in H as (c & Hc & H). injection H as <-. reflexivity.
    + injection H as <-. reflexivity.
Qed.

(** A locking call that does not abort keeps the encoding, whether it
    acquires the lock or parks. *)
Lemma settle_rdlock_encoded w w' lk s p :
  encoded s → state lk = state (lock s) →
  vlc_rwlock_rdlock w lk = Ok p → encoded (settle false w' s p).
Proof.
  pose proof long_bounds as [Hw Hr].
  intros Henc Hst H. unfold encoded in *.
  apply rdlock_cases in H as [(Hwb & c & _ & ->)|(Hrange & ->)]; simpl.
  - rewrite Hst. exact Henc.
  - rewrite Hst in Hrange. rewrite Hst.
    destruct Henc as [(H0 & H1 & H2)|(H0 & H1 & H2)]; [|lia].
    left. split_and!; [exact H0|lia|lia].
Qed.

Lemma settle_wrlock_encoded w w' lk s p :
  encoded s → state lk = state (lock s) →
  vlc_rwlock_wrlock w lk = Ok p → encoded (settle true w' s p).
Proof.
  pose proof long_bounds as [Hw Hr].
  intros Henc Hst H. unfold encoded in *.
  apply wrlock_cases in H as [(Hnz & c & _ & ->)|(Hz & ->)]; simpl.
  - rewrite Hst. exact Henc.
  - rewrite Hst in Hz.
    destruct Henc as [(H0 & H1 & H2)|(H0 & H1 & H2)]; [|lia].
    right. split_and!; [lia|lia|reflexivity].
Qed.

(** Every call keeps the encoding. *)
Lemma run_call_encoded c s s' :
  encoded s → permitted c s → run_call c s = Ok s' → encoded s'.
Proof.
  pose proof long_bounds as [Hw Hr].
  intros Henc Hperm Hrun. destruct c as [w|w|w| |]; simpl in *.
  - apply bind_Ok in Hrun as (p & Hp & Hrun). injection Hrun as <-.
    eapply settle_rdlock_encoded; [exact Henc|reflexivity|exact Hp].
  - apply bind_Ok in Hrun as (p & Hp & Hrun). injection Hrun as <-.
    eapply settle_wrlock_encoded; [exact Henc|reflexivity|exact Hp].
  - destruct (sleepers s !! w) as [write|]; [|discriminate].
    apply bind_Ok in Hrun as (p & Hp & Hrun). injection Hrun as <-.
    unfold resume in Hp. apply bind_Ok in Hp as (c & _ & Hp).
    destruct write.
    + eapply settle_wrlock_encoded; [exact Henc| |exact Hp]. reflexivity.
    + eapply settle_rdlock_encoded; [exact Henc| |exact Hp]. reflexivity.
  - apply bind_Ok in Hrun as (l & Hl & Hrun). injection Hrun as <-.
    unfold encoded in *. simpl.
    apply unlock_cases in Hl as [[H1 H2]|[H1 H2]];
      destruct Henc as [(H0 & H3 & H4)|(H0 & H3 & H4)]; lia.
  - apply bind_Ok in Hrun as (l & Hl & Hrun). injection Hrun as <-.
    unfold encoded in *. simpl.
    apply unlock_cases in Hl as [[H1 H2]|[H1 H2]];
      destruct Henc as [(H0 & H3 & H4)|(H0 & H3 & H4)]; lia.
Qed.

Lemma boot_encoded : encoded boot.
Proof.
  left. simpl. pose proof long_bounds. split_and!; [reflexivity|lia|lia].
Qed.

Lemma runs_encoded s cs s' : runs s cs s' → encoded s → encoded s'.
Proof.
  induction 1 as [|s c s1 cs s' Hperm Hrun _ IH]; intros Henc;
    [exact Henc|].
  apply IH. eapply run_call_encoded; eassumption.
Qed.

Lemma reachable_encoded s : reachable s → encoded s.
Proof. intros [cs Hr]. eapply runs_encoded; [exact Hr|apply boot_encoded]. Qed.

(** *** Every permitted call runs to its end *)

Lemma prepare_progress w lk :
  Cond.wf (wait lk) → Cond.stack (wait lk) !! w = None →
  ∃ c, Cond.vlc_cond_wait_prepare w lock_mutex (wait lk) = Ok c ∧
       Cond.wf c ∧
       dom (Cond.stack c) = {[w]} ∪ dom (Cond.stack (wait lk)).
Proof.
  intros [l Hwf] Hfresh.
  destruct (CondTheory.run_op_wf (Cond.Wait w lock_mutex) (wait lk) l Hwf
              Hfresh) as (c & l' & Hrun & Hwf' & _).
  simpl in Hrun. exists c. split_and!; [exact Hrun|by exists l'|].
  apply CondTheory.wait_prepare_live in Hrun. exact Hrun.
Qed.

Lemma settle_parked_ok (write : bool) (w : Cond.addr) (s : system)
  (p : progress) (base : Cond.world) :
  Cond.stack base !! w = None →
  dom (sleepers s) ∖ {[w]} = dom (Cond.stack base) →
  match p with
  | Acquired l => wait l = base ∧ Cond.wf base
  | Parked l =>
      Cond.wf (wait l) ∧
      dom (Cond.stack (wait l)) = {[w]} ∪ dom (Cond.stack base)
  end →
  parked_ok (settle write w s p).
Proof.
  intros Hfresh Hdom Hp. apply not_elem_of_dom in Hfresh.
  destruct p as [l|l]; unfold parked_ok; simpl.
  - destruct Hp as [Hb Hwf]. rewrite Hb. split; [exact Hwf|].
    rewrite dom_delete_L. exact Hdom.
  - destruct Hp as [Hwf Hd]. split; [exact Hwf|].
    rewrite dom_insert_L, Hd, <- Hdom.
    apply set_eq. intros x.
    rewrite !elem_of_union, elem_of_difference, elem_of_singleton.
    destruct (decide (x = w)); tauto.
Qed.

(** A thread at the test of [vlc_rwlock_rdlock] or [vlc_rwlock_wrlock],
    its waiter object out of scope. *)
Lemma locking_progress (write : bool) (w : Cond.addr) (s : system)
  (lk : vlc_rwlock_t) :
  encoded s → state lk = state (lock s) →
  Cond.wf (wait lk) → Cond.stack (wait lk) !! w = None →
  dom (sleepers s) ∖ {[w]} = dom (Cond.stack (wait lk)) →
  (∃ p, (if write then vlc_rwlock_wrlock w lk
         else vlc_rwlock_rdlock w lk) = Ok p ∧
        encoded (settle write w s p) ∧
        parked_ok (settle write w s p)) ∨
  (write = false ∧ vlc_rwlock_rdlock w lk = Aborted ∧
   state lk = READER_MASK).
Proof.
  pose proof long_bounds as [Hw Hm].
  intros Henc Hst Hwf Hfresh Hdom.
  destruct (prepare_progress w lk Hwf Hfresh) as (c & Hc & Hwfc & Hdc).
  destruct write.
  - left. destruct (Z.eqb_spec (state lk) 0) as [Hz|Hnz].
    + exists (Acquired {| state := WRITER_BIT; wait := wait lk |}).
      assert (Hrun : vlc_rwlock_wrlock w lk =
                Ok (Acquired {| state := WRITER_BIT; wait := wait lk |})).
      { unfold vlc_rwlock_wrlock. rewrite Hz. reflexivity. }
      split_and!; [exact Hrun| |].
      * eapply settle_wrlock_encoded; eassumption.
      * eapply settle_parked_ok; [exact Hfresh|exact Hdom|]. simpl. auto.
    + exists (Parked {| state := state lk; wait := c |}).
      assert (Hrun : vlc_rwlock_wrlock w lk =
                Ok (Parked {| state := state lk; wait := c |})).
      { unfold vlc_rwlock_wrlock.
        destruct (Z.eqb_spec (state lk) 0); [lia|]. simpl.
        rewrite Hc. reflexivity. }
      split_and!; [exact Hrun| |].
      * eapply settle_wrlock_encoded; eassumption.
      * eapply settle_parked_ok; [exact Hfresh|exact Hdom|]. simpl. auto.
  - unfold vlc_rwlock_rdlock.
    destruct (Z.ltb_spec (state lk) 0) as [Hneg|Hpos].
    + left. assert (Hwb : state lk = WRITER_BIT).
      { unfold encoded in Henc. lia. }
      replace (state lk =? WRITER_BIT) with true
        by (symmetry; apply Z.eqb_eq, Hwb).
      simpl. rewrite Hc. simpl.
      eexists. split; [reflexivity|]. split.
      * unfold encoded in *. simpl. rewrite Hst. exact Henc.
      * eapply settle_parked_ok; [exact Hfresh|exact Hdom|]. simpl. auto.
    + destruct (Z.geb_spec (state lk) READER_MASK) as [Hge|Hlt].
      * right. split_and!; [reflexivity|reflexivity|].
        unfold encoded in Henc. lia.
      * left. eexists. split; [reflexivity|]. split.
        -- unfold encoded in *. simpl. lia.
        -- eapply settle_parked_ok; [exact Hfresh|exact Hdom|]. simpl. auto.
Qed.

(** From a state with a sound encoding and parked threads in order, every
    permitted call runs to its end and leads to such a state; the one
    exception is a call that takes the lock for reading when the state word
    is [READER_MASK], which aborts. *)
Lemma run_call_progress c s :
  encoded s → parked_ok s → permitted c s →
  (∃ s', run_call c s = Ok s' ∧ encoded s' ∧ parked_ok s') ∨
  (run_call c s = Aborted ∧ state (lock s) = READER_MASK ∧
   read_locking c s).
Proof.
  pose proof long_bounds as [Hw Hm].
  intros Henc [Hwf Hdom] Hperm.
  assert (Hfresh_dom : ∀ w, Cond.stack (wait (lock s)) !! w = None →
            dom (sleepers s) ∖ {[w]} = dom (Cond.stack (wait (lock s)))).
  { intros w Hf. apply not_elem_of_dom in Hf. rewrite Hdom.
    apply set_eq. intros x. rewrite elem_of_difference, elem_of_singleton.
    split; [tauto|]. intros Hx. split; [exact Hx|]. intros ->.
    contradiction. }
  destruct c as [w|w|w| |]; simpl in *.
  - destruct (locking_progress false w s (lock s) Henc eq_refl Hwf Hperm
                (Hfresh_dom w Hperm))
      as [(p & Hp & He & Hpk)|(_ & Hab & Hst)].
    + left. rewrite Hp. simpl. eauto.
    + right. rewrite Hab. auto.
  - destruct (locking_progress true w s (lock s) Henc eq_refl Hwf Hperm
                (Hfresh_dom w Hperm))
      as [(p & Hp & He & Hpk)|(Hf & _)]; [|discriminate].
    left. rewrite Hp. simpl. eauto.
  - destruct Hperm as [write Hsl]. rewrite Hsl.
    assert (Hlive : is_Some (Cond.stack (wait (lock s)) !! w)).
    { apply elem_of_dom. rewrite <- Hdom. apply elem_of_dom. eauto. }
    destruct Hwf as [l Hwf].
    destruct (CondTheory.run_op_wf (Cond.Return w) (wait (lock s)) l Hwf
                Hlive) as (c1 & l1 & Hret & Hwf1 & _).
    simpl in Hret.
    pose proof (CondTheory.wait_return_live _ _ _ Hret) as Hd1.
    assert (Hfresh1 : Cond.stack c1 !! w = None).
    { apply not_elem_of_dom. rewrite Hd1.
      rewrite elem_of_difference, elem_of_singleton. tauto. }
    destruct (locking_progress write w s
                {| state := state (lock s); wait := c1 |} Henc eq_refl
                (ex_intro _ l1 Hwf1) Hfresh1)
      as [(p & Hp & He & Hpk)|(-> & Hab & Hst)].
    { simpl. rewrite Hd1, Hdom. reflexivity. }
    + left. unfold resume. rewrite Hret. simpl.
      replace (if write
               then vlc_rwlock_wrlock w
                      {| state := state (lock s); wait := c1 |}
               else vlc_rwlock_rdlock w
                      {| state := state (lock s); wait := c1 |})
        with (Ok p : outcome progress) by (destruct write; auto).
      simpl. eauto.
    + right. unfold resume. rewrite Hret. simpl. rewrite Hab. auto.
  - left. destruct Hwf as [l Hwf].
    assert (Hwb : state (lock s) = WRITER_BIT)
      by (unfold encoded in Henc; lia).
    destruct (CondTheory.run_op_wf Cond.Broadcast (wait (lock s)) l Hwf I)
      as (c & l' & Hb & Hwf' & _).
    simpl in Hb. unfold vlc_rwlock_unlock.
    destruct (Z.ltb_spec (state (lock s)) 0); [|lia].
    replace (state (lock s) =? WRITER_BIT) with true
      by (symmetry; apply Z.eqb_eq, Hwb).
    simpl. rewrite Hb. simpl.
    eexists. split; [reflexivity|]. split.
    + unfold encoded in *. simpl. lia.
    + split; simpl; [by exists l'|].
      rewrite (CondTheory.broadcast_live _ _ Hb). exact Hdom.
  - left. destruct Hwf as [l Hwf].
    assert (Hpos : 0 < state (lock s)) by (unfold encoded in Henc; lia).
    destruct (CondTheory.run_op_wf Cond.Signal (wait (lock s)) l Hwf I)
      as (c & l' & Hs & Hwf' & _).
    simpl in Hs. unfold vlc_rwlock_unlock.
    destruct (Z.ltb_spec (state (lock s)) 0); [lia|].
    destruct (Z.ltb_spec 0 (state (lock s))); [|lia]. simpl.
    destruct (Z.eqb_spec (state (lock s) - 1) 0) as [Hz|Hnz].
    + rewrite Hs. simpl. eexists. split; [reflexivity|]. split.
      * unfold encoded in *. simpl. lia.
      * split; simpl; [by exists l'|].
        rewrite (CondTheory.signal_live _ _ Hs). exact Hdom.
    + eexists. split; [reflexivity|]. split.
      * unfold encoded in *. simpl. lia.
      * split; simpl; [by exists l|exact Hdom].
Qed.

Lemma boot_parked_ok : parked_ok boot.
Proof.
  split.
  - exists []. apply CondTheory.init_wf.
  - simpl. rewrite !dom_empty_L. reflexivity.
Qed.

Lemma runs_parked_ok s cs s' :
  runs s cs s' → encoded s → parked_ok s → parked_ok s'.
Proof.
  induction 1 as [|s c s1 cs s' Hperm Hrun _ IH]; intros Henc Hpk;
    [exact Hpk|].
  destruct (run_call_progress c s Henc Hpk Hperm)
    as [(s2 & Hrun' & He & Hp)|(Hab & _)]; [|congruence].
  rewrite Hrun in Hrun'. injection Hrun' as <-. apply IH; assumption.
Qed.

(** No call on a lock that calls have led to goes through a dangling
    pointer or fails an assertion: it runs to its end, or it is a read
    lock at [READER_MASK] and aborts. *)
Lemma rwlock_calls_progress s c :
  reachable s → permitted c s →
  (∃ s', run_call c s = Ok s' ∧ reachable s') ∨
  (run_call c s = Aborted ∧ state (lock s) = READER_MASK ∧
   read_locking c s).
Proof.
  intros Hr Hperm. pose proof (reachable_encoded s Hr) as Henc.
  destruct Hr as [cs Hruns].
  pose proof (runs_parked_ok _ _ _ Hruns boot_encoded boot_parked_ok)
    as Hpk.
  destruct (run_call_progress c s Henc Hpk Hperm)
    as [(s' & Hrun & _ & _)|Hab]; [left|right; exact Hab].
  exists s'. split; [exact Hrun|]. exists (cs ++ [c]).
  clear Henc Hpk. induction Hruns as [|s0 c0 s1 cs s2 Hp0 Hr0 _ IH].
  - simpl. econstructor; [exact Hperm|exact Hrun|constructor].
  - simpl. econstructor; [exact Hp0|exact Hr0|]. apply IH; assumption.
Qed.

(** Builds a run from the calls evaluated one by one. *)
Ltac run_calls_tac :=
  repeat (eapply runs_cons;
          [first [exact I
                 |vm_compute; reflexivity
                 |vm_compute; lia
                 |eexists; vm_compute; reflexivity]
          |vm_compute; reflexivity|]);
  match goal with
  | |- runs ?a [] ?b =>
      replace b with a by (vm_compute; reflexivity); apply runs_nil
  end.

Lemma write_held_reachable : reachable write_held.
Proof. exists [WrLock 0; RdLock 1; WrLock 2]%nat. run_calls_tac. Defined.

Lemma wait_of_write_held :
  Cond.wf_with (wait (lock write_held)) [2; 1]%nat.
Proof.
  destruct (CondTheory.waits_wf [1; 2]%nat lock_mutex Cond.vlc_cond_init []
              CondTheory.init_wf) as (σ & Hw & Hwf).
  - by apply (bool_decide_unpack _).
  - intros t _. apply lookup_empty.
  - assert (H : Ok σ = Ok (wait (lock write_held)))
      by (rewrite <- Hw; vm_compute; reflexivity).
    assert (E : wait (lock write_held) = σ) by congruence.
    rewrite E. exact Hwf.
Defined.

Lemma wait_of_read_held :
  Cond.wf_with (wait (lock read_held_once)) [2]%nat ∧
  Cond.wf_with (wait (lock read_held_twice)) [2]%nat.
Proof.
  destruct (CondTheory.waits_wf [2]%nat lock_mutex Cond.vlc_cond_init []
              CondTheory.init_wf) as (σ & Hw & Hwf).
  - by apply (bool_decide_unpack _).
  - intros t _. apply lookup_empty.
  - assert (H1 : Ok σ = Ok (wait (lock read_held_once)))
      by (rewrite <- Hw; vm_compute; reflexivity).
    assert (H2 : Ok σ = Ok (wait (lock read_held_twice)))
      by (rewrite <- Hw; vm_compute; reflexivity).
    assert (E1 : wait (lock read_held_once) = σ) by congruence.
    assert (E2 : wait (lock read_held_twice) = σ) by congruence.
    rewrite E1, E2. split; exact Hwf.
Defined.

(** ** The claims on read/write locks *)

(** C3. In every state that calls of [vlc_rwlock_rdlock],
    [vlc_rwlock_wrlock] and [vlc_rwlock_unlock] lead to from a fresh lock
    (each unlock made by a thread that holds the lock): the state word is
    negative exactly when one writer holds the lock, and it is then
    [WRITER_BIT] and no reader holds the lock; it is positive exactly when
    readers and no writer hold the lock; when it is not negative it is the
    number of times the lock is held for reading; it is zero exactly when
    nobody holds the lock; there is never more than one writer; and every
    further call leads to a state with the same encoding. *)
Theorem state_word_encoding (s : system) :
  reachable s →
  (state (lock s) < 0 ↔ writers s = 1%nat) ∧
  (state (lock s) < 0 →
   state (lock s) = WRITER_BIT ∧ readers s = 0%nat) ∧
  (0 < state (lock s) ↔ writers s = 0%nat ∧ (0 < readers s)%nat) ∧
  (0 ≤ state (lock s) →
   state (lock s) = Z.of_nat (readers s) ∧ writers s = 0%nat) ∧
  (state (lock s) = 0 ↔ writers s = 0%nat ∧ readers s = 0%nat) ∧
  (writers s ≤ 1)%nat ∧
  (∀ c s', permitted c s → run_call c s = Ok s' → encoded s').
Proof.
  intros Hr. pose proof (reachable_encoded s Hr) as Henc.
  pose proof long_bounds as [Hw Hm].
  split_and!; try (unfold encoded in Henc; lia).
  intros c s' Hp Hrun. eapply run_call_encoded; eassumption.
Qed.

Lemma state_word_encoding_witness :
  state (lock write_held) = WRITER_BIT ∧ readers write_held = 0%nat.
Proof.
  destruct (state_word_encoding write_held write_held_reachable)
    as (_ & H & _).
  apply H. vm_compute. reflexivity.
Defined.

(** C6. [vlc_rwlock_unlock] on a lock whose condition variable is in a
    well-formed state with the waiters [l] queued.
    - Held for writing: the state becomes 0 and [vlc_cond_broadcast] is
      run, which empties the queue and wakes every waiter of [l].
    - Held for reading once: the state becomes 0 and [vlc_cond_signal] is
      run, which wakes the waiter at the head of the queue if there is one,
      and only that one.
    - Held for reading more than once: the state loses 1 and the condition
      variable is not touched. *)
Theorem unlock_wakes (lk : vlc_rwlock_t) (l : list Cond.addr) :
  Cond.wf_with (wait lk) l →
  (state lk = WRITER_BIT →
   ∃ c, Cond.vlc_cond_broadcast (wait lk) = Ok c ∧
        vlc_rwlock_unlock lk = Ok {| state := 0; wait := c |} ∧
        Cond.queue c [] ∧
        Cond.notified c = Cond.notified (wait lk) ++ l ∧
        ∀ w, w ∈ l → Cond.woken w c = true) ∧
  (state lk = 1 →
   ∃ c, Cond.vlc_cond_signal (wait lk) = Ok c ∧
        vlc_rwlock_unlock lk = Ok {| state := 0; wait := c |} ∧
        Cond.queue c (drop 1 l) ∧
        Cond.notified c = Cond.notified (wait lk) ++ take 1 l) ∧
  (1 < state lk →
   vlc_rwlock_unlock lk = Ok {| state := state lk - 1; wait := wait lk |}).
Proof.
  intros Hwf. pose proof long_bounds as [Hw Hm]. split_and!.
  - intros Hst.
    destruct (CondTheory.broadcast_wakes_all (wait lk) l Hwf)
      as (c & Hrun & _ & Hq & Hn & Hwk & _).
    exists c. split_and!; try assumption.
    + unfold vlc_rwlock_unlock. rewrite Hst.
      destruct (Z.ltb_spec WRITER_BIT 0); [|lia].
      rewrite Z.eqb_refl. simpl. rewrite Hrun. reflexivity.
    + intros w Hin. apply (Hwk w Hin).
  - intros Hst.
    assert (Hunlock : ∀ c, Cond.vlc_cond_signal (wait lk) = Ok c →
              vlc_rwlock_unlock lk = Ok {| state := 0; wait := c |}).
    { intros c Hc. unfold vlc_rwlock_unlock. rewrite Hst. simpl.
      rewrite Hc. reflexivity. }
    destruct Hwf as (Hq & _). destruct l as [|w l].
    + exists (wait lk). rewrite (CondTheory.signal_empty _ Hq).
      split_and!; [reflexivity|auto using CondTheory.signal_empty|
                   exact Hq|by rewrite app_nil_r].
    + destruct (CondTheory.signal_queue (wait lk) w l Hq)
        as (c & Hrun & Hq' & Hn & _).
      exists c. split_and!; [exact Hrun|auto|exact Hq'|exact Hn].
  - intros Hst. unfold vlc_rwlock_unlock.
    destruct (Z.ltb_spec (state lk) 0); [lia|].
    destruct (Z.ltb_spec 0 (state lk)); [|lia]. simpl.
    destruct (Z.eqb_spec (state lk - 1) 0); [lia|]. reflexivity.
Qed.

Lemma unlock_wakes_witness :
  (∃ c, Cond.vlc_cond_broadcast (wait (lock write_held)) = Ok c ∧
        vlc_rwlock_unlock (lock write_held) = Ok {| state := 0; wait := c |} ∧
        Cond.queue c [] ∧
        Cond.notified c =
          Cond.notified (wait (lock write_held)) ++ [2; 1]%nat ∧
        ∀ w, w ∈ [2; 1]%nat → Cond.woken w c = true) ∧
  (∃ c, Cond.vlc_cond_signal (wait (lock read_held_once)) = Ok c ∧
        vlc_rwlock_unlock (lock read_held_once) =
          Ok {| state := 0; wait := c |} ∧
        Cond.queue c [] ∧
        Cond.notified c =
          Cond.notified (wait (lock read_held_once)) ++ [2]%nat) ∧
  vlc_rwlock_unlock (lock read_held_twice) =
    Ok {| state := 1; wait := wait (lock read_held_twice) |}.
Proof.
  split_and!.
  - destruct (unlock_wakes (lock write_held) [2; 1]%nat wait_of_write_held)
      as (H & _ & _).
    apply H. vm_compute. reflexivity.
  - destruct (unlock_wakes (lock read_held_once) [2]%nat
                (proj1 wait_of_read_held)) as (_ & H & _).
    apply H. vm_compute. reflexivity.
  - destruct (unlock_wakes (lock read_held_twice) [2]%nat
                (proj2 wait_of_read_held)) as (_ & _ & H).
    apply (H ltac:(vm_compute; reflexivity)).
Defined.

(** C8. [vlc_rwlock_rdlock] on a lock that is not held for writing, the
    state word being within the range of a [long]: it aborts exactly when
    the state is [READER_MASK]; below [READER_MASK] it acquires the lock at
    once, without parking and without touching the condition variable, and
    adds exactly 1 to the state, whether or not the lock is already held
    for reading. *)
Theorem rdlock_overflow_or_increment (w : Cond.addr) (lk : vlc_rwlock_t) :
  0 ≤ state lk ≤ LONG_MAX →
  (vlc_rwlock_rdlock w lk = Aborted ↔ state lk = READER_MASK) ∧
  (state lk < READER_MASK →
   vlc_rwlock_rdlock w lk =
     Ok (Acquired {| state := state lk + 1; wait := wait lk |})).
Proof.
  intros Hrange. unfold vlc_rwlock_rdlock, READER_MASK.
  destruct (Z.ltb_spec (state lk) 0); [lia|].
  destruct (Z.geb_spec (state lk) LONG_MAX); split.
  - split; [lia|reflexivity].
  - lia.
  - split; [discriminate|lia].
  - reflexivity.
Qed.

(** A thread that holds the lock for reading takes it once more: the call
    acquires at once and both the state word and the number of read holds
    go up by one. *)
Lemma recursive_read_lock (s : system) (w : Cond.addr) :
  reachable s → (0 < readers s)%nat → state (lock s) < READER_MASK →
  ∃ s', run_call (RdLock w) s = Ok s' ∧
        readers s' = S (readers s) ∧
        state (lock s') = Z.of_nat (readers s') ∧
        wait (lock s') = wait (lock s).
Proof.
  intros Hr Hpos Hlt. pose proof (reachable_encoded s Hr) as Henc.
  pose proof long_bounds as [Hw Hm].
  assert (Hst : state (lock s) = Z.of_nat (readers s))
    by (unfold encoded in Henc; lia).
  simpl. unfold vlc_rwlock_rdlock.
  destruct (Z.ltb_spec (state (lock s)) 0); [lia|].
  destruct (Z.geb_spec (state (lock s)) READER_MASK); [lia|]. simpl.
  eexists. split; [reflexivity|]. simpl. split_and!; [reflexivity|lia|
                                                       reflexivity].
Qed.

Lemma rdlock_overflow_or_increment_witness :
  vlc_rwlock_rdlock 3%nat (lock read_held_twice) =
    Ok (Acquired {| state := 3; wait := wait (lock read_held_twice) |}) ∧
  vlc_rwlock_rdlock 3%nat {| state := READER_MASK;
                             wait := Cond.vlc_cond_init |} = Aborted.
Proof.
  split.
  - destruct (rdlock_overflow_or_increment 3%nat (lock read_held_twice))
      as (_ & H).
    + vm_compute. split; discriminate.
    + apply (H ltac:(vm_compute; reflexivity)).
  - destruct (rdlock_overflow_or_increment 3%nat
                {| state := READER_MASK; wait := Cond.vlc_cond_init |})
      as (H & _).
    + vm_compute. split; discriminate.
    + apply H. reflexivity.
Defined.

End RWLockTheory.

Module MarksTheory.
Import Marks.

Lemma to_uintptr_id z : 0 ≤ z ≤ UINTPTR_MAX → to_uintptr z = z.
Proof.
  intros H. unfold to_uintptr. apply Z.mod_small.
  unfold UINTPTR_MAX in *. lia.
Qed.

(** Two marks compare equal exactly when they mark the same object, and
    the comparison is antisymmetric: the tree is keyed by [object]. *)
Lemma vlc_lock_mark_cmp_spec ma mb :
  (vlc_lock_mark_cmp ma mb = 0 ↔ object ma = object mb) ∧
  vlc_lock_mark_cmp ma mb = - vlc_lock_mark_cmp mb ma.
Proof.
  unfold vlc_lock_mark_cmp.
  destruct (Z.eqb_spec (object ma) (object mb)) as [He|Hne];
    destruct (Z.eqb_spec (object mb) (object ma)) as [He'|Hne'];
    try congruence; [split; [tauto|reflexivity]|].
  destruct (Z.gtb_spec (object ma) (object mb));
    destruct (Z.gtb_spec (object mb) (object ma));
    split; try lia; split; (discriminate || lia).
Qed.

Lemma mark_absent lock (root : gmap Z Z) :
  root !! lock = None →
  vlc_lock_mark true lock root = Ok (<[lock := 1]> root).
Proof.
  intros H. unfold vlc_lock_mark, tsearch. simpl. rewrite H.
  rewrite insert_insert_eq. reflexivity.
Qed.

Lemma mark_present lock (root : gmap Z Z) r :
  root !! lock = Some r → 0 ≤ r < UINTPTR_MAX →
  vlc_lock_mark true lock root = Ok (<[lock := r + 1]> root).
Proof.
  intros H Hr. unfold vlc_lock_mark, tsearch. simpl. rewrite H.
  rewrite to_uintptr_id by lia. reflexivity.
Qed.

Lemma unmark_last lock (root : gmap Z Z) :
  root !! lock = Some 1 →
  vlc_lock_unmark lock root = Ok (delete lock root).
Proof.
  intros H. unfold vlc_lock_unmark, tfind, tdelete. rewrite H. reflexivity.
Qed.

Lemma unmark_more lock (root : gmap Z Z) r :
  root !! lock = Some r → 1 < r ≤ UINTPTR_MAX →
  vlc_lock_unmark lock root = Ok (<[lock := r - 1]> root).
Proof.
  intros H Hr. unfold vlc_lock_unmark, tfind. rewrite H.
  destruct (Z.ltb_spec 0 r); [|lia]. simpl.
  rewrite to_uintptr_id by lia.
  destruct (Z.eqb_spec (r - 1) 0); [lia|]. reflexivity.
Qed.

Lemma marked_lookup lock (root : gmap Z Z) :
  vlc_lock_marked lock root = bool_decide (is_Some (root !! lock)).
Proof. reflexivity. Qed.

(** ** The claim on lock marks *)

(** C9. For a lock that thread-local tree [root] does not hold: after a
    first [vlc_lock_mark] the lock is in the tree with 1 reference and
    [vlc_lock_marked] answers true; after a second one it has 2 references;
    after a first [vlc_lock_unmark] it has 1 reference and
    [vlc_lock_marked] still answers true; after the second one the entry is
    gone, the tree is [root] again and [vlc_lock_marked] answers false.
    For a lock the tree already holds, the same four calls take its
    references up by two and down again to what they were.
    In general [vlc_lock_mark] adds 1 to the references of an entry that is
    in the tree (short of the largest [uintptr_t]) and inserts the entry
    with 1 reference when it is not; [vlc_lock_unmark] takes 1 off the
    references of an entry that has more than one, and removes the entry
    exactly when it had one. *)
Theorem lock_mark_refcount (lock : Z) (root : gmap Z Z) :
  (root !! lock = None →
   vlc_lock_mark true lock root = Ok (<[lock := 1]> root) ∧
   vlc_lock_marked lock (<[lock := 1]> root) = true ∧
   vlc_lock_mark true lock (<[lock := 1]> root) = Ok (<[lock := 2]> root) ∧
   vlc_lock_marked lock (<[lock := 2]> root) = true ∧
   vlc_lock_unmark lock (<[lock := 2]> root) = Ok (<[lock := 1]> root) ∧
   vlc_lock_unmark lock (<[lock := 1]> root) = Ok root ∧
   vlc_lock_marked lock root = false) ∧
  (∀ r, root !! lock = Some r → 0 < r ≤ UINTPTR_MAX - 2 →
        vlc_lock_mark true lock (<[lock := r + 1]> root) =
          Ok (<[lock := r + 2]> root) ∧
        vlc_lock_unmark lock (<[lock := r + 2]> root) =
          Ok (<[lock := r + 1]> root) ∧
        vlc_lock_unmark lock (<[lock := r + 1]> root) = Ok root ∧
        vlc_lock_marked lock root = true) ∧
  (∀ r, root !! lock = Some r → 0 < r < UINTPTR_MAX →
        vlc_lock_mark true lock root = Ok (<[lock := r + 1]> root)) ∧
  (∀ r, root !! lock = Some r → 1 < r ≤ UINTPTR_MAX →
        vlc_lock_unmark lock root = Ok (<[lock := r - 1]> root) ∧
        vlc_lock_marked lock (<[lock := r - 1]> root) = true) ∧
  (root !! lock = Some 1 →
   vlc_lock_unmark lock root = Ok (delete lock root) ∧
   vlc_lock_marked lock (delete lock root) = false).
Proof.
  assert (Hmax : 2 < UINTPTR_MAX) by (unfold UINTPTR_MAX; lia).
  split_and!.
  - intros Hnone. split_and!.
    + apply mark_absent, Hnone.
    + rewrite marked_lookup, lookup_insert_eq. reflexivity.
    + rewrite (mark_present lock _ 1) by (rewrite ?lookup_insert_eq; done || lia).
      rewrite insert_insert_eq. reflexivity.
    + rewrite marked_lookup, lookup_insert_eq. reflexivity.
    + rewrite (unmark_more lock _ 2) by (rewrite ?lookup_insert_eq; done || lia).
      rewrite insert_insert_eq. reflexivity.
    + rewrite unmark_last by apply lookup_insert_eq.
      rewrite delete_insert_eq. rewrite delete_id by exact Hnone.
      reflexivity.
    + rewrite marked_lookup, Hnone. reflexivity.
  - intros r Hr Hrange. split_and!.
    + rewrite (mark_present lock _ (r + 1))
        by (rewrite ?lookup_insert_eq; done || lia).
      rewrite insert_insert_eq. do 2 f_equal. lia.
    + rewrite (unmark_more lock _ (r + 2))
        by (rewrite ?lookup_insert_eq; done || lia).
      rewrite insert_insert_eq. do 2 f_equal. lia.
    + rewrite (unmark_more lock _ (r + 1))
        by (rewrite ?lookup_insert_eq; done || lia).
      rewrite insert_insert_eq.
      replace (r + 1 - 1) with r by lia.
      rewrite insert_id by exact Hr. reflexivity.
    + rewrite marked_lookup, Hr. reflexivity.
  - intros r Hr Hrange. apply mark_present; [exact Hr|lia].
  - intros r Hr Hrange. split.
    + apply unmark_more; assumption.
    + rewrite marked_lookup, lookup_insert_eq. reflexivity.
  - intros Hr. split.
    + apply unmark_last, Hr.
    + rewrite marked_lookup, lookup_delete_eq. reflexivity.
Qed.

Lemma lock_mark_refcount_witness :
  (vlc_lock_mark true 7 ∅ = Ok (<[7 := 1]> ∅) ∧
   vlc_lock_marked 7 (<[7 := 1]> ∅) = true ∧
   vlc_lock_mark true 7 (<[7 := 1]> ∅) = Ok (<[7 := 2]> ∅) ∧
   vlc_lock_marked 7 (<[7 := 2]> ∅) = true ∧
   vlc_lock_unmark 7 (<[7 := 2]> ∅) = Ok (<[7 := 1]> ∅) ∧
   vlc_lock_unmark 7 (<[7 := 1]> ∅) = Ok ∅ ∧
   vlc_lock_marked 7 ∅ = false) ∧
  vlc_lock_unmark 7 (<[7 := 5 + 1]> {[7 := 5]}) = Ok {[7 := 5]} ∧
  vlc_lock_mark true 7 {[7 := 5]} = Ok (<[7 := 5 + 1]> {[7 := 5]}) ∧
  vlc_lock_unmark 7 {[7 := 5]} = Ok (<[7 := 5 - 1]> {[7 := 5]}) ∧
  vlc_lock_unmark 7 {[7 := 1]} = Ok (delete 7 {[7 := 1]}).
Proof.
  split; [|split; [|split; [|split]]].
  - apply (lock_mark_refcount 7 ∅). reflexivity.
  - destruct (lock_mark_refcount 7 {[7 := 5]}) as (_ & H & _).
    apply (H 5); [reflexivity|unfold UINTPTR_MAX; lia].
  - destruct (lock_mark_refcount 7 {[7 := 5]}) as (_ & _ & H & _).
    apply H; [reflexivity|unfold UINTPTR_MAX; lia].
  - destruct (lock_mark_refcount 7 {[7 := 5]}) as (_ & _ & _ & H & _).
    apply H; [reflexivity|unfold UINTPTR_MAX; lia].
  - destruct (lock_mark_refcount 7 {[7 := 1]}) as (_ & _ & _ & _ & H).
    apply H. reflexivity.
Defined.

(** The trees are per thread: what a thread marks does not change what
    [vlc_mutex_marked] answers in another thread. *)
Lemma mutex_mark_thread_local room t t' mutex mutex' trees trees' :
  t ≠ t' → vlc_mutex_mark room t mutex trees = Ok trees' →
  vlc_mutex_marked t' mutex' trees' = vlc_mutex_marked t' mutex' trees.
Proof.
  intros Hne H. unfold vlc_mutex_mark in H.
  apply bind_Ok in H as (root & _ & H). injection H as <-.
  unfold vlc_mutex_marked, marks_of. rewrite lookup_insert_ne by exact Hne.
  reflexivity.
Qed.

End MarksTheory.

(** * Further properties of the condition variable *)

Module CondExtra.
Import Cond CondTheory.

Lemma queue_unique σ l l' : queue σ l → queue σ l' → l = l'.
Proof. intros H H'. eapply lseg_functional; eassumption. Qed.

Lemma wf_with_queue σ l l' : wf_with σ l' → queue σ l → wf_with σ l.
Proof.
  intros Hwf Hq. destruct Hwf as (Hq' & Hrest).
  rewrite (queue_unique σ l l' Hq Hq'). split; assumption.
Qed.

Lemma queue_head_None σ l : queue σ l → head σ = None → l = [].
Proof.
  intros Hq Hh. destruct l as [|w l]; [reflexivity|].
  destruct Hq as [Hq _]. congruence.
Qed.

Lemma run_op_functional o σ σ1 σ2 :
  run_op o σ = Ok σ1 → run_op o σ = Ok σ2 → σ1 = σ2.
Proof. congruence. Qed.

(** [vlc_cond_wait_prepare] on a well-formed state, with the queue it
    makes. *)
Lemma prepare_wf σ l w mtx :
  wf_with σ l → stack σ !! w = None →
  ∃ σ', vlc_cond_wait_prepare w mtx σ = Ok σ' ∧ wf_with σ' (w :: l) ∧
        notified σ' = notified σ ∧
        (∀ x, x ≠ w → x ∉ l → stack σ' !! x = stack σ !! x).
Proof.
  intros Hwf Hfresh.
  destruct (run_op_wf (Wait w mtx) σ l Hwf Hfresh)
    as (σ' & l' & Hrun & Hwf' & _).
  assert (Hwl : w ∉ l).
  { intros Hin. destruct Hwf as (Hq & _).
    destruct (lseg_live _ _ _ _ _ Hq Hin) as [r Hr]. congruence. }
  destruct (wait_prepare_queue σ l w mtx (proj1 Hwf) Hwl)
    as (σ'' & Hrun' & Hq' & Hn & _ & Hfr & _).
  simpl in Hrun. rewrite Hrun in Hrun'. injection Hrun' as <-.
  exists σ'. split_and!; try assumption.
  eapply wf_with_queue; eassumption.
Qed.

(** [vlc_cond_signal] on a well-formed state with a waiter queued. *)
Lemma signal_wf σ w l :
  wf_with σ (w :: l) →
  ∃ σ', vlc_cond_signal σ = Ok σ' ∧ wf_with σ' l ∧
        detached w σ' ∧ woken w σ' = true ∧
        notified σ' = notified σ ++ [w] ∧
        (∀ x, x ≠ w → x ∉ l → stack σ' !! x = stack σ !! x).
Proof.
  intros Hwf.
  destruct (run_op_wf Signal σ _ Hwf I) as (σ' & l' & Hrun & Hwf' & _).
  destruct (signal_queue σ w l (proj1 Hwf))
    as (σ'' & Hrun' & Hq' & Hn & Hd & Hv & Hfr & _).
  simpl in Hrun. rewrite Hrun in Hrun'. injection Hrun' as <-.
  exists σ'. split_and!; try assumption.
  - eapply wf_with_queue; eassumption.
  - destruct Hwf as (_ & Hz & _). rewrite (Hz w) in Hv by (by left).
    destruct Hd as (r & Hr & _). unfold woken, value_of in *.
    rewrite Hr in *. rewrite Hv. reflexivity.
Qed.

(** The return of a waiter that is not in the queue any more. *)
Lemma return_detached_wf σ l w :
  wf_with σ l → detached w σ →
  ∃ σ', vlc_cond_wait_return w σ = Ok σ' ∧ wf_with σ' l ∧
        head σ' = head σ ∧ notified σ' = notified σ ∧
        stack σ' = delete w (stack σ).
Proof.
  intros Hwf Hd.
  assert (Hlive : is_Some (stack σ !! w)).
  { destruct Hd as (r & Hr & _). eauto. }
  destruct (run_op_wf (Return w) σ l Hwf Hlive)
    as (σ' & l' & Hrun & Hwf' & _).
  simpl in Hrun. rewrite (wait_return_detached w σ Hd) in Hrun.
  injection Hrun as <-.
  eexists. split; [apply wait_return_detached, Hd|].
  split_and!; try reflexivity.
  eapply wf_with_queue; [exact Hwf'|].
  unfold queue. simpl. eapply lseg_frame; [|exact (proj1 Hwf)].
  intros x Hx. apply lookup_delete_ne. intros ->.
  exact (detached_not_queued x σ l (proj1 Hwf) Hd Hx).
Qed.

(** The return of a waiter that is still in the queue. *)
Lemma return_queued_wf σ l1 w l2 :
  wf_with σ (l1 ++ w :: l2) →
  ∃ σ', vlc_cond_wait_return w σ = Ok σ' ∧ wf_with σ' (l1 ++ l2) ∧
        notified σ' = notified σ ∧ stack σ' !! w = None ∧
        (∀ x, x ≠ w → value_of x σ' = value_of x σ).
Proof.
  intros Hwf. pose proof (proj1 Hwf) as Hq.
  pose proof (queue_NoDup _ _ Hq) as Hnd.
  assert (Hlive : is_Some (stack σ !! w)).
  { eapply lseg_live; [exact Hq|]. apply elem_of_app. right. by left. }
  destruct (run_op_wf (Return w) σ _ Hwf Hlive)
    as (σ' & l' & Hrun & Hwf' & _).
  destruct (wait_finish_queued σ l1 w l2 Hq)
    as (σ1 & Hfin & Hq1 & Hn & _ & Hv).
  assert (Hw12 : w ∉ l1 ++ l2).
  { apply NoDup_app in Hnd as (_ & Hdis & Hnd2).
    apply NoDup_cons in Hnd2 as [Hw2 _].
    intros Hin. apply elem_of_app in Hin as [Hin|Hin].
    - apply (Hdis w Hin). by left.
    - contradiction. }
  simpl in Hrun. unfold vlc_cond_wait_return in Hrun.
  rewrite Hfin in Hrun. simpl in Hrun. injection Hrun as <-.
  eexists. split.
  { unfold vlc_cond_wait_return. rewrite Hfin. reflexivity. }
  split_and!; simpl.
  - eapply wf_with_queue; [exact Hwf'|].
    unfold queue. simpl. eapply lseg_frame; [|exact Hq1].
    intros x Hx. apply lookup_delete_ne. intros ->. contradiction.
  - exact Hn.
  - apply lookup_delete_eq.
  - intros x Hx. unfold value_of at 1. simpl.
    rewrite lookup_delete_ne by congruence. apply Hv.
Qed.

Lemma woken_value w σ : value_of w σ = 1 → woken w σ = true.
Proof.
  unfold woken, value_of. destruct (stack σ !! w); [|discriminate].
  intros ->. reflexivity.
Qed.

Lemma queued_not_woken σ l w : wf_with σ l → w ∈ l → woken w σ = false.
Proof.
  intros (_ & Hz & _) Hw. specialize (Hz w Hw).
  unfold woken, value_of in *. destruct (stack σ !! w); [|reflexivity].
  rewrite Hz. reflexivity.
Qed.

Lemma init_settled : settled vlc_cond_init [].
Proof.
  split; [exact init_wf|]. intros x [r Hr]. simpl in Hr.
  rewrite lookup_empty in Hr. discriminate.
Qed.

Lemma prepare_settled σ l w mtx :
  settled σ l → stack σ !! w = None →
  ∃ σ', vlc_cond_wait_prepare w mtx σ = Ok σ' ∧ settled σ' (w :: l).
Proof.
  intros [Hwf Hout] Hfresh.
  destruct (prepare_wf σ l w mtx Hwf Hfresh) as (σ' & Hp & Hwf' & _ & Hfr).
  exists σ'. split; [exact Hp|]. split; [exact Hwf'|].
  intros x Hlive Hx. apply not_elem_of_cons in Hx as [Hxw Hxl].
  rewrite (value_of_frame x σ σ') by (apply Hfr; assumption).
  apply Hout; [|exact Hxl]. rewrite <- Hfr by assumption. exact Hlive.
Qed.

Lemma signal_settled σ w l :
  settled σ (w :: l) →
  ∃ σ', vlc_cond_signal σ = Ok σ' ∧ settled σ' l ∧
        detached w σ' ∧ value_of w σ' = 1 ∧
        dom (stack σ') = dom (stack σ).
Proof.
  intros [Hwf Hout].
  destruct (signal_wf σ w l Hwf) as (σ' & Hs & Hwf' & Hd & _ & _ & Hfr).
  destruct (signal_queue σ w l (proj1 Hwf))
    as (σ'' & Hs' & _ & _ & _ & Hv & _).
  rewrite Hs in Hs'. injection Hs' as <-.
  assert (Hw : value_of w σ' = 1).
  { rewrite Hv. destruct Hwf as (_ & Hz & _).
    rewrite (Hz w) by (by left). exact to_uint_1. }
  exists σ'. split_and!; try assumption.
  - split; [exact Hwf'|]. intros x Hlive Hxl.
    destruct (decide (x = w)) as [->|Hxw]; [exact Hw|].
    rewrite (value_of_frame x σ σ') by (apply Hfr; assumption).
    apply Hout.
    + rewrite <- Hfr by assumption. exact Hlive.
    + intros Hin. apply elem_of_cons in Hin as [?|?]; contradiction.
  - apply signal_live, Hs.
Qed.

Lemma broadcast_settled σ l :
  settled σ l →
  ∃ σ', vlc_cond_broadcast σ = Ok σ' ∧ settled σ' [] ∧
        dom (stack σ') = dom (stack σ).
Proof.
  intros [Hwf Hout].
  destruct (broadcast_wakes_all σ l Hwf)
    as (σ' & Hb & _ & Hq & _ & Hin & Hfr).
  destruct (broadcast_queue σ l (proj1 Hwf))
    as (σ'' & Hb' & _ & _ & Hv & _).
  rewrite Hb in Hb'. injection Hb' as <-.
  exists σ'. split_and!; [exact Hb| |apply broadcast_live, Hb].
  split; [split; [exact Hq|split]|].
  - intros x Hx. by apply not_elem_of_nil in Hx.
  - intros x Hlive _. destruct (decide (x ∈ l)) as [Hxl|Hxl].
    + apply Hin, Hxl.
    + eapply detached_frame; [apply Hfr, Hxl|].
      destruct Hwf as (_ & _ & Hd). apply Hd; [|exact Hxl].
      rewrite <- Hfr by exact Hxl. exact Hlive.
  - intros x Hlive _. destruct (decide (x ∈ l)) as [Hxl|Hxl].
    + destruct (Hv x Hxl) as [_ ->]. destruct Hwf as (_ & Hz & _).
      rewrite (Hz x Hxl). exact to_uint_1.
    + rewrite (value_of_frame x σ σ') by (apply Hfr, Hxl).
      apply Hout; [|exact Hxl]. rewrite <- Hfr by exact Hxl. exact Hlive.
Qed.

Lemma return_settled σ l w :
  settled σ l → is_Some (stack σ !! w) →
  ∃ σ' l', vlc_cond_wait_return w σ = Ok σ' ∧ settled σ' l' ∧
           stack σ' !! w = None ∧
           (∀ x, x ∈ l' ↔ x ∈ l ∧ x ≠ w) ∧
           (w ∉ l → l' = l) ∧
           (∀ x, x ≠ w → value_of x σ' = value_of x σ).
Proof.
  intros [Hwf Hout] Hlive.
  destruct (decide (w ∈ l)) as [Hwl|Hwl].
  - apply list_elem_of_split in Hwl as (l1 & l2 & ->).
    pose proof (queue_NoDup _ _ (proj1 Hwf)) as Hnd.
    apply NoDup_app in Hnd as (_ & Hdis & Hnd2).
    apply NoDup_cons in Hnd2 as [Hw2 _].
    assert (Hw1 : w ∉ l1).
    { intros Hin. apply (Hdis w Hin). by left. }
    destruct (return_queued_wf σ l1 w l2 Hwf)
      as (σ' & Hret & Hwf' & _ & Hgone & Hv).
    exists σ', (l1 ++ l2). split_and!; try assumption.
    + split; [exact Hwf'|]. intros x Hx Hxl.
      assert (Hxw : x ≠ w) by (intros ->; rewrite Hgone in Hx;
                                 by destruct Hx).
      rewrite Hv by exact Hxw. apply Hout.
      * apply wait_return_live in Hret.
        apply elem_of_dom. apply elem_of_dom in Hx.
        rewrite Hret in Hx. apply elem_of_difference in Hx as [Hx _].
        exact Hx.
      * rewrite elem_of_app, elem_of_cons.
        rewrite elem_of_app in Hxl. tauto.
    + intros x. rewrite !elem_of_app, elem_of_cons. split.
      * intros [Hx|Hx]; (split; [tauto|]); intros ->; contradiction.
      * tauto.
    + intros Hn. exfalso. apply Hn. rewrite elem_of_app, elem_of_cons. tauto.
  - assert (Hd : detached w σ).
    { destruct Hwf as (_ & _ & Hd). apply Hd; assumption. }
    destruct (return_detached_wf σ l w Hwf Hd)
      as (σ' & Hret & Hwf' & _ & _ & Hst).
    exists σ', l. split_and!; try assumption.
    + split; [exact Hwf'|]. intros x Hx Hxl.
      rewrite Hst in Hx.
      assert (Hxw : x ≠ w).
      { intros ->. rewrite lookup_delete_eq in Hx. by destruct Hx. }
      rewrite lookup_delete_ne in Hx by congruence.
      rewrite (value_of_frame x σ σ')
        by (rewrite Hst; apply lookup_delete_ne; congruence).
      apply Hout; assumption.
    + rewrite Hst. apply lookup_delete_eq.
    + intros x. split; [|tauto]. intros Hx. split; [exact Hx|].
      intros ->. contradiction.
    + reflexivity.
    + intros x Hxw. apply value_of_frame. rewrite Hst.
      apply lookup_delete_ne. congruence.
Qed.

(** X1. A signal that finds no waiter is not remembered: it leaves the
    state as it is, and a thread that enters a wait afterwards is queued
    with a cell that holds 0, so its park has no reason to return. *)
Theorem signal_without_waiter_is_lost (σ : world) (w : addr) (mtx : nat) :
  wf_with σ [] → stack σ !! w = None →
  vlc_cond_signal σ = Ok σ ∧
  ∃ σ', (σ1 ← vlc_cond_signal σ; vlc_cond_wait_prepare w mtx σ1) = Ok σ' ∧
        wf_with σ' [w] ∧ woken w σ' = false ∧
        notified σ' = notified σ.
Proof.
  intros Hwf Hfresh.
  pose proof (signal_empty σ (proj1 Hwf)) as Hs.
  split; [exact Hs|].
  destruct (prepare_wf σ [] w mtx Hwf Hfresh) as (σ' & Hp & Hwf' & Hn & _).
  exists σ'. rewrite Hs. simpl. split_and!; try assumption.
  destruct Hwf' as (_ & Hz & _). specialize (Hz w (list_elem_of_here _ _)).
  unfold woken, value_of in *. destruct (stack σ' !! w); [|reflexivity].
  rewrite Hz. reflexivity.
Qed.

Lemma signal_without_waiter_is_lost_witness :
  vlc_cond_signal vlc_cond_init = Ok vlc_cond_init ∧
  ∃ σ', (σ1 ← vlc_cond_signal vlc_cond_init;
         vlc_cond_wait_prepare 1%nat 0%nat σ1) = Ok σ' ∧
        wf_with σ' [1%nat] ∧ woken 1%nat σ' = false ∧
        notified σ' = notified vlc_cond_init.
Proof.
  apply (signal_without_waiter_is_lost vlc_cond_init 1%nat 0%nat).
  - exact init_wf.
  - reflexivity.
Defined.

(** X2. A thread whose park returns without its having been woken (the
    deadline elapsed, or the wake-up is spurious) takes itself out of the
    queue, wherever it is in it: the other waiters keep their order and
    their cells, nobody is notified, [vlc_cond_timedwait] returns the
    status of the park, and the signals sent afterwards wake the waiters
    that remain, never the one that left. *)
Theorem unwoken_return_unlinks (σ : world) (l1 : list addr) (w : addr)
  (l2 : list addr) (ret : Z) :
  wf_with σ (l1 ++ w :: l2) →
  ∃ σ', vlc_cond_timedwait_return ret w σ = Ok (ret, σ') ∧
        vlc_cond_wait_return w σ = Ok σ' ∧
        wf_with σ' (l1 ++ l2) ∧
        notified σ' = notified σ ∧
        stack σ' !! w = None ∧
        (∀ x, x ≠ w → value_of x σ' = value_of x σ) ∧
        ∃ σ'', signals (length (l1 ++ l2)) σ' = Ok σ'' ∧
               notified σ'' = notified σ ++ l1 ++ l2 ∧
               queue σ'' [].
Proof.
  intros Hwf.
  destruct (return_queued_wf σ l1 w l2 Hwf)
    as (σ' & Hret & Hwf' & Hn & Hgone & Hv).
  exists σ'. split_and!; try assumption.
  - unfold vlc_cond_timedwait_return, vlc_cond_wait_cleanup.
    unfold vlc_cond_wait_return in Hret.
    destruct (vlc_cond_wait_finish w σ) as [σ1| | |]; simpl in *;
      try discriminate.
    injection Hret as <-. reflexivity.
  - destruct (signals_queue (l1 ++ l2) σ' []) as (σ'' & Hs & Hq & Hn').
    { rewrite app_nil_r. exact (proj1 Hwf'). }
    exists σ''. split_and!; [exact Hs| |exact Hq].
    rewrite Hn', Hn. reflexivity.
Qed.

Lemma unwoken_return_unlinks_witness :
  ∃ σ', vlc_cond_timedwait_return Sem.ETIMEDOUT 2%nat three_parked =
          Ok (Sem.ETIMEDOUT, σ') ∧
        vlc_cond_wait_return 2%nat three_parked = Ok σ' ∧
        wf_with σ' ([3%nat] ++ [1%nat]) ∧
        notified σ' = notified three_parked ∧
        stack σ' !! 2%nat = None ∧
        (∀ x, x ≠ 2%nat → value_of x σ' = value_of x three_parked) ∧
        ∃ σ'', signals (length ([3%nat] ++ [1%nat])) σ' = Ok σ'' ∧
               notified σ'' = notified three_parked ++ [3%nat] ++ [1%nat] ∧
               queue σ'' [].
Proof.
  apply (unwoken_return_unlinks three_parked [3%nat] 2%nat [1%nat]
           Sem.ETIMEDOUT).
  exact three_parked_wf.
Defined.

(** The loop of [vlc_cond_broadcast], record by record. *)
Lemma broadcast_loop_records l :
  ∀ fuel σ s cur,
    lseg (stack σ) s cur l → (length l ≤ fuel)%nat →
    ∃ σ', broadcast_loop fuel cur σ = Ok σ' ∧
          head σ' = head σ ∧
          notified σ' = notified σ ++ l ∧
          ∀ x, stack σ' !! x =
               if decide (x ∈ l) then woken_record x <$> stack σ !! x
               else stack σ !! x.
Proof.
  induction l as [|a l IH]; intros fuel σ s cur Hl Hfuel.
  - simpl in Hl. subst cur. exists σ.
    destruct fuel; (split_and!; [reflexivity|reflexivity|
      by rewrite app_nil_r|]); intros x;
      (destruct (decide (x ∈ [])) as [Hin|_]; [|reflexivity]);
      by apply not_elem_of_nil in Hin.
  - pose proof (lseg_head_fresh _ _ _ _ _ Hl) as Hal.
    destruct Hl as [-> [r [Hr [Hp Hl]]]].
    destruct fuel as [|fuel]; [simpl in Hfuel; lia|].
    simpl. rewrite (load_Some _ _ _ Hr). simpl.
    rewrite (signal_waiter_spec _ _ _ Hr). simpl.
    match goal with |- context [broadcast_loop fuel (next r) ?x] =>
      set (σ1 := x) end.
    assert (Hl1 : lseg (stack σ1) (NextOf a) (next r) l).
    { eapply lseg_frame; [|exact Hl]. intros x Hx. simpl.
      apply lookup_insert_ne. intros ->. contradiction. }
    destruct (IH fuel σ1 _ _ Hl1) as (σ' & Hrun & Hh & Hn & Hrec).
    { simpl in Hfuel. lia. }
    exists σ'. split_and!.
    + exact Hrun.
    + rewrite Hh. reflexivity.
    + rewrite Hn. simpl. rewrite <- app_assoc. reflexivity.
    + intros x. rewrite Hrec. simpl.
      destruct (decide (x = a)) as [->|Hne].
      * rewrite decide_False by exact Hal.
        rewrite decide_True by (by left).
        rewrite lookup_insert_eq, Hr. reflexivity.
      * rewrite lookup_insert_ne by congruence.
        destruct (decide (x ∈ l)) as [Hin|Hnin].
        -- rewrite decide_True by (by right). reflexivity.
        -- rewrite decide_False; [reflexivity|].
           intros Hin. apply elem_of_cons in Hin as [?|?]; contradiction.
Qed.

(** [vlc_cond_signal], record by record. *)
Lemma signal_records σ w l :
  queue σ (w :: l) →
  ∃ σ', vlc_cond_signal σ = Ok σ' ∧
        stack σ' !! w = woken_record w <$> stack σ !! w ∧
        (∀ x, x ≠ w →
              woken_record x <$> stack σ' !! x =
              woken_record x <$> stack σ !! x) ∧
        (∀ x, x ≠ w → x ∉ l → stack σ' !! x = stack σ !! x).
Proof.
  intros Hq. pose proof (queue_NoDup _ _ Hq) as Hnd.
  apply NoDup_cons in Hnd as [Hwl _].
  destruct Hq as [Hh [r [Hr [Hp Hl]]]].
  unfold vlc_cond_signal. rewrite Hh, (load_Some _ _ _ Hr). simpl.
  rewrite Hp. simpl. destruct l as [|a l]; simpl in Hl.
  - rewrite Hl. simpl.
    assert (Hr' : stack (set_head None σ) !! w = Some r) by exact Hr.
    rewrite (signal_waiter_spec _ _ _ Hr').
    eexists. split; [reflexivity|]. simpl. split_and!.
    + rewrite lookup_insert_eq, Hr. reflexivity.
    + intros x Hx. rewrite lookup_insert_ne by congruence. reflexivity.
    + intros x Hx _. rewrite lookup_insert_ne by congruence. reflexivity.
  - destruct Hl as [Hn [ra [Hra [Hpa Hl]]]].
    assert (Haw : a ≠ w) by (intros ->; apply Hwl; by left).
    rewrite Hn. simpl.
    assert (Hra' : stack (set_head (Some a) σ) !! a = Some ra) by exact Hra.
    rewrite (load_Some _ _ _ Hra'). simpl.
    match goal with |- context [vlc_cond_signal_waiter w ?x] =>
      set (σ2 := x) end.
    assert (Hr2 : stack σ2 !! w = Some r).
    { simpl. rewrite lookup_insert_ne by exact Haw. exact Hr. }
    rewrite (signal_waiter_spec _ _ _ Hr2).
    eexists. split; [reflexivity|]. simpl. split_and!.
    + rewrite lookup_insert_eq, Hr. reflexivity.
    + intros x Hx. rewrite lookup_insert_ne by congruence.
      destruct (decide (x = a)) as [->|Hne].
      * rewrite lookup_insert_eq, Hra. reflexivity.
      * rewrite lookup_insert_ne by congruence. reflexivity.
    + intros x Hx Hxl. apply not_elem_of_cons in Hxl as [Hxa _].
      rewrite !lookup_insert_ne by congruence. reflexivity.
Qed.

(** As many calls of [vlc_cond_signal] as there are waiters, record by
    record. *)
Lemma signals_records l :
  ∀ σ, queue σ l →
       ∃ σ', signals (length l) σ = Ok σ' ∧
             head σ' = None ∧
             notified σ' = notified σ ++ l ∧
             ∀ x, stack σ' !! x =
                  if decide (x ∈ l) then woken_record x <$> stack σ !! x
                  else stack σ !! x.
Proof.
  induction l as [|w l IH]; intros σ Hq.
  - exists σ. simpl. split_and!; [reflexivity|exact Hq|
      by rewrite app_nil_r|].
    intros x. destruct (decide (x ∈ [])) as [Hin|_]; [|reflexivity].
    by apply not_elem_of_nil in Hin.
  - pose proof (queue_NoDup _ _ Hq) as Hnd.
    apply NoDup_cons in Hnd as [Hwl _].
    destruct (signal_queue σ w l Hq) as (σ1 & Hs & Hq1 & Hn1 & _).
    destruct (signal_records σ w l Hq) as (σ1' & Hs' & Hw & Hcore & Hfr).
    rewrite Hs in Hs'. injection Hs' as <-.
    destruct (IH σ1 Hq1) as (σ' & Hss & Hh & Hn & Hrec).
    exists σ'. simpl. rewrite Hs. simpl. split_and!.
    + exact Hss.
    + exact Hh.
    + rewrite Hn, Hn1, <- app_assoc. reflexivity.
    + intros x. rewrite Hrec.
      destruct (decide (x = w)) as [->|Hne].
      * rewrite decide_False by exact Hwl.
        rewrite decide_True by (by left). exact Hw.
      * destruct (decide (x ∈ l)) as [Hin|Hnin].
        -- rewrite decide_True by (by right). apply Hcore, Hne.
        -- rewrite decide_False.
           ++ apply Hfr; assumption.
           ++ intros Hin. apply elem_of_cons in Hin as [?|?]; contradiction.
Qed.

(** X3. [vlc_cond_broadcast] leaves exactly the state that signalling until
    the queue is empty leaves: the same waiters woken in the same order,
    the same records, the same empty queue. *)
Theorem broadcast_is_repeated_signal (σ : world) (l : list addr) :
  queue σ l → vlc_cond_broadcast σ = signals (length l) σ.
Proof.
  intros Hq.
  destruct (signals_records l σ Hq) as (σs & Hs & Hhs & Hns & Hrs).
  destruct (broadcast_loop_records l (S (size (stack σ))) (set_head None σ)
              HeadOf (head σ) Hq) as (σb & Hb & Hhb & Hnb & Hrb).
  { apply lseg_length_size in Hq. simpl. lia. }
  unfold vlc_cond_broadcast. rewrite Hb, Hs. f_equal.
  destruct σb as [hb mb nb], σs as [hs ms ns]. simpl in *. subst.
  f_equal. apply map_eq. intros x. rewrite Hrb, Hrs. reflexivity.
Qed.

Lemma broadcast_is_repeated_signal_witness :
  vlc_cond_broadcast three_parked =
  signals (length [3; 2; 1]%nat) three_parked.
Proof.
  apply (broadcast_is_repeated_signal three_parked [3; 2; 1]%nat).
  exact (proj1 three_parked_wf).
Defined.

(** X4. [vlc_cond_destroy] passes its assertion exactly when no waiter is
    queued; right after [vlc_cond_init] it passes, and right after a
    broadcast it passes whether or not the woken threads have left their
    wait. *)
Theorem cond_destroy_iff_no_waiter_queued (σ : world) (l : list addr) :
  wf_with σ l →
  (vlc_cond_destroy σ = Ok tt ↔ l = []) ∧
  (l ≠ [] → vlc_cond_destroy σ = Aborted) ∧
  (σ1 ← vlc_cond_broadcast σ; vlc_cond_destroy σ1) = Ok tt ∧
  vlc_cond_destroy vlc_cond_init = Ok tt.
Proof.
  intros Hwf. pose proof (proj1 Hwf) as Hq.
  unfold vlc_cond_destroy. split_and!.
  - rewrite assert_Ok, bool_decide_eq_true. split.
    + apply queue_head_None, Hq.
    + intros ->. exact Hq.
  - intros Hne. destruct l as [|w l]; [done|].
    destruct Hq as [Hh _]. rewrite Hh. reflexivity.
  - destruct (broadcast_queue σ l Hq) as (σ1 & Hb & Hh & _).
    rewrite Hb. simpl. rewrite Hh. reflexivity.
  - reflexivity.
Qed.

Lemma cond_destroy_iff_no_waiter_queued_witness :
  (vlc_cond_destroy three_parked = Ok tt ↔ [3; 2; 1]%nat = []) ∧
  ([3; 2; 1]%nat ≠ [] → vlc_cond_destroy three_parked = Aborted) ∧
  (σ1 ← vlc_cond_broadcast three_parked; vlc_cond_destroy σ1) = Ok tt ∧
  vlc_cond_destroy vlc_cond_init = Ok tt.
Proof.
  apply (cond_destroy_iff_no_waiter_queued three_parked [3; 2; 1]%nat).
  exact three_parked_wf.
Defined.




(** X6. [vlc_cond_timedwait] returns the status of its park whatever
    happened to the waiter in between. When the waiter at the head of the
    queue has been signalled and its park nevertheless reports [ret], a
    timeout say, the call returns [ret]; the signal is spent on it: the
    waiters behind it stay queued and none of them has been woken. *)
Theorem signal_spent_on_timed_out_waiter (σ : world) (w : addr)
  (l : list addr) (ret : Z) :
  wf_with σ (w :: l) →
  ∃ σ1 σ2, vlc_cond_signal σ = Ok σ1 ∧
           vlc_cond_timedwait_return ret w σ1 = Ok (ret, σ2) ∧
           wf_with σ2 l ∧
           notified σ2 = notified σ ++ [w] ∧
           ∀ x, x ∈ l → woken x σ2 = false.
Proof.
  intros Hwf.
  destruct (signal_wf σ w l Hwf) as (σ1 & Hs & Hwf1 & Hd & _ & Hn & _).
  destruct (return_detached_wf σ1 l w Hwf1 Hd)
    as (σ2 & Hret & Hwf2 & _ & Hn2 & _).
  exists σ1, σ2. split_and!; try assumption.
  - unfold vlc_cond_timedwait_return, vlc_cond_wait_cleanup.
    unfold vlc_cond_wait_return in Hret.
    destruct (vlc_cond_wait_finish w σ1) as [σ3| | |]; simpl in *;
      try discriminate.
    injection Hret as <-. reflexivity.
  - rewrite Hn2, Hn. reflexivity.
  - intros x Hx. destruct Hwf2 as (_ & Hz & _). specialize (Hz x Hx).
    unfold woken, value_of in *. destruct (stack σ2 !! x); [|reflexivity].
    rewrite Hz. reflexivity.
Qed.

Lemma signal_spent_on_timed_out_waiter_witness :
  ∃ σ1 σ2, vlc_cond_signal three_parked = Ok σ1 ∧
           vlc_cond_timedwait_return Sem.ETIMEDOUT 3%nat σ1 =
             Ok (Sem.ETIMEDOUT, σ2) ∧
           wf_with σ2 [2; 1]%nat ∧
           notified σ2 = notified three_parked ++ [3%nat] ∧
           ∀ x, x ∈ [2; 1]%nat → woken x σ2 = false.
Proof.
  apply (signal_spent_on_timed_out_waiter three_parked 3%nat [2; 1]%nat
           Sem.ETIMEDOUT).
  exact three_parked_wf.
Defined.





End CondExtra.

(** * More on the read/write lock *)

Module RWLockExtra.
Import RWLock RWLockTheory.

Lemma reachable_invariant (P : system → Prop) :
  P boot →
  (∀ c s s', encoded s → parked_ok s → P s → permitted c s →
             run_call c s = Ok s' → P s') →
  ∀ s, reachable s → P s.
Proof.
  intros Hb Hstep s [cs Hr].
  assert (Hgen : ∀ s0 cs s, runs s0 cs s →
                            encoded s0 → parked_ok s0 → P s0 → P s).
  { clear s cs Hr. intros s0 cs s Hr.
    induction Hr as [s|s c s1 cs s' Hperm Hrun Hr IH]; intros He Hp HP.
    - exact HP.
    - destruct (run_call_progress c s He Hp Hperm)
        as [(s2 & Hrun' & He' & Hp')|(Hab & _)].
      + rewrite Hrun in Hrun'. injection Hrun' as <-.
        apply IH; try assumption. apply (Hstep c s s1); assumption.
      + rewrite Hrun in Hab. discriminate. }
  exact (Hgen boot cs s Hr boot_encoded boot_parked_ok Hb).
Qed.

Lemma reachable_parked_ok s : reachable s → parked_ok s.
Proof.
  intros [cs Hr].
  exact (runs_parked_ok _ _ _ Hr boot_encoded boot_parked_ok).
Qed.

Lemma sleeper_live s w :
  parked_ok s →
  is_Some (sleepers s !! w) ↔ is_Some (Cond.stack (wait (lock s)) !! w).
Proof.
  intros [_ Hdom]. rewrite <- !elem_of_dom, Hdom. reflexivity.
Qed.

(** [vlc_rwlock_unlock], case by case. *)
Lemma unlock_write lk :
  state lk = WRITER_BIT →
  vlc_rwlock_unlock lk =
    (c ← Cond.vlc_cond_broadcast (wait lk); Ok {| state := 0; wait := c |}).
Proof.
  intros H. unfold vlc_rwlock_unlock. rewrite H. reflexivity.
Qed.

Lemma unlock_read_last lk :
  state lk = 1 →
  vlc_rwlock_unlock lk =
    (c ← Cond.vlc_cond_signal (wait lk); Ok {| state := 0; wait := c |}).
Proof.
  intros H. unfold vlc_rwlock_unlock. rewrite H. reflexivity.
Qed.

Lemma unlock_read_more lk :
  1 < state lk →
  vlc_rwlock_unlock lk = Ok {| state := state lk - 1; wait := wait lk |}.
Proof.
  intros H. unfold vlc_rwlock_unlock.
  replace (state lk <? 0) with false by (symmetry; apply Z.ltb_ge; lia).
  replace (0 <? state lk) with true by (symmetry; apply Z.ltb_lt; lia).
  simpl.
  replace (state lk - 1 =? 0) with false by (symmetry; apply Z.eqb_neq; lia).
  reflexivity.
Qed.

(** A locking call at the test of its [while], on a settled condition
    variable whose queue holds writers only. *)
Lemma locking_fair (write : bool) (w : Cond.addr) (s : system)
  (lk : vlc_rwlock_t) (l : list Cond.addr) (p : progress) :
  state lk = state (lock s) →
  Cond.settled (wait lk) l → Cond.stack (wait lk) !! w = None →
  (0 ≤ state (lock s) → ∀ x, x ∈ l → sleepers s !! x = Some true) →
  (if write then vlc_rwlock_wrlock w lk else vlc_rwlock_rdlock w lk) = Ok p →
  fair (settle write w s p).
Proof.
  intros Hst Hset Hfresh Hwr Hrun.
  pose proof long_bounds as [Hneg Hpos].
  assert (Hwl : ∀ x, x ∈ l → x ≠ w).
  { intros x Hx ->. destruct Hset as [(Hq & _) _].
    destruct (CondTheory.lseg_live _ _ _ _ _ Hq Hx) as [r Hr]. congruence. }
  destruct (CondExtra.prepare_settled _ l w lock_mutex Hset Hfresh)
    as (σ' & Hprep & Hset').
  destruct write.
  - apply wrlock_cases in Hrun as [(Hne & c & Hc & ->)|(Hz & ->)].
    + rewrite Hprep in Hc. injection Hc as <-. split; simpl.
      * exists (w :: l). split; [exact Hset'|]. intros Hge x Hx.
        apply elem_of_cons in Hx as [->|Hx].
        -- apply lookup_insert_eq.
        -- rewrite lookup_insert_ne by (intros Heq; by apply (Hwl x Hx)).
           apply Hwr; [lia|exact Hx].
      * intros Hz. contradiction.
    + split; simpl.
      * exists l. split; [exact Hset|]. intros Hge. lia.
      * intros Hz'. lia.
  - apply rdlock_cases in Hrun as [(Hw & c & Hc & ->)|(Hrange & ->)].
    + rewrite Hprep in Hc. injection Hc as <-. split; simpl.
      * exists (w :: l). split; [exact Hset'|]. intros Hge. lia.
      * intros Hz. lia.
    + split; simpl.
      * exists l. split; [exact Hset|]. intros _ x Hx.
        rewrite lookup_delete_ne by (intros Heq; by apply (Hwl x Hx)).
        apply Hwr; [lia|exact Hx].
      * intros Hz. lia.
Qed.

Lemma fair_step c s s' :
  encoded s → parked_ok s → fair s → permitted c s →
  run_call c s = Ok s' → fair s'.
Proof.
  intros He Hp [(l & Hset & Hwr) Hfree] Hperm Hrun.
  pose proof long_bounds as [Hneg Hpos].
  destruct c as [w|w|w| |]; simpl in Hperm, Hrun.
  - destruct (vlc_rwlock_rdlock w (lock s)) as [p| | |] eqn:Hp';
      simpl in Hrun; try discriminate. injection Hrun as <-.
    eapply (locking_fair false w s (lock s) l); eauto.
  - destruct (vlc_rwlock_wrlock w (lock s)) as [p| | |] eqn:Hp';
      simpl in Hrun; try discriminate. injection Hrun as <-.
    eapply (locking_fair true w s (lock s) l); eauto.
  - destruct (sleepers s !! w) as [write|] eqn:Hw; [|discriminate].
    assert (Hlive : is_Some (Cond.stack (wait (lock s)) !! w)).
    { apply (sleeper_live s w Hp). eauto. }
    destruct (CondExtra.return_settled _ l w Hset Hlive)
      as (σ' & l' & Hret & Hset' & Hgone & Hl' & _).
    unfold resume in Hrun. rewrite Hret in Hrun. simpl in Hrun.
    match type of Hrun with
    | context [if write then vlc_rwlock_wrlock w ?lk else _] =>
        set (lk1 := lk) in *
    end.
    destruct (if write then vlc_rwlock_wrlock w lk1
              else vlc_rwlock_rdlock w lk1) as [p| | |] eqn:Hp';
      simpl in Hrun; try discriminate. injection Hrun as <-.
    eapply (locking_fair write w s lk1 l'); eauto.
    intros Hge x Hx. apply Hwr; [exact Hge|]. apply Hl', Hx.
  - assert (Hst : state (lock s) = WRITER_BIT).
    { destruct He as [(Hw0 & _)|(_ & _ & Hst)]; [lia|exact Hst]. }
    rewrite (unlock_write _ Hst) in Hrun.
    destruct (CondExtra.broadcast_settled _ l Hset)
      as (σ' & Hb & Hset' & Hdom).
    rewrite Hb in Hrun. simpl in Hrun. injection Hrun as <-.
    split; simpl.
    + exists []. split; [exact Hset'|]. intros _ x Hx.
      by apply not_elem_of_nil in Hx.
    + intros _ Hne. apply map_choose in Hne as (x & b & Hx).
      exists x. split; [eauto|]. apply CondExtra.woken_value.
      apply (proj2 Hset'); [|apply not_elem_of_nil].
      apply elem_of_dom. rewrite Hdom. apply elem_of_dom.
      apply (sleeper_live s x Hp). eauto.
  - assert (Hst : 0 < state (lock s) ∧ writers s = 0%nat).
    { destruct He as [(Hw0 & Hst & _)|(_ & Hr0 & _)]; lia. }
    destruct (decide (state (lock s) = 1)) as [H1|Hmore].
    + rewrite (unlock_read_last _ H1) in Hrun.
      destruct l as [|w l].
      * rewrite (CondTheory.signal_empty _ (proj1 (proj1 Hset))) in Hrun.
        simpl in Hrun. injection Hrun as <-. split; simpl.
        -- exists []. split; [exact Hset|]. intros _ x Hx.
           by apply not_elem_of_nil in Hx.
        -- intros _ Hne. apply map_choose in Hne as (x & b & Hx).
           exists x. split; [eauto|]. apply CondExtra.woken_value.
           apply (proj2 Hset); [|apply not_elem_of_nil].
           apply (sleeper_live s x Hp). eauto.
      * destruct (CondExtra.signal_settled _ w l Hset)
          as (σ' & Hs & Hset' & _ & Hv & _).
        rewrite Hs in Hrun. simpl in Hrun. injection Hrun as <-.
        split; simpl.
        -- exists l. split; [exact Hset'|]. intros _ x Hx.
           apply Hwr; [lia|by right].
        -- intros _ _. exists w. split.
           ++ rewrite (Hwr ltac:(lia) w ltac:(by left)). eauto.
           ++ apply CondExtra.woken_value, Hv.
    + rewrite (unlock_read_more (lock s) ltac:(lia)) in Hrun.
      injection Hrun as <-. split; simpl.
      * exists l. split; [exact Hset|]. intros _ x Hx.
        apply Hwr; [lia|exact Hx].
      * intros Hz. lia.
Qed.

Lemma boot_fair : fair boot.
Proof.
  split.
  - exists []. split; [exact CondExtra.init_settled|].
    intros _ x Hx. by apply not_elem_of_nil in Hx.
  - intros _ Hne. contradiction.
Qed.

Lemma reachable_fair s : reachable s → fair s.
Proof.
  apply reachable_invariant; [exact boot_fair|].
  intros c s0 s' He Hp Hf Hperm Hrun. exact (fair_step c s0 s' He Hp Hf Hperm Hrun).
Qed.

Lemma write_released_reachable : reachable write_released.
Proof.
  exists [WrLock 0; RdLock 1; WrLock 2; UnlockWrite]%nat.
  unfold write_released. run_calls_tac.
Defined.

Lemma read_held_once_reachable : reachable read_held_once.
Proof. exists [RdLock 0; WrLock 2]%nat. run_calls_tac. Defined.

Lemma fair_queue s l :
  reachable s → Cond.queue (wait (lock s)) l →
  Cond.settled (wait (lock s)) l ∧
  (0 ≤ state (lock s) → ∀ w, w ∈ l → sleepers s !! w = Some true).
Proof.
  intros Hr Hq.
  destruct (reachable_fair s Hr) as [(l0 & Hset & Hwr) _].
  rewrite (CondExtra.queue_unique _ l l0 Hq (proj1 (proj1 Hset))).
  split; assumption.
Qed.

(** X7. While no writer holds the lock, the threads queued on
    [lock->wait] are all in [vlc_rwlock_wrlock]: the signal of the last
    reader that leaves goes to a pending writer, as the comment in
    [vlc_rwlock_unlock] says. A thread parked in [vlc_rwlock_rdlock] has
    then been woken already and is out of the queue. *)
Theorem parked_reader_woken_unless_writer_holds (s : system) :
  reachable s → 0 ≤ state (lock s) →
  (∀ l w, Cond.queue (wait (lock s)) l → w ∈ l →
          sleepers s !! w = Some true) ∧
  (∀ w, sleepers s !! w = Some false →
        Cond.woken w (wait (lock s)) = true ∧
        Cond.detached w (wait (lock s))).
Proof.
  intros Hr Hge. split.
  - intros l w Hq Hw. exact (proj2 (fair_queue s l Hr Hq) Hge w Hw).
  - intros w Hw.
    destruct (reachable_fair s Hr) as [(l & Hset & Hwr) _].
    assert (Hwl : w ∉ l).
    { intros Hin. rewrite (Hwr Hge w Hin) in Hw. discriminate. }
    assert (Hlive : is_Some (Cond.stack (wait (lock s)) !! w)).
    { apply (sleeper_live s w (reachable_parked_ok s Hr)). eauto. }
    split.
    + apply CondExtra.woken_value, (proj2 Hset); assumption.
    + destruct Hset as [(_ & _ & Hd) _]. apply Hd; assumption.
Qed.

Lemma parked_reader_woken_unless_writer_holds_witness :
  (∀ l w, Cond.queue (wait (lock write_released)) l → w ∈ l →
          sleepers write_released !! w = Some true) ∧
  (∀ w, sleepers write_released !! w = Some false →
        Cond.woken w (wait (lock write_released)) = true ∧
        Cond.detached w (wait (lock write_released))).
Proof.
  apply (parked_reader_woken_unless_writer_holds write_released).
  - exact write_released_reachable.
  - vm_compute. discriminate.
Defined.



(** X9. The last reader hands the lock over. When the only read lock is
    released while threads are queued, the thread at the head of the queue
    is a writer; the unlock frees the lock and wakes that thread and no
    other; when its park returns it takes the lock for writing, and the
    others stay queued. *)
Theorem last_reader_hands_over_to_writer (s : system) (w : Cond.addr)
  (l : list Cond.addr) :
  reachable s → readers s = 1%nat → Cond.queue (wait (lock s)) (w :: l) →
  sleepers s !! w = Some true ∧
  ∃ s1 s2, run_call UnlockRead s = Ok s1 ∧
           state (lock s1) = 0 ∧ readers s1 = 0%nat ∧
           Cond.woken w (wait (lock s1)) = true ∧
           (∀ x, x ∈ l → Cond.woken x (wait (lock s1)) = false) ∧
           run_call (Wake w) s1 = Ok s2 ∧
           state (lock s2) = WRITER_BIT ∧ writers s2 = 1%nat ∧
           Cond.queue (wait (lock s2)) l ∧
           sleepers s2 = delete w (sleepers s).
Proof.
  intros Hr H1 Hq.
  destruct (fair_queue s _ Hr Hq) as [Hset Hwr].
  assert (Hst : state (lock s) = 1 ∧ writers s = 0%nat).
  { destruct (reachable_encoded s Hr) as [(Hw0 & Hst & _)|(_ & Hr0 & _)];
      lia. }
  destruct Hst as [Hst Hw0].
  assert (Hw : sleepers s !! w = Some true).
  { apply Hwr; [lia|by left]. }
  split; [exact Hw|].
  destruct (CondExtra.signal_settled _ w l Hset)
    as (σ1 & Hs & Hset1 & Hd & Hv & _).
  destruct (CondExtra.return_detached_wf σ1 l w (proj1 Hset1) Hd)
    as (σ2 & Hret & Hwf2 & _).
  eexists. eexists. split.
  { simpl. rewrite (unlock_read_last _ Hst), Hs. simpl. reflexivity. }
  simpl. split_and!.
  - reflexivity.
  - rewrite H1. reflexivity.
  - apply CondExtra.woken_value, Hv.
  - intros x Hx. exact (CondExtra.queued_not_woken σ1 l x (proj1 Hset1) Hx).
  - rewrite Hw. unfold resume. simpl. rewrite Hret. simpl. reflexivity.
  - reflexivity.
  - simpl. rewrite Hw0. reflexivity.
  - exact (proj1 Hwf2).
  - reflexivity.
Qed.

Lemma last_reader_hands_over_to_writer_witness :
  sleepers read_held_once !! 2%nat = Some true ∧
  ∃ s1 s2, run_call UnlockRead read_held_once = Ok s1 ∧
           state (lock s1) = 0 ∧ readers s1 = 0%nat ∧
           Cond.woken 2%nat (wait (lock s1)) = true ∧
           (∀ x, x ∈ [] → Cond.woken x (wait (lock s1)) = false) ∧
           run_call (Wake 2%nat) s1 = Ok s2 ∧
           state (lock s2) = WRITER_BIT ∧ writers s2 = 1%nat ∧
           Cond.queue (wait (lock s2)) [] ∧
           sleepers s2 = delete 2%nat (sleepers read_held_once).
Proof.
  apply (last_reader_hands_over_to_writer read_held_once 2%nat []).
  - exact read_held_once_reachable.
  - reflexivity.
  - exact (proj1 (proj1 wait_of_read_held)).
Defined.

(** X10. A writer that releases the lock lets every parked thread compete
    for it: the unlock frees the lock, empties the queue and wakes every
    thread parked in a locking call, and whichever of them runs first takes
    the lock in the mode it asked for. *)
Theorem writer_release_lets_sleepers_compete (s : system) (w : Cond.addr)
  (b : bool) :
  reachable s → writers s = 1%nat → sleepers s !! w = Some b →
  ∃ s1 s2, run_call UnlockWrite s = Ok s1 ∧
           state (lock s1) = 0 ∧ writers s1 = 0%nat ∧
           sleepers s1 = sleepers s ∧
           Cond.queue (wait (lock s1)) [] ∧
           (∀ x, is_Some (sleepers s !! x) →
                 Cond.woken x (wait (lock s1)) = true) ∧
           run_call (Wake w) s1 = Ok s2 ∧
           state (lock s2) = (if b then WRITER_BIT else 1) ∧
           writers s2 = (if b then 1 else 0)%nat ∧
           readers s2 = (if b then 0 else 1)%nat ∧
           sleepers s2 = delete w (sleepers s).
Proof.
  intros Hr H1 Hw.
  pose proof (reachable_parked_ok s Hr) as Hp.
  destruct (reachable_fair s Hr) as [(l & Hset & _) _].
  assert (Hst : state (lock s) = WRITER_BIT ∧ readers s = 0%nat).
  { destruct (reachable_encoded s Hr) as [(Hw0 & _)|(_ & Hr0 & Hst)];
      [lia|by split]. }
  destruct Hst as [Hst Hr0].
  destruct (CondExtra.broadcast_settled _ l Hset)
    as (σ1 & Hb & Hset1 & Hdom).
  assert (Hlive : ∀ x, is_Some (sleepers s !! x) →
                       is_Some (Cond.stack σ1 !! x)).
  { intros x Hx. apply elem_of_dom. rewrite Hdom. apply elem_of_dom.
    apply (sleeper_live s x Hp), Hx. }
  destruct (CondExtra.return_settled σ1 [] w Hset1 (Hlive w ltac:(eauto)))
    as (σ2 & l' & Hret & Hset2 & _ & _ & Hl' & _).
  rewrite (Hl' ltac:(apply not_elem_of_nil)) in Hset2.
  assert (Hwoken : ∀ x, is_Some (sleepers s !! x) →
                        Cond.woken x σ1 = true).
  { intros x Hx. apply CondExtra.woken_value.
    apply (proj2 Hset1); [exact (Hlive x Hx)|apply not_elem_of_nil]. }
  destruct b;
    (eexists; eexists; split;
     [simpl; rewrite (unlock_write _ Hst), Hb; simpl; reflexivity|]);
    simpl; rewrite Hw, H1, Hr0; unfold resume; simpl; rewrite Hret; simpl;
    (split_and!; try reflexivity;
     [exact (proj1 (proj1 Hset1))|exact Hwoken]).
Qed.

Lemma writer_release_lets_sleepers_compete_witness :
  ∃ s1 s2, run_call UnlockWrite write_held = Ok s1 ∧
           state (lock s1) = 0 ∧ writers s1 = 0%nat ∧
           sleepers s1 = sleepers write_held ∧
           Cond.queue (wait (lock s1)) [] ∧
           (∀ x, is_Some (sleepers write_held !! x) →
                 Cond.woken x (wait (lock s1)) = true) ∧
           run_call (Wake 1%nat) s1 = Ok s2 ∧
           state (lock s2) = 1 ∧
           writers s2 = 0%nat ∧
           readers s2 = 1%nat ∧
           sleepers s2 = delete 1%nat (sleepers write_held).
Proof.
  apply (writer_release_lets_sleepers_compete write_held 1%nat false).
  - exact write_held_reachable.
  - reflexivity.
  - vm_compute. reflexivity.
Defined.

(** X11. A locking call that cannot take the lock parks and changes nothing
    else: its waiter goes to the head of the queue with a cell that holds
    0, and the lock word and the holders stay as they are.
    [vlc_rwlock_wrlock] takes the lock exactly when nobody holds it.
    [vlc_rwlock_rdlock] parks when a writer holds the lock and at no other
    time: a reader is admitted while writers are queued. *)
Theorem locking_parks_on_conflict (s : system) (w : Cond.addr)
  (l : list Cond.addr) :
  reachable s → Cond.stack (wait (lock s)) !! w = None →
  Cond.queue (wait (lock s)) l →
  (∃ s', run_call (WrLock w) s = Ok s' ∧
         if decide (writers s = 0 ∧ readers s = 0)%nat
         then lock s' = {| state := WRITER_BIT; wait := wait (lock s) |} ∧
              writers s' = 1%nat ∧ readers s' = 0%nat ∧
              sleepers s' = sleepers s
         else state (lock s') = state (lock s) ∧
              writers s' = writers s ∧ readers s' = readers s ∧
              sleepers s' = <[w := true]> (sleepers s) ∧
              Cond.queue (wait (lock s')) (w :: l) ∧
              Cond.woken w (wait (lock s')) = false) ∧
  (writers s = 1%nat →
   ∃ s', run_call (RdLock w) s = Ok s' ∧
         state (lock s') = state (lock s) ∧
         writers s' = 1%nat ∧ readers s' = 0%nat ∧
         sleepers s' = <[w := false]> (sleepers s) ∧
         Cond.queue (wait (lock s')) (w :: l) ∧
         Cond.woken w (wait (lock s')) = false) ∧
  (writers s = 0%nat → state (lock s) < READER_MASK →
   ∃ s', run_call (RdLock w) s = Ok s' ∧
         state (lock s') = state (lock s) + 1 ∧
         readers s' = S (readers s) ∧
         sleepers s' = sleepers s ∧
         wait (lock s') = wait (lock s)).
Proof.
  intros Hr Hfresh Hq.
  pose proof long_bounds as [Hneg Hpos].
  pose proof (reachable_parked_ok s Hr) as Hp.
  pose proof (reachable_encoded s Hr) as He.
  destruct (fair_queue s l Hr Hq) as [Hset _].
  destruct (CondExtra.prepare_settled _ l w lock_mutex Hset Hfresh)
    as (σ' & Hprep & Hset').
  assert (Hnew : sleepers s !! w = None).
  { destruct (sleepers s !! w) eqn:Hw; [|reflexivity].
    destruct (proj1 (sleeper_live s w Hp)) as [r Hr']; [eauto|].
    congruence. }
  assert (Hnw : Cond.woken w σ' = false).
  { apply (CondExtra.queued_not_woken σ' (w :: l) w (proj1 Hset')).
    by left. }
  split_and!.
  - simpl. unfold vlc_rwlock_wrlock.
    destruct (decide (writers s = 0 ∧ readers s = 0)%nat) as [[Hw0 Hr0]|Hn].
    + assert (Hz : state (lock s) = 0) by (destruct He; lia).
      rewrite Hz. simpl. eexists. split; [reflexivity|]. simpl.
      rewrite Hw0, Hr0, (delete_id _ _ Hnew). split_and!; reflexivity.
    + assert (Hz : state (lock s) ≠ 0) by (destruct He; lia).
      replace (state (lock s) =? 0) with false
        by (symmetry; apply Z.eqb_neq, Hz).
      simpl. rewrite Hprep. simpl. eexists. split; [reflexivity|]. simpl.
      split_and!; try reflexivity; [exact (proj1 (proj1 Hset'))|exact Hnw].
  - intros H1.
    assert (Hz : state (lock s) = WRITER_BIT ∧ readers s = 0%nat)
      by (destruct He; lia).
    destruct Hz as [Hz Hr0].
    simpl. unfold vlc_rwlock_rdlock. rewrite Hz. simpl.
    rewrite Hprep. simpl. eexists. split; [reflexivity|]. simpl.
    split_and!; try reflexivity; try assumption.
    exact (proj1 (proj1 Hset')).
  - intros Hw0 Hlt.
    assert (Hz : 0 ≤ state (lock s)) by (destruct He; lia).
    simpl. unfold vlc_rwlock_rdlock.
    replace (state (lock s) <? 0) with false
      by (symmetry; apply Z.ltb_ge, Hz).
    replace (state (lock s) >=? READER_MASK) with false
      by (symmetry; rewrite Z.geb_leb; apply Z.leb_gt; lia).
    simpl. eexists. split; [reflexivity|]. simpl.
    rewrite (delete_id _ _ Hnew). split_and!; reflexivity.
Qed.

Lemma locking_parks_on_conflict_witness :
  (∃ s', run_call (WrLock 3%nat) read_held_once = Ok s' ∧
         if decide (writers read_held_once = 0 ∧
                    readers read_held_once = 0)%nat
         then lock s' = {| state := WRITER_BIT;
                           wait := wait (lock read_held_once) |} ∧
              writers s' = 1%nat ∧ readers s' = 0%nat ∧
              sleepers s' = sleepers read_held_once
         else state (lock s') = state (lock read_held_once) ∧
              writers s' = writers read_held_once ∧
              readers s' = readers read_held_once ∧
              sleepers s' = <[3%nat := true]> (sleepers read_held_once) ∧
              Cond.queue (wait (lock s')) [3; 2]%nat ∧
              Cond.woken 3%nat (wait (lock s')) = false) ∧
  (writers read_held_once = 1%nat →
   ∃ s', run_call (RdLock 3%nat) read_held_once = Ok s' ∧
         state (lock s') = state (lock read_held_once) ∧
         writers s' = 1%nat ∧ readers s' = 0%nat ∧
         sleepers s' = <[3%nat := false]> (sleepers read_held_once) ∧
         Cond.queue (wait (lock s')) [3; 2]%nat ∧
         Cond.woken 3%nat (wait (lock s')) = false) ∧
  (writers read_held_once = 0%nat →
   state (lock read_held_once) < READER_MASK →
   ∃ s', run_call (RdLock 3%nat) read_held_once = Ok s' ∧
         state (lock s') = state (lock read_held_once) + 1 ∧
         readers s' = S (readers read_held_once) ∧
         sleepers s' = sleepers read_held_once ∧
         wait (lock s') = wait (lock read_held_once)).
Proof.
  apply (locking_parks_on_conflict read_held_once 3%nat [2]%nat).
  - exact read_held_once_reachable.
  - vm_compute. reflexivity.
  - exact (proj1 (proj1 wait_of_read_held)).
Defined.

(** X12. [vlc_rwlock_destroy] checks the queue of [lock->wait] and nothing
    else: it passes exactly when no thread is queued, whatever the lock
    word holds; it passes on a lock that nobody is parked on, held or not,
    and right after a write unlock, when the threads that were parked have
    been woken but have not run yet. *)
Theorem rwlock_destroy_checks_queue_only (s : system) :
  reachable s →
  (vlc_rwlock_destroy (lock s) = Ok tt ↔ Cond.queue (wait (lock s)) []) ∧
  (¬ Cond.queue (wait (lock s)) [] →
   vlc_rwlock_destroy (lock s) = Aborted) ∧
  (sleepers s = ∅ → vlc_rwlock_destroy (lock s) = Ok tt) ∧
  (∀ z, vlc_rwlock_destroy {| state := z; wait := wait (lock s) |} =
        vlc_rwlock_destroy (lock s)) ∧
  ((0 < writers s)%nat →
   ∃ s1, run_call UnlockWrite s = Ok s1 ∧
         vlc_rwlock_destroy (lock s1) = Ok tt).
Proof.
  intros Hr.
  pose proof (reachable_parked_ok s Hr) as Hp.
  destruct (reachable_fair s Hr) as [(l & Hset & _) _].
  pose proof (proj1 (proj1 Hset)) as Hq.
  assert (Hiff : vlc_rwlock_destroy (lock s) = Ok tt ↔
                 Cond.queue (wait (lock s)) []).
  { unfold vlc_rwlock_destroy, Cond.vlc_cond_destroy.
    rewrite assert_Ok, bool_decide_eq_true. reflexivity. }
  split_and!.
  - exact Hiff.
  - intros Hn. unfold vlc_rwlock_destroy, Cond.vlc_cond_destroy.
    destruct (Cond.head (wait (lock s))) eqn:Hh; [reflexivity|].
    exfalso. apply Hn. exact Hh.
  - intros Hempty. apply Hiff. destruct l as [|w l]; [exact Hq|].
    exfalso.
    assert (Hw : is_Some (sleepers s !! w)).
    { apply (sleeper_live s w Hp).
      eapply CondTheory.lseg_live; [exact Hq|by left]. }
    rewrite Hempty, lookup_empty in Hw. by destruct Hw.
  - reflexivity.
  - intros Hw.
    assert (Hst : state (lock s) = WRITER_BIT).
    { destruct (reachable_encoded s Hr) as [(Hw0 & _)|(_ & _ & Hst)];
        [lia|exact Hst]. }
    destruct (CondExtra.broadcast_settled _ l Hset)
      as (σ1 & Hb & Hset1 & _).
    eexists. split.
    { simpl. rewrite (unlock_write _ Hst), Hb. simpl. reflexivity. }
    simpl. unfold vlc_rwlock_destroy, Cond.vlc_cond_destroy. simpl.
    rewrite assert_Ok, bool_decide_eq_true.
    exact (proj1 (proj1 Hset1)).
Qed.

Lemma rwlock_destroy_checks_queue_only_witness :
  (vlc_rwlock_destroy (lock write_held) = Ok tt ↔
   Cond.queue (wait (lock write_held)) []) ∧
  (¬ Cond.queue (wait (lock write_held)) [] →
   vlc_rwlock_destroy (lock write_held) = Aborted) ∧
  (sleepers write_held = ∅ → vlc_rwlock_destroy (lock write_held) = Ok tt) ∧
  (∀ z, vlc_rwlock_destroy {| state := z;
                              wait := wait (lock write_held) |} =
        vlc_rwlock_destroy (lock write_held)) ∧
  ((0 < writers write_held)%nat →
   ∃ s1, run_call UnlockWrite write_held = Ok s1 ∧
         vlc_rwlock_destroy (lock s1) = Ok tt).
Proof.
  apply (rwlock_destroy_checks_queue_only write_held).
  exact write_held_reachable.
Defined.

End RWLockExtra.

(** * More on the semaphore *)

Module SemExtra.
Import Sem SemTheory.

Lemma exec_app sch1 :
  ∀ sch2 s,
    exec (sch1 ++ sch2) s =
      ((exec sch2 (exec sch1 s).1).1,
       (exec sch1 s).2 ++ (exec sch2 (exec sch1 s).1).2).
Proof.
  induction sch1 as [|ta sch1 IH]; intros sch2 s.
  - cbn [app]. simpl. destruct (exec sch2 s). reflexivity.
  - rewrite <- app_comm_cons, !exec_cons, IH. cbn [fst snd].
    rewrite app_assoc. reflexivity.
Qed.

(** One turn of a thread whose place in the code is known. *)
Lemma step_at t a p v m p' v' es :
  turn a p v = (p', v', es) →
  step (t, a) {| value := v; threads := <[t := p]> m |} =
    ({| value := v'; threads := <[t := p']> m |}, (λ e, (t, e)) <$> es).
Proof.
  intros Ht. unfold step. simpl.
  rewrite pc_of_insert, decide_True by reflexivity.
  rewrite Ht, insert_insert_eq. reflexivity.
Qed.

Lemma exec_at t a p v m p' v' es sch :
  turn a p v = (p', v', es) →
  exec ((t, a) :: sch) {| value := v; threads := <[t := p]> m |} =
    ((exec sch {| value := v'; threads := <[t := p']> m |}).1,
     ((λ e, (t, e)) <$> es)
     ++ (exec sch {| value := v'; threads := <[t := p']> m |}).2).
Proof.
  intros Ht. rewrite exec_cons, (step_at _ _ _ _ _ _ _ _ Ht). reflexivity.
Qed.

Lemma exec_enter t f s sch :
  pc_of t s = Idle →
  exec ((t, Enter f) :: sch) s =
    ((exec sch {| value := value s;
                  threads := <[t := entry f]> (threads s) |}).1,
     (t, Call f)
     :: (exec sch {| value := value s;
                     threads := <[t := entry f]> (threads s) |}).2).
Proof.
  intros Hidle. rewrite exec_cons.
  assert (Hs : step (t, Enter f) s =
                 ({| value := value s;
                     threads := <[t := entry f]> (threads s) |},
                  [(t, Call f)])).
  { unfold step. simpl. rewrite Hidle. reflexivity. }
  rewrite Hs. reflexivity.
Qed.

(** A thread that stays parked. *)
Lemma exec_parked t p v m n :
  (p = WaitPark ∨ p = TimedPark) → v = 0 →
  exec (replicate n (t, Run Normal))
       {| value := v; threads := <[t := p]> m |} =
    ({| value := v; threads := <[t := p]> m |}, []).
Proof.
  intros Hp ->. induction n as [|n IH]; [reflexivity|].
  cbn [replicate].
  assert (Ht : turn (Run Normal) p 0 = (p, 0, []))
    by (destruct Hp as [-> | ->]; reflexivity).
  rewrite (exec_at _ _ _ _ _ _ _ _ _ Ht), IH. reflexivity.
Qed.

(** X13. [vlc_sem_wait] and [vlc_sem_timedwait] take a permit that is
    there without parking: on a count above 0, a call that no other thread
    interferes with returns 0 within three instructions, one decrement
    made, if only its last compare-exchange does not fail spuriously. The
    deadline of [vlc_sem_timedwait] is not looked at: the call succeeds
    even if every instruction finds the deadline elapsed. *)
Theorem wait_takes_available_permit (s : state) (t : nat) (f : func)
  (c1 c2 c3 : choice) :
  state_ok s → pc_of t s = Idle → f ≠ Post → 0 < value s →
  spurious c3 = false →
  exec [(t, Enter f); (t, Run c1); (t, Run c2); (t, Run c3)] s =
    ({| value := value s - 1; threads := <[t := Idle]> (threads s) |},
     [(t, Call f); (t, Dec (value s)); (t, Ret f 0)]).
Proof.
  intros [Hv _] Hidle Hf Hpos Hc3.
  rewrite (exec_enter _ _ _ _ Hidle).
  set (v := value s) in *. set (m := threads s).
  assert (Hidle' : ∀ c v', turn (Run c) Idle v' = (Idle, v', []))
    by reflexivity.
  destruct f; [contradiction| |].
  - destruct ((v =? 1) && negb (spurious c1)) eqn:Hcas.
    + apply andb_true_iff in Hcas as [Hv1 Hs1]. apply Z.eqb_eq in Hv1.
      assert (H1 : turn (Run c1) (WaitCas 1) v =
                     (Idle, 0, [Dec 1; Ret SemWait 0])).
      { simpl. unfold cas_weak. rewrite Hv1, Hs1. reflexivity. }
      cbn [entry]. rewrite (exec_at _ _ _ _ _ _ _ _ _ H1).
      rewrite (exec_at _ _ _ _ _ _ _ _ _ (Hidle' c2 0)).
      rewrite (exec_at _ _ _ _ _ _ _ _ _ (Hidle' c3 0)).
      rewrite Hv1. reflexivity.
    + assert (H1 : turn (Run c1) (WaitCas 1) v = (WaitTest v, v, [])).
      { simpl. unfold cas_weak. rewrite Hcas. reflexivity. }
      assert (H2 : turn (Run c2) (WaitTest v) v = (WaitCas v, v, [])).
      { simpl. destruct (Z.eqb_spec v 0); [lia|reflexivity]. }
      assert (H3 : turn (Run c3) (WaitCas v) v =
                     (Idle, v - 1, [Dec v; Ret SemWait 0])).
      { simpl. unfold cas_weak. rewrite Z.eqb_refl, Hc3. simpl.
        rewrite to_uint_id by lia. reflexivity. }
      cbn [entry]. rewrite (exec_at _ _ _ _ _ _ _ _ _ H1).
      rewrite (exec_at _ _ _ _ _ _ _ _ _ H2).
      rewrite (exec_at _ _ _ _ _ _ _ _ _ H3). reflexivity.
  - destruct ((v =? 1) && negb (spurious c1)) eqn:Hcas.
    + apply andb_true_iff in Hcas as [Hv1 Hs1]. apply Z.eqb_eq in Hv1.
      assert (H1 : turn (Run c1) (TimedCas 1) v =
                     (Idle, 0, [Dec 1; Ret TimedWait 0])).
      { simpl. unfold cas_weak. rewrite Hv1, Hs1. reflexivity. }
      cbn [entry]. rewrite (exec_at _ _ _ _ _ _ _ _ _ H1).
      rewrite (exec_at _ _ _ _ _ _ _ _ _ (Hidle' c2 0)).
      rewrite (exec_at _ _ _ _ _ _ _ _ _ (Hidle' c3 0)).
      rewrite Hv1. reflexivity.
    + assert (H1 : turn (Run c1) (TimedCas 1) v = (TimedTest v, v, [])).
      { simpl. unfold cas_weak. rewrite Hcas. reflexivity. }
      assert (H2 : turn (Run c2) (TimedTest v) v = (TimedCas v, v, [])).
      { simpl. destruct (Z.eqb_spec v 0); [lia|reflexivity]. }
      assert (H3 : turn (Run c3) (TimedCas v) v =
                     (Idle, v - 1, [Dec v; Ret TimedWait 0])).
      { simpl. unfold cas_weak. rewrite Z.eqb_refl, Hc3. simpl.
        rewrite to_uint_id by lia. reflexivity. }
      cbn [entry]. rewrite (exec_at _ _ _ _ _ _ _ _ _ H1).
      rewrite (exec_at _ _ _ _ _ _ _ _ _ H2).
      rewrite (exec_at _ _ _ _ _ _ _ _ _ H3). reflexivity.
Qed.

Lemma wait_takes_available_permit_witness :
  exec [(7%nat, Enter TimedWait); (7%nat, Run Elapsed);
        (7%nat, Run Elapsed); (7%nat, Run Elapsed)] (vlc_sem_init 2) =
    ({| value := value (vlc_sem_init 2) - 1;
        threads := <[7%nat := Idle]> (threads (vlc_sem_init 2)) |},
     [(7%nat, Call TimedWait); (7%nat, Dec (value (vlc_sem_init 2)));
      (7%nat, Ret TimedWait 0)]).
Proof.
  apply (wait_takes_available_permit (vlc_sem_init 2) 7%nat TimedWait
           Elapsed Elapsed Elapsed).
  - apply init_ok.
  - reflexivity.
  - discriminate.
  - reflexivity.
  - reflexivity.
Defined.

(** X14. On a count of 0, a call that no other thread interferes with
    parks after a failed compare-exchange and a test. [vlc_sem_wait] and
    [vlc_sem_timedwait] then stay parked for as long as the count is 0 and
    nothing wakes them, without having touched the count;
    [vlc_sem_timedwait] returns [ETIMEDOUT] when its deadline elapses in
    the park. *)
Theorem wait_parks_on_zero_count (s : state) (t : nat) (c1 c2 : choice) :
  pc_of t s = Idle → value s = 0 →
  (∀ n, exec ([(t, Enter SemWait); (t, Run c1); (t, Run c2)]
              ++ replicate n (t, Run Normal)) s =
          ({| value := 0; threads := <[t := WaitPark]> (threads s) |},
           [(t, Call SemWait)])) ∧
  (∀ n, exec ([(t, Enter TimedWait); (t, Run c1); (t, Run c2)]
              ++ replicate n (t, Run Normal)) s =
          ({| value := 0; threads := <[t := TimedPark]> (threads s) |},
           [(t, Call TimedWait)])) ∧
  exec [(t, Enter TimedWait); (t, Run c1); (t, Run c2); (t, Run Elapsed)] s =
    ({| value := 0; threads := <[t := Idle]> (threads s) |},
     [(t, Call TimedWait); (t, Ret TimedWait ETIMEDOUT)]).
Proof.
  intros Hidle Hz.
  assert (H1 : turn (Run c1) (WaitCas 1) 0 = (WaitTest 0, 0, []))
    by (destruct c1; reflexivity).
  assert (H2 : turn (Run c2) (WaitTest 0) 0 = (WaitPark, 0, []))
    by reflexivity.
  assert (H1' : turn (Run c1) (TimedCas 1) 0 = (TimedTest 0, 0, []))
    by (destruct c1; reflexivity).
  assert (H2' : turn (Run c2) (TimedTest 0) 0 = (TimedPark, 0, []))
    by reflexivity.
  assert (H3' : turn (Run Elapsed) TimedPark 0 =
                  (Idle, 0, [Ret TimedWait ETIMEDOUT]))
    by reflexivity.
  split_and!.
  - intros n. cbn [app]. rewrite (exec_enter _ _ _ _ Hidle), Hz.
    cbn [entry]. rewrite (exec_at _ _ _ _ _ _ _ _ _ H1).
    rewrite (exec_at _ _ _ _ _ _ _ _ _ H2).
    rewrite exec_parked by auto. reflexivity.
  - intros n. cbn [app]. rewrite (exec_enter _ _ _ _ Hidle), Hz.
    cbn [entry]. rewrite (exec_at _ _ _ _ _ _ _ _ _ H1').
    rewrite (exec_at _ _ _ _ _ _ _ _ _ H2').
    rewrite exec_parked by auto. reflexivity.
  - rewrite (exec_enter _ _ _ _ Hidle), Hz.
    cbn [entry]. rewrite (exec_at _ _ _ _ _ _ _ _ _ H1').
    rewrite (exec_at _ _ _ _ _ _ _ _ _ H2').
    rewrite (exec_at _ _ _ _ _ _ _ _ _ H3'). reflexivity.
Qed.

Lemma wait_parks_on_zero_count_witness :
  (∀ n, exec ([(7%nat, Enter SemWait); (7%nat, Run Normal);
               (7%nat, Run Normal)]
              ++ replicate n (7%nat, Run Normal)) (vlc_sem_init 0) =
          ({| value := 0;
              threads := <[7%nat := WaitPark]> (threads (vlc_sem_init 0)) |},
           [(7%nat, Call SemWait)])) ∧
  (∀ n, exec ([(7%nat, Enter TimedWait); (7%nat, Run Normal);
               (7%nat, Run Normal)]
              ++ replicate n (7%nat, Run Normal)) (vlc_sem_init 0) =
          ({| value := 0;
              threads := <[7%nat := TimedPark]> (threads (vlc_sem_init 0)) |},
           [(7%nat, Call TimedWait)])) ∧
  exec [(7%nat, Enter TimedWait); (7%nat, Run Normal); (7%nat, Run Normal);
        (7%nat, Run Elapsed)] (vlc_sem_init 0) =
    ({| value := 0;
        threads := <[7%nat := Idle]> (threads (vlc_sem_init 0)) |},
     [(7%nat, Call TimedWait); (7%nat, Ret TimedWait ETIMEDOUT)]).
Proof.
  apply (wait_parks_on_zero_count (vlc_sem_init 0) 7%nat Normal Normal);
    reflexivity.
Defined.

(** X15. A post wakes a parked waiter. With the count at 0, a thread [t]
    parked in [vlc_sem_wait] or [vlc_sem_timedwait] and a thread [u] outside
    of any call: once [u] has run [vlc_sem_post], which returns 0, the park
    of [t] returns and its next compare-exchange takes the permit; [t]
    returns 0 and the count is 0 again. *)
Theorem post_wakes_parked_waiter (s : state) (t u : nat) (k : nat)
  (f : func) :
  state_ok s → value s = 0 → pc_of u s = Idle →
  (f = SemWait ∧ pc_of t s = WaitPark) ∨
  (f = TimedWait ∧ pc_of t s = TimedPark) →
  exec (post_alone u k ++ [(t, Run Normal); (t, Run Normal)]) s =
    ({| value := 0;
        threads := <[t := Idle]> (<[u := Idle]> (threads s)) |},
     [(u, Call Post); (u, Inc 0); (u, Notify); (u, Ret Post 0);
      (t, Dec 1); (t, Ret f 0)]).
Proof.
  intros Hs Hz Hu Ht.
  destruct (post_alone_runs s u Hs Hu) as [_ Hpost].
  specialize (Hpost ltac:(rewrite Hz; reflexivity) k).
  rewrite Hz in Hpost. change (0 + 1) with 1 in Hpost.
  assert (Hpark : ∀ p, pc_of t s = p → p ≠ Idle →
            {| value := 1; threads := <[u := Idle]> (threads s) |} =
            {| value := 1;
               threads := <[t := p]> (<[u := Idle]> (threads s)) |}).
  { intros p Hp Hne. f_equal. symmetry. apply insert_id.
    assert (Htu : u ≠ t) by (intros ->; congruence).
    rewrite lookup_insert_ne by exact Htu.
    unfold pc_of in Hp. destruct (threads s !! t) as [q|]; simpl in Hp;
      congruence. }
  rewrite exec_app, Hpost. cbn [fst snd].
  destruct Ht as [[-> Ht]|[-> Ht]];
    rewrite (Hpark _ Ht ltac:(discriminate)).
  - assert (H1 : turn (Run Normal) WaitPark 1 = (WaitCas 1, 1, []))
      by reflexivity.
    assert (H2 : turn (Run Normal) (WaitCas 1) 1 =
                   (Idle, 0, [Dec 1; Ret SemWait 0]))
      by reflexivity.
    rewrite (exec_at _ _ _ _ _ _ _ _ _ H1).
    rewrite (exec_at _ _ _ _ _ _ _ _ _ H2). reflexivity.
  - assert (H1 : turn (Run Normal) TimedPark 1 = (TimedCas 1, 1, []))
      by reflexivity.
    assert (H2 : turn (Run Normal) (TimedCas 1) 1 =
                   (Idle, 0, [Dec 1; Ret TimedWait 0]))
      by reflexivity.
    rewrite (exec_at _ _ _ _ _ _ _ _ _ H1).
    rewrite (exec_at _ _ _ _ _ _ _ _ _ H2). reflexivity.
Qed.

Lemma post_wakes_parked_waiter_witness :
  exec (post_alone 8 1 ++ [(7%nat, Run Normal); (7%nat, Run Normal)])
       sample_sleeper =
    ({| value := 0;
        threads := <[7%nat := Idle]>
                     (<[8%nat := Idle]> (threads sample_sleeper)) |},
     [(8%nat, Call Post); (8%nat, Inc 0); (8%nat, Notify);
      (8%nat, Ret Post 0); (7%nat, Dec 1); (7%nat, Ret SemWait 0)]).
Proof.
  apply (post_wakes_parked_waiter sample_sleeper 7%nat 8%nat 1%nat SemWait).
  - apply exec_ok, init_ok.
  - reflexivity.
  - reflexivity.
  - left. split; reflexivity.
Defined.

Lemma turn_permits a p v p' v' es t :
  pc_ok p → 0 ≤ v ≤ UINT_MAX → a ≠ Enter Post → in_post p = false →
  turn a p v = (p', v', es) →
  v' = v - waits ((λ e, (t, e)) <$> es).
Proof.
  intros Hp Hv Ha Hin Ht. unfold waits.
  turn_cases a p c; simpl; try done;
    rewrite ?to_uint_id by lia; try lia.
Qed.

Lemma exec_permits sch :
  ∀ s, state_ok s → no_post sch s →
       value (exec sch s).1 = value s - waits (exec sch s).2.
Proof.
  induction sch as [|ta sch IH]; intros s Hs Hn.
  - simpl. unfold waits. simpl. lia.
  - destruct Hn as (Ha & Hin & Hn). rewrite exec_cons. simpl.
    pose proof (step_ok ta s Hs) as Hs1.
    destruct ta as [t a]. simpl in *.
    destruct (turn a (pc_of t s) (value s)) as [[p' v'] es] eqn:Ht.
    rewrite (step_eq _ _ _ _ _ _ Ht) in *. simpl in *.
    destruct Hs as [Hrange Hpc].
    pose proof (turn_permits _ _ _ _ _ _ t (Hpc t) Hrange Ha Hin Ht) as Hv'.
    pose proof (IH _ Hs1 Hn) as Hv2. simpl in Hv2.
    unfold waits in *. rewrite count_app. lia.
Qed.

(** X16. Waits hand out the permits that are there and no more: over a
    schedule in which no thread is in, or enters, [vlc_sem_post], the count
    goes down by the number of calls of [vlc_sem_wait] and
    [vlc_sem_timedwait] that returned 0, and that number is at most the
    count at the start. *)
Theorem waits_bounded_by_permits (s : state) (sch : list (nat * action)) :
  state_ok s → no_post sch s →
  value (exec sch s).1 = value s - waits (exec sch s).2 ∧
  0 ≤ waits (exec sch s).2 ≤ value s.
Proof.
  intros Hs Hn. pose proof (exec_permits sch s Hs Hn) as Hv.
  pose proof (exec_ok sch s Hs) as [Hr _].
  pose proof (count_nonneg
                (λ e, bool_decide (e = Ret SemWait 0)
                      || bool_decide (e = Ret TimedWait 0))
                (exec sch s).2) as Hc.
  unfold waits in *. lia.
Qed.

Lemma waits_bounded_by_permits_witness :
  value (exec sample_rush (vlc_sem_init 2)).1 =
    value (vlc_sem_init 2) - waits (exec sample_rush (vlc_sem_init 2)).2 ∧
  0 ≤ waits (exec sample_rush (vlc_sem_init 2)).2 ≤ value (vlc_sem_init 2).
Proof.
  apply (waits_bounded_by_permits (vlc_sem_init 2) sample_rush).
  - apply init_ok.
  - vm_compute. repeat split; discriminate.
Defined.

End SemExtra.

(** * More on the lock marks *)

Module MarksExtra.
Import Marks MarksTheory.

Lemma run_marks_snoc os o :
  ∀ root, run_marks (os ++ [o]) root = (r ← run_marks os root; run_mark o r).
Proof.
  induction os as [|a os IH]; intros root; simpl.
  - destruct (run_mark o root); reflexivity.
  - destruct (run_mark a root); simpl; [apply IH|reflexivity..].
Qed.

Lemma balance_snoc lock os o :
  balance lock (os ++ [o]) = balance lock os + balance lock [o].
Proof.
  induction os as [|a os IH]; simpl.
  - destruct o; lia.
  - destruct a; rewrite IH; simpl; lia.
Qed.

Lemma balance_le lock os : balance lock os ≤ Z.of_nat (length os).
Proof.
  induction os as [|a os IH]; simpl; [lia|].
  destruct a; destruct (decide _); lia.
Qed.

Lemma unmark_absent lock (root : gmap Z Z) :
  root !! lock = None → vlc_lock_unmark lock root = Aborted.
Proof. intros H. unfold vlc_lock_unmark, tfind. rewrite H. reflexivity. Qed.

Lemma unmark_cases lock (root : gmap Z Z) :
  vlc_lock_unmark lock root = Aborted ∨
  ∃ root', vlc_lock_unmark lock root = Ok root'.
Proof.
  unfold vlc_lock_unmark, tfind. destruct (root !! lock) as [r|]; [|by left].
  destruct (0 <? r); simpl; [|by left].
  destruct (to_uintptr (r - 1) =? 0); right; eauto.
Qed.

Lemma mark_total lock (root : gmap Z Z) :
  ∃ root', vlc_lock_mark true lock root = Ok root'.
Proof.
  unfold vlc_lock_mark. simpl. destruct (tsearch _ root). eauto.
Qed.

(** The tree after a run of calls from an empty tree. *)
Lemma run_marks_tally os :
  Z.of_nat (length os) ≤ UINTPTR_MAX →
  ∀ root, run_marks os ∅ = Ok root →
          ∀ lock, 0 ≤ balance lock os ∧
                  root !! lock = (if balance lock os =? 0 then None
                                  else Some (balance lock os)).
Proof.
  induction os as [|o os IH] using rev_ind; intros Hlen root Hrun lock.
  - simpl in Hrun. injection Hrun as <-. simpl. split; [lia|].
    apply lookup_empty.
  - rewrite length_app in Hlen. simpl in Hlen.
    rewrite run_marks_snoc in Hrun.
    apply bind_Ok in Hrun as (root0 & Hrun0 & Hstep).
    assert (IH' := IH ltac:(lia) root0 Hrun0).
    rewrite balance_snoc.
    destruct o as [l|l]; simpl in Hstep |- *.
    + destruct (IH' l) as [Hb Hl]. pose proof (balance_le l os) as Hle.
      assert (Hroot : root = <[l := balance l os + 1]> root0).
      { destruct (Z.eqb_spec (balance l os) 0) as [Hz|Hz].
        - rewrite (mark_absent l root0 Hl) in Hstep. rewrite Hz.
          injection Hstep as <-. reflexivity.
        - rewrite (mark_present l root0 _ Hl) in Hstep by lia.
          injection Hstep as <-. reflexivity. }
      subst root. destruct (IH' lock) as [Hb' Hl'].
      destruct (decide (l = lock)) as [->|Hne].
      * rewrite lookup_insert_eq. split; [lia|].
        destruct (Z.eqb_spec (balance lock os + (1 + 0)) 0); [lia|].
        f_equal; lia.
      * rewrite lookup_insert_ne by exact Hne.
        replace (balance lock os + (0 + 0)) with (balance lock os) by lia.
        split; assumption.
    + destruct (IH' l) as [Hb Hl]. pose proof (balance_le l os) as Hle.
      assert (Hcases : 0 < balance l os ∧
                root = if balance l os =? 1 then delete l root0
                       else <[l := balance l os - 1]> root0).
      { destruct (Z.eqb_spec (balance l os) 0) as [Hz|Hz].
        - rewrite (unmark_absent l root0 Hl) in Hstep. discriminate.
        - split; [lia|].
          destruct (Z.eqb_spec (balance l os) 1) as [H1|H1].
          + rewrite H1 in Hl. rewrite (unmark_last l root0 Hl) in Hstep.
            injection Hstep as <-. reflexivity.
          + rewrite (unmark_more l root0 _ Hl) in Hstep by lia.
            injection Hstep as <-. reflexivity. }
      destruct Hcases as [Hpos ->]. destruct (IH' lock) as [Hb' Hl'].
      destruct (decide (l = lock)) as [->|Hne].
      * split; [lia|].
        destruct (Z.eqb_spec (balance lock os) 1) as [H1|H1].
        -- rewrite lookup_delete_eq.
           destruct (Z.eqb_spec (balance lock os + (-1 + 0)) 0);
             [reflexivity|lia].
        -- rewrite lookup_insert_eq.
           destruct (Z.eqb_spec (balance lock os + (-1 + 0)) 0); [lia|].
           f_equal; lia.
      * replace (balance lock os + (0 + 0)) with (balance lock os) by lia.
        split; [exact Hb'|].
        destruct (balance l os =? 1).
        -- rewrite lookup_delete_ne by exact Hne. exact Hl'.
        -- rewrite lookup_insert_ne by exact Hne. exact Hl'.
Qed.

(** X17. The reference count of a mark is the balance of the calls: after
    any run of [vlc_lock_mark] and [vlc_lock_unmark] from an empty tree that
    passes every assertion, a lock is in the tree exactly when it has been
    marked more often than unmarked, its [refs] is the difference, never 0,
    and [vlc_lock_marked] answers accordingly; a further
    [vlc_lock_unmark] of a lock whose balance is 0 fails its assertion. *)
Theorem mark_refs_is_balance (os : list mark_op) (root : gmap Z Z)
  (lock : Z) :
  Z.of_nat (length os) ≤ UINTPTR_MAX → run_marks os ∅ = Ok root →
  0 ≤ balance lock os ∧
  root !! lock = (if balance lock os =? 0 then None
                  else Some (balance lock os)) ∧
  vlc_lock_marked lock root = (0 <? balance lock os) ∧
  (balance lock os = 0 → vlc_lock_unmark lock root = Aborted).
Proof.
  intros Hlen Hrun.
  destruct (run_marks_tally os Hlen root Hrun lock) as [Hb Hl].
  split_and!; [exact Hb|exact Hl| |].
  - rewrite marked_lookup, Hl.
    destruct (Z.eqb_spec (balance lock os) 0) as [Hz|Hz].
    + rewrite Hz. reflexivity.
    + destruct (Z.ltb_spec 0 (balance lock os)); [|lia].
      apply bool_decide_eq_true. eauto.
  - intros Hz. apply unmark_absent. rewrite Hl, Hz. reflexivity.
Qed.

Lemma mark_refs_is_balance_witness :
  0 ≤ balance 7 sample_marks ∧
  ({[7 := 2]} : gmap Z Z) !! 7 =
    (if balance 7 sample_marks =? 0 then None
     else Some (balance 7 sample_marks)) ∧
  vlc_lock_marked 7 {[7 := 2]} = (0 <? balance 7 sample_marks) ∧
  (balance 7 sample_marks = 0 → vlc_lock_unmark 7 {[7 := 2]} = Aborted).
Proof.
  apply (mark_refs_is_balance sample_marks {[7 := 2]} 7).
  - vm_compute. discriminate.
  - vm_compute. reflexivity.
Defined.

(** X18. A run of [vlc_lock_mark] and [vlc_lock_unmark] from an empty tree
    passes every assertion exactly when no lock is, at any point of the
    run, unmarked more often than it has been marked; otherwise the run
    aborts. *)
Theorem unmark_aborts_iff_unbalanced (os : list mark_op) :
  Z.of_nat (length os) ≤ UINTPTR_MAX →
  ((∃ root, run_marks os ∅ = Ok root) ↔
   ∀ k lock, 0 ≤ balance lock (take k os)) ∧
  (run_marks os ∅ = Aborted ∨ ∃ root, run_marks os ∅ = Ok root).
Proof.
  induction os as [|o os IH] using rev_ind; intros Hlen.
  - split; [|right; simpl; eauto]. split.
    + intros _ k lock. rewrite take_nil. simpl. lia.
    + intros _. simpl. eauto.
  - assert (Hlen0 : Z.of_nat (length os) ≤ UINTPTR_MAX).
    { rewrite length_app in Hlen. simpl in Hlen. lia. }
    destruct (IH Hlen0) as [Hiff Hcases].
    rewrite run_marks_snoc. split; [split|].
    + intros [root Hrun] k lock.
      assert (Hrun' : run_marks (os ++ [o]) ∅ = Ok root)
        by (rewrite run_marks_snoc; exact Hrun).
      apply bind_Ok in Hrun as (root0 & Hrun0 & _).
      destruct (decide (k ≤ length os)%nat) as [Hk|Hk].
      * rewrite take_app_le by exact Hk. apply Hiff. eauto.
      * rewrite take_ge by (rewrite length_app; simpl; lia).
        apply (run_marks_tally _ Hlen root Hrun').
    + intros Hpre.
      assert (Hpre0 : ∀ k lock, 0 ≤ balance lock (take k os)).
      { intros k lock. destruct (decide (k ≤ length os)%nat) as [Hk|Hk].
        - rewrite <- (take_app_le os [o] k Hk). apply Hpre.
        - rewrite take_ge by lia.
          rewrite <- (take_app_length os [o]). apply Hpre. }
      destruct (proj2 Hiff Hpre0) as [root0 Hrun0].
      rewrite Hrun0. simpl. destruct o as [l|l]; simpl.
      * apply mark_total.
      * destruct (run_marks_tally os Hlen0 root0 Hrun0 l) as [Hb Hl].
        pose proof (Hpre (S (length os)) l) as Hlast.
        rewrite take_ge in Hlast by (rewrite length_app; simpl; lia).
        rewrite balance_snoc in Hlast. simpl in Hlast.
        rewrite decide_True in Hlast by reflexivity.
        pose proof (balance_le l os) as Hle.
        destruct (Z.eqb_spec (balance l os) 0) as [Hz|Hz]; [lia|].
        destruct (decide (balance l os = 1)) as [H1|H1].
        -- rewrite H1 in Hl. rewrite (unmark_last l root0 Hl). eauto.
        -- rewrite (unmark_more l root0 _ Hl) by lia. eauto.
    + destruct Hcases as [Hab|[root0 Hrun0]].
      * left. rewrite Hab. reflexivity.
      * rewrite Hrun0. simpl. destruct o as [l|l]; simpl.
        -- right. apply mark_total.
        -- apply unmark_cases.
Qed.

Lemma unmark_aborts_iff_unbalanced_witness :
  ((∃ root, run_marks (sample_marks ++ [DoUnmark 9]) ∅ = Ok root) ↔
   ∀ k lock, 0 ≤ balance lock (take k (sample_marks ++ [DoUnmark 9]))) ∧
  (run_marks (sample_marks ++ [DoUnmark 9]) ∅ = Aborted ∨
   ∃ root, run_marks (sample_marks ++ [DoUnmark 9]) ∅ = Ok root).
Proof.
  apply (unmark_aborts_iff_unbalanced (sample_marks ++ [DoUnmark 9])).
  vm_compute. discriminate.
Defined.

(** X19. The marks are per thread. What thread [t] marks or unmarks
    leaves the tree of every other thread as it is: [vlc_mutex_marked]
    answers the same there, for every mutex; the mark of [t] does not let
    another thread unmark the mutex; and [t] itself finds the mutex marked
    until it unmarks it. *)
Theorem mutex_marks_are_per_thread (t t' : nat) (mutex : Z)
  (trees trees' : gmap nat (gmap Z Z)) :
  t ≠ t' → vlc_mutex_mark true t mutex trees = Ok trees' →
  vlc_mutex_marked t mutex trees' = true ∧
  marks_of t' trees' = marks_of t' trees ∧
  (vlc_mutex_marked t' mutex trees = false →
   vlc_mutex_unmark t' mutex trees' = Aborted) ∧
  (∀ trees'', vlc_mutex_unmark t mutex trees' = Ok trees'' →
              marks_of t' trees'' = marks_of t' trees) ∧
  (∀ m trees'', m ≠ mutex → vlc_mutex_unmark t m trees' = Ok trees'' →
                vlc_mutex_marked t mutex trees'' = true).
Proof.
  intros Hne Hmark. unfold vlc_mutex_mark in Hmark.
  apply bind_Ok in Hmark as (root & Hroot & Hmark). injection Hmark as <-.
  assert (Hother : ∀ r (tr : gmap nat (gmap Z Z)),
            marks_of t' (<[t := r]> tr) = marks_of t' tr).
  { intros r tr. unfold marks_of. rewrite lookup_insert_ne by exact Hne.
    reflexivity. }
  assert (Hself : marks_of t (<[t := root]> trees) = root).
  { unfold marks_of. rewrite lookup_insert_eq. reflexivity. }
  assert (Hin : is_Some (root !! mutex)).
  { unfold vlc_lock_mark in Hroot. simpl in Hroot.
    destruct (tsearch _ _) as [r root1]. injection Hroot as <-.
    rewrite lookup_insert_eq. eauto. }
  split_and!.
  - unfold vlc_mutex_marked. rewrite Hself, marked_lookup.
    apply bool_decide_eq_true, Hin.
  - apply Hother.
  - intros Hno. unfold vlc_mutex_unmark. rewrite Hother.
    unfold vlc_mutex_marked in Hno. rewrite marked_lookup in Hno.
    apply bool_decide_eq_false in Hno.
    rewrite unmark_absent; [reflexivity|].
    destruct (marks_of t' trees !! mutex) eqn:Hl; [|reflexivity].
    exfalso. apply Hno. eauto.
  - intros trees'' Hun. unfold vlc_mutex_unmark in Hun.
    apply bind_Ok in Hun as (root' & _ & Hun). injection Hun as <-.
    rewrite Hother. apply Hother.
  - intros m trees'' Hm Hun. unfold vlc_mutex_unmark in Hun.
    apply bind_Ok in Hun as (root' & Hroot' & Hun). injection Hun as <-.
    rewrite Hself in Hroot'.
    unfold vlc_mutex_marked, marks_of. rewrite lookup_insert_eq. simpl.
    rewrite marked_lookup. apply bool_decide_eq_true.
    unfold vlc_lock_unmark, tfind, tdelete in Hroot'.
    destruct (root !! m) as [r|]; [|discriminate].
    destruct (0 <? r); simpl in Hroot'; [|discriminate].
    destruct (to_uintptr (r - 1) =? 0); injection Hroot' as <-.
    + rewrite lookup_delete_ne by exact Hm. exact Hin.
    + rewrite lookup_insert_ne by exact Hm. exact Hin.
Qed.

Lemma mutex_marks_are_per_thread_witness :
  vlc_mutex_marked 1 7 {[1%nat := {[7 := 1]}]} = true ∧
  marks_of 2 {[1%nat := {[7 := 1]}]} = marks_of 2 ∅ ∧
  (vlc_mutex_marked 2 7 ∅ = false →
   vlc_mutex_unmark 2 7 {[1%nat := {[7 := 1]}]} = Aborted) ∧
  (∀ trees'', vlc_mutex_unmark 1 7 {[1%nat := {[7 := 1]}]} = Ok trees'' →
              marks_of 2 trees'' = marks_of 2 ∅) ∧
  (∀ m trees'', m ≠ 7 →
                vlc_mutex_unmark 1 m {[1%nat := {[7 := 1]}]} = Ok trees'' →
                vlc_mutex_marked 1 7 trees'' = true).
Proof.
  apply (mutex_marks_are_per_thread 1 2 7 ∅ {[1%nat := {[7 := 1]}]}).
  - discriminate.
  - vm_compute. reflexivity.
Defined.

(** X20. [vlc_lock_mark_cmp] is a total order on marks by the address of
    their lock and looks at nothing else: it answers -1, 0 or 1; 0 exactly
    for two marks of the same lock, whatever their [refs]; it is
    antisymmetric and transitive. So the tree holds at most one mark per
    lock. *)
Theorem lock_mark_cmp_total_order (ma mb mc : vlc_lock_mark_t) :
  (vlc_lock_mark_cmp ma mb = -1 ∨ vlc_lock_mark_cmp ma mb = 0 ∨
   vlc_lock_mark_cmp ma mb = 1) ∧
  (vlc_lock_mark_cmp ma mb = 0 ↔ object ma = object mb) ∧
  (vlc_lock_mark_cmp ma mb = -1 ↔ object ma < object mb) ∧
  (vlc_lock_mark_cmp ma mb = 1 ↔ object mb < object ma) ∧
  vlc_lock_mark_cmp ma mb = - vlc_lock_mark_cmp mb ma ∧
  (vlc_lock_mark_cmp ma mb = vlc_lock_mark_cmp mb mc →
   vlc_lock_mark_cmp ma mc = vlc_lock_mark_cmp ma mb) ∧
  (object ma = object mb →
   vlc_lock_mark_cmp ma mc = vlc_lock_mark_cmp mb mc).
Proof.
  unfold vlc_lock_mark_cmp.
  destruct (Z.eqb_spec (object ma) (object mb)),
           (Z.eqb_spec (object mb) (object ma)),
           (Z.eqb_spec (object mb) (object mc)),
           (Z.eqb_spec (object ma) (object mc)),
           (Z.gtb_spec (object ma) (object mb)),
           (Z.gtb_spec (object mb) (object ma)),
           (Z.gtb_spec (object mb) (object mc)),
           (Z.gtb_spec (object ma) (object mc));
    try lia; split_and!; try (intros; lia); try tauto;
    try (split; intros; lia).
Qed.

End MarksExtra.
